(** * dtuf command line front end ([dtuf/main.py]): embedding and properties

    The file follows the layout of [main.py]:
    - [Progress]: the [progress] closure of [doit] and the [bars] dictionary
      of tqdm objects it owns;
    - [Cli]: [access_denied], [get_lifetime], [doit] with its [auth] closure
      and its inner [_doit], run against an arbitrary implementation of the
      [dtuf] package; the package may call [auth] back while it serves a
      call, and [with_callbacks] puts the calls of the closure among the
      events of the statements;
    - [TrustVerifier]: the consumer-side metadata check of the [dtuf]
      package, which [main.py] only calls. *)

From Stdlib Require Import Strings.Byte.
From stdpp Require Import gmap strings list pretty.

Local Open Scope Z_scope.
Local Open Scope string_scope.
Local Open Scope list_scope.

(** Python [bytes]. *)
Abbreviation bytes := (list Byte.byte).

(** * The progress closure *)

Module Progress.

(** The part of a [tqdm.tqdm] object the closure reads and writes:
    [tqdm.tqdm(desc=..., total=..., leave=True)] starts at [n = 0],
    [update(k)] adds [k] to [n], [close()] closes the bar. *)
Record tqdm := Tqdm {
  desc : string;
  total : Z;
  n : Z;
  leave : bool;
  closed : bool
}.

Definition tqdm_new (d : string) (size : Z) : tqdm :=
  {| desc := d; total := size; n := 0; leave := true; closed := false |}.

Definition tqdm_update (k : Z) (b : tqdm) : tqdm :=
  {| desc := desc b; total := total b; n := n b + k;
     leave := leave b; closed := closed b |}.

Definition tqdm_close (b : tqdm) : tqdm :=
  {| desc := desc b; total := total b; n := n b;
     leave := leave b; closed := true |}.

(** [bars] maps a digest to a reference to a tqdm object. The objects live
    in [heap]; an object's address is its index. Next to each object the heap
    keeps the digest it was created for ([desc] holds only the first eight
    characters of it). *)
Record pstate := PState {
  bars : gmap string nat;
  heap : list (string * tqdm)
}.

(** [bars = {}] *)
Definition init : pstate := {| bars := ∅; heap := [] |}.

(** [dgst[0:8]] *)
Definition dgst_prefix (dgst : string) : string := String.substring 0 8 dgst.

(** In-place update of the tqdm object at address [i]. *)
Definition heap_upd (f : tqdm -> tqdm) (i : nat) (h : list (string * tqdm))
  : list (string * tqdm) :=
  alter (prod_map id f) i h.

(** [def progress(dgst, chunk, size)]. [None] stands for a [KeyError] at one
    of the [bars[dgst]] subscripts. *)
Definition progress (dgst : string) (chunk : bytes) (size : Z) (st : pstate)
  : option pstate :=
  (* if dgst not in bars: bars[dgst] = tqdm.tqdm(...) *)
  let st1 :=
    match bars st !! dgst with
    | None =>
        {| bars := <[dgst := length (heap st)]> (bars st);
           heap := heap st ++ [(dgst, tqdm_new (dgst_prefix dgst) size)] |}
    | Some _ => st
    end in
  (* if len(chunk) > 0: bars[dgst].update(len(chunk)) *)
  st2 ← (if bool_decide (0 < Z.of_nat (length chunk)) then
           i ← bars st1 !! dgst;
           Some {| bars := bars st1;
                   heap := heap_upd (tqdm_update (Z.of_nat (length chunk))) i
                             (heap st1) |}
         else Some st1);
  (* if bars[dgst].n >= bars[dgst].total: *)
  i ← bars st2 !! dgst;
  '(_, b) ← heap st2 !! i;
  if bool_decide (total b <= n b) then
    (* bars[dgst].close(); del bars[dgst] *)
    j ← bars st2 !! dgst;
    Some {| bars := delete dgst (bars st2);
            heap := heap_upd tqdm_close j (heap st2) |}
  else Some st2.

(** One invocation of the callback by the library. *)
Record pcall := PCall { pc_dgst : string; pc_chunk : bytes; pc_size : Z }.

(** A sequence of invocations, in order. *)
Fixpoint run (cs : list pcall) (st : pstate) : option pstate :=
  match cs with
  | [] => Some st
  | c :: cs' =>
      st' ← progress (pc_dgst c) (pc_chunk c) (pc_size c) st;
      run cs' st'
  end.

(** The invocations for one digest with the given chunks. *)
Definition feed (dgst : string) (size : Z) (chunks : list bytes) : list pcall :=
  map (fun c => PCall dgst c size) chunks.

(** Bytes reported so far for [dgst]. *)
Definition reported (dgst : string) (cs : list pcall) : Z :=
  foldr (fun c acc =>
           if bool_decide (pc_dgst c = dgst)
           then Z.of_nat (length (pc_chunk c)) + acc else acc) 0 cs.

(** No tqdm object created for [dgst] is still open. *)
Definition all_closed (dgst : string) (st : pstate) : Prop :=
  ∀ i b, heap st !! i = Some (dgst, b) → closed b = true.

(** A tqdm object created for [dgst] is still open. *)
Definition some_open (dgst : string) (st : pstate) : Prop :=
  ∃ i b, heap st !! i = Some (dgst, b) ∧ closed b = false.

(** Every entry of [bars] refers to an open tqdm object created for its
    key. *)
Definition wf (st : pstate) : Prop :=
  ∀ d i, bars st !! d = Some i →
         ∃ b, heap st !! i = Some (d, b) ∧ closed b = false.

(** The bar of [dgst], if [bars] has one, is the only open object created
    for [dgst]; it has total [s] and has counted [k] bytes. Without a bar
    nothing has been counted. *)
Definition tracked (dgst : string) (s k : Z) (st : pstate) : Prop :=
  wf st ∧
  ((bars st !! dgst = None ∧ k = 0 ∧ all_closed dgst st) ∨
   (∃ i b, bars st !! dgst = Some i ∧ heap st !! i = Some (dgst, b) ∧
           n b = k ∧ total b = s ∧
           ∀ j b', j ≠ i → heap st !! j = Some (dgst, b') → closed b' = true)).

(** [dgst] has no bar and every tqdm object created for it is closed. *)
Definition settled (dgst : string) (st : pstate) : Prop :=
  wf st ∧ bars st !! dgst = None ∧ all_closed dgst st.

(** Two states show the same to the digest [dgst]. *)
Definition same_view (dgst : string) (st st' : pstate) : Prop :=
  bars st' !! dgst = bars st !! dgst ∧
  ∀ j b, heap st' !! j = Some (dgst, b) ↔ heap st !! j = Some (dgst, b).

(** [len(chunk) > 0] guarding [update]. *)
Definition bump (chunk : bytes) (b : tqdm) : tqdm :=
  if bool_decide (0 < Z.of_nat (length chunk))
  then tqdm_update (Z.of_nat (length chunk)) b else b.

(** The last [if] of the closure on the bar [b] at address [i]. *)
Definition finish (dgst : string) (i : nat) (b : tqdm) (st : pstate) : pstate :=
  if bool_decide (total b <= n b) then
    {| bars := delete dgst (bars st);
       heap := <[i := (dgst, tqdm_close b)]> (heap st) |}
  else {| bars := bars st; heap := <[i := (dgst, b)]> (heap st) |}.

(** The state after the first [if] of the closure when [dgst] has no
    bar. *)
Definition opened (dgst : string) (size : Z) (st : pstate) : pstate :=
  {| bars := <[dgst := length (heap st)]> (bars st);
     heap := heap st ++ [(dgst, tqdm_new (dgst_prefix dgst) size)] |}.

End Progress.

(** * [doit] and [_doit] *)

Module Cli.

(** ** Python values *)

(** The exceptions [doit] tells apart, and the ones it can raise itself.
    [mirror_errors] is a dictionary from mirror URL to exception; its
    [values()] are visited in order. *)
#[warnings="-register-all"] Inductive exn :=
| DXFUnauthorizedError
| NoWorkingMirrorError (mirror_errors : list (string * exn))
| SystemExit (code : Z)
| KeyError (key : string)
| AttributeError (name : string)
| NameError (name : string)
| OtherError (name : string).

Inductive outcome (A : Type) :=
| Return (a : A)
| Raise (e : exn).
Arguments Return {A} a.
Arguments Raise {A} e.

(** An iterable as a [for] loop sees it: the items it yields and, for a
    generator that fails part-way, the exception that ends it. *)
Record iter (A : Type) := Iter { items : list A; failure : option exn }.
Arguments Iter {A} items failure.
Arguments items {A} i.
Arguments failure {A} i.

(** [errno.EACCES] *)
Definition EACCES : Z := 13.

(** Truth value of a [str]. *)
Definition truthy (s : string) : bool := negb (String.eqb s "").

(** [choices] *)
Definition choices : list string :=
  ["list-repos"; "auth"; "create-root-key"; "create-metadata-keys";
   "create-metadata"; "reset-keys"; "push-target"; "del-target";
   "push-metadata"; "list-master-targets"; "get-master-expirations";
   "pull-metadata"; "pull-target"; "blob-sizes"; "check-target";
   "list-copy-targets"; "get-copy-expirations"].

(** What [parser.parse_args] returns for a sub-command: [op] is the
    sub-command, [repo] and [args] its positionals. The namespace of
    [list-repos] has no [repo] and no [args]; [doit] never reads them
    there. *)
Record Namespace := { op : string; repo : string; args : list string }.

(** [os.environ] *)
Abbreviation environ_t := (gmap string string).

(** The three classes of the [dtuf] package. *)
Inductive objkind := DTufBase | DTufMaster | DTufCopy.

(** The progress argument handed to the package: the closure or [None]. *)
Definition callback : Type :=
  string -> bytes -> Z -> Progress.pstate -> option Progress.pstate.

(** Types and pure functions of the libraries [main.py] imports. *)
Class PyLib := {
  datetime : Type;
  (** [expiry.isoformat()] *)
  isoformat : datetime -> string;
  timedelta : Type;
  (** what [pytimeparse.parse] returns when it is not [None] *)
  seconds : Type;
  pytimeparse_parse : string -> option seconds;
  (** [timedelta(seconds=x)], [x] possibly [None] *)
  timedelta_seconds : option seconds -> outcome timedelta;
  (** [getattr(logging, name)], [None] for a missing attribute *)
  logattr : Type;
  logging_getattr : string -> option logattr;
  (** [b.decode('utf-8')] *)
  decode_utf8 : bytes -> outcome string;
  (** the chunk iterator [pull_target] yields for a blob *)
  blob_iter : Type;
  (** the response the package passes to the [auth] callback *)
  response : Type
}.

Section Calls.
Context `{PyLib}.

(** The calls [doit] makes into the imported packages, indexed by what they
    return. A method call carries the object it is made on;
    [WriteWithProgress] is [dtuf._write_with_progress], whose output stream
    is always [sys.stdout]; [StdinRead] is [sys.stdin.read()] and [FileRead]
    is [open(name, 'rb')] followed by [f.read()]. A constructor is handed the
    [auth] callback, a function of the object and the response the package
    passes it; [AuthenticateResponse] is the call of line 144,
    [dtuf_obj.authenticate(username, password, response=response)]. *)
Inductive call : Type -> Type :=
| SetFilehandlerLogLevel (l : logattr) : call unit
| SetConsoleLogLevel (l : logattr) : call unit
| NewDTufBase (host : string)
    (auth : objkind -> response -> call (option string))
    (insecure : bool) (auth_host : option string) : call unit
| NewDTufMaster (host repo : string) (repos_root : option string)
    (auth : objkind -> response -> call (option string))
    (insecure : bool) (auth_host : option string)
    (root_lifetime targets_lifetime snapshot_lifetime timestamp_lifetime :
       option timedelta) : call unit
| NewDTufCopy (host repo : string) (repos_root : option string)
    (auth : objkind -> response -> call (option string))
    (insecure : bool) (auth_host : option string) : call unit
| Authenticate (o : objkind) (username password : string)
    (actions : list string) : call (option string)
| AuthenticateResponse (o : objkind) (username password : option string)
    (response : response) : call (option string)
| CreateRootKey (o : objkind) (password : option string) : call unit
| CreateMetadataKeys (o : objkind) (targets snapshot timestamp : option string)
    : call unit
| CreateMetadata (o : objkind) (root targets snapshot timestamp : option string)
    : call unit
| ResetKeys (o : objkind) (root targets snapshot timestamp : option string)
    : call unit
| PushTarget (o : objkind) (target : string) (sources : list string)
    (progress : option callback) : call unit
| DelTarget (o : objkind) (target : string) : call unit
| PushMetadata (o : objkind) (targets snapshot timestamp : option string)
    (progress : option callback) : call unit
| ListTargets (o : objkind) : call (iter string)
| GetExpirations (o : objkind) : call (list (string * datetime))
| PullMetadata (o : objkind) (root_public_key : option string)
    (progress : option callback) : call (iter string)
| PullTarget (o : objkind) (target : string) (digests_and_sizes : bool)
    : call (iter (blob_iter * string * Z))
| WriteWithProgress (it : blob_iter) (dgst : string) (size : Z)
    (progress : option callback) : call unit
| BlobSizes (o : objkind) (target : string) : call (iter Z)
| CheckTarget (o : objkind) (target : string) (files : list string) : call unit
| ListRepos (o : objkind) : call (iter string)
| StdinRead : call string
| FileRead (name : string) : call bytes.

(** The type of the [auth] callback. *)
Definition closure : Type := objkind -> response -> call (option string).

(** [def auth(dtuf_obj, response)] (lines 140-144): the closure reads the
    two variables with [environ.get] and makes one call, on the object and
    with the response the package passes it. It drops what [authenticate]
    returns; what [authenticate] raises goes back to the package. *)
Definition auth (environ : environ_t) : closure :=
  fun dtuf_obj response =>
    let username := environ !! "DTUF_USERNAME" in
    let password := environ !! "DTUF_PASSWORD" in
    AuthenticateResponse dtuf_obj username password response.

(** The callback a constructor call hands to the package. *)
Definition handed {A} (c : call A) : option closure :=
  match c with
  | NewDTufBase _ au _ _ => Some au
  | NewDTufMaster _ _ _ au _ _ _ _ _ _ => Some au
  | NewDTufCopy _ _ _ au _ _ => Some au
  | _ => None
  end.

(** The object a method call is made on and the method's name; [None] for
    module-level functions, constructors and file reads. *)
Definition method {A} (c : call A) : option (objkind * string) :=
  match c with
  | Authenticate o _ _ _ => Some (o, "authenticate")
  | AuthenticateResponse o _ _ _ => Some (o, "authenticate")
  | CreateRootKey o _ => Some (o, "create_root_key")
  | CreateMetadataKeys o _ _ _ => Some (o, "create_metadata_keys")
  | CreateMetadata o _ _ _ _ => Some (o, "create_metadata")
  | ResetKeys o _ _ _ _ => Some (o, "reset_keys")
  | PushTarget o _ _ _ => Some (o, "push_target")
  | DelTarget o _ => Some (o, "del_target")
  | PushMetadata o _ _ _ _ => Some (o, "push_metadata")
  | ListTargets o => Some (o, "list_targets")
  | GetExpirations o => Some (o, "get_expirations")
  | PullMetadata o _ _ => Some (o, "pull_metadata")
  | PullTarget o _ _ => Some (o, "pull_target")
  | BlobSizes o _ => Some (o, "blob_sizes")
  | CheckTarget o _ _ => Some (o, "check_target")
  | ListRepos o => Some (o, "list_repos")
  | _ => None
  end.

(** The progress argument of the calls that take one. *)
Definition progress_argument {A} (c : call A) : option (option callback) :=
  match c with
  | PushTarget _ _ _ p | PushMetadata _ _ _ _ p | PullMetadata _ _ p
  | WriteWithProgress _ _ _ p => Some p
  | _ => None
  end.

(** The read operations of the consumer side. *)
Definition read_operations : list string :=
  ["pull_metadata"; "pull_target"; "blob_sizes"; "check_target";
   "list_targets"; "get_expirations"].

(** Pushing, deleting and the key life cycle. *)
Definition write_operations : list string :=
  ["push_target"; "del_target"; "push_metadata"; "create_root_key";
   "create_metadata_keys"; "create_metadata"; "reset_keys"].

(** What the statements of [doit] do, in order, and what the [auth] closure
    does when the package calls it back. A call is recorded with the
    exception it raised, if any. *)
Inductive event :=
| ELogFilename (name : string)        (* tuf.conf.LOG_FILENAME = log_file *)
| EDisableFileLogging                 (* tuf.conf.ENABLE_FILE_LOGGING = False *)
| ECall {A : Type} (c : call A) (raised : option exn)
| ESetToken (o : objkind) (token : string)   (* dtuf_obj.token = token *)
| EPrint (line : string)              (* print(line) *)
| EParserError (message : string)     (* parser.error(message) *)
| ETraceback.                         (* traceback.print_exc() *)

(** The method calls among the events, in order. *)
Definition method_calls (tr : list event) : list (objkind * string) :=
  omap (fun ev => match ev with ECall c _ => method c | _ => None end) tr.

(** The call is one the [auth] closure makes. *)
Definition is_closure_call (ev : event) : bool :=
  match ev with
  | ECall (AuthenticateResponse _ _ _ _) _ => true
  | _ => false
  end.

(** One use of the [auth] callback by the package: the object and the
    response it passes to the closure, and the exception the closure's call
    raised, if any. *)
Record callback_use := CallbackUse {
  cb_obj : objkind;
  cb_response : response;
  cb_raised : option exn
}.

(** What the closure [au] does for each use the package makes of it. *)
Definition closure_events (au : closure) (uses : list callback_use)
  : list event :=
  map (fun u => ECall (au (cb_obj u) (cb_response u)) (cb_raised u)) uses.

(** The imported packages: a state and, for each call, its outcome and the
    next state; and the uses the package makes, while it serves the call, of
    the [auth] callback it has been handed. *)
Class World := {
  world : Type;
  lib_call : forall A, call A -> world -> outcome A * world;
  lib_asks : forall A, call A -> world -> list callback_use
}.

End Calls.
Arguments lib_call {_ _ A} c w.
Arguments lib_asks {_ _ A} c w.

Section Run.
Context `{PyLib} `{!World}.

(** ** Running statements

    A statement takes the state of the packages and the events so far, and
    either returns or raises. *)
Definition state : Type := world * list event.

Definition M (A : Type) : Type := state -> outcome A * state.

#[global] Instance M_ret : MRet M := fun A a st => (Return a, st).

#[global] Instance M_bind : MBind M := fun A B f m st =>
  match m st with
  | (Return a, st') => f a st'
  | (Raise e, st') => (Raise e, st')
  end.

Definition raise {A} (e : exn) : M A := fun st => (Raise e, st).

Definition emit (ev : event) : M unit :=
  fun st => (Return tt, (st.1, st.2 ++ [ev])).

Definition raised {A} (r : outcome A) : option exn :=
  match r with Raise e => Some e | Return _ => None end.

(** A call as a statement of [doit]. What the [auth] closure does while
    the package serves the call is added by [with_callbacks]. *)
Definition do_call {A} (c : call A) : M A :=
  fun st =>
    let '(r, w) := lib_call c st.1 in
    (r, (w, st.2 ++ [ECall c (raised r)])).

(** The events of a run with the calls of the [auth] closure in. [tr] holds
    what the statements did from the state [w] of the packages on, and [held]
    is the callback the package has been handed so far, the one of the
    latest constructor call. The closure runs inside the package, while a
    call is being served: its calls come before the event that records how
    that call ended. *)
Fixpoint with_callbacks (held : option closure) (w : world) (tr : list event)
  : list event :=
  match tr with
  | [] => []
  | ECall c r :: tr' =>
      let held' := match handed c with Some au => Some au | None => held end in
      match held' with
      | Some au => closure_events au (lib_asks c w)
      | None => []
      end ++ ECall c r :: with_callbacks held' (lib_call c w).2 tr'
  | ev :: tr' => ev :: with_callbacks held w tr'
  end.

Definition lift {A} (r : outcome A) : M A := fun st => (r, st).

(** [print(line)] *)
Definition print (line : string) : M unit := emit (EPrint line).

(** [parser.error(message)]: usage and message on stderr, then
    [sys.exit(2)]. *)
Definition parser_error {A} (message : string) : M A :=
  emit (EParserError message);; raise (SystemExit 2).

(** [environ[key]] *)
Definition environ_item (environ : environ_t) (key : string) : M string :=
  match environ !! key with
  | Some v => mret v
  | None => raise (KeyError key)
  end.

(** Reading a local variable that may not have been assigned. *)
Definition var {A} (name : string) (v : option A) : M A :=
  match v with
  | Some a => mret a
  | None => raise (NameError name)
  end.

(** [for x in l: body] *)
Fixpoint for_each {A} (l : list A) (body : A -> M unit) : M unit :=
  match l with
  | [] => mret tt
  | x :: l' => body x;; for_each l' body
  end.

(** [for x in it: body] for an iterable that may fail. *)
Definition for_in {A} (it : iter A) (body : A -> M unit) : M unit :=
  for_each (items it) body;;
  match failure it with
  | Some e => raise e
  | None => mret tt
  end.

(** ** [access_denied] *)
Definition access_denied : M Z :=
  emit ETraceback;; mret EACCES.

(** ** [get_lifetime] *)
Definition get_lifetime (environ : environ_t) (role : string)
  : M (option timedelta) :=
  match environ !! ("DTUF_" +:+ role +:+ "_LIFETIME") with
  | None => mret None
  | Some lifetime =>
      t ← lift (timedelta_seconds (pytimeparse_parse lifetime));
      mret (Some t)
  end.

(** ** [doit] *)

(** [if cond: body] *)
Definition when (cond : bool) (body : M unit) : M unit :=
  if cond then body else mret tt.

(** [l[0]] *)
Definition item0 (l : list string) : M string :=
  match l with
  | x :: _ => mret x
  | [] => raise (OtherError "IndexError")
  end.

(** The sub-commands served by a [DTufMaster]. *)
Definition master_ops : list string :=
  ["auth"; "create-root-key"; "create-metadata-keys"; "create-metadata";
   "reset-keys"; "push-target"; "del-target"; "push-metadata";
   "list-master-targets"; "get-master-expirations"].

(** [x in l] for strings. *)
Definition str_in (x : string) (l : list string) : bool :=
  existsb (String.eqb x) l.

(** The local variables of [doit] that [_doit] reads. *)
Record frame := Frame {
  dtuf_base : option objkind;
  dtuf_master : option objkind;
  dtuf_copy : option objkind;
  dtuf_obj : objkind
}.

(** Lines 107-120: log file and log levels. *)
Definition configure_logging (environ : environ_t) : M unit :=
  let log_file := default "dtuf.log" (environ !! "DTUF_LOG_FILE") in
  (if truthy log_file then emit (ELogFilename log_file)
   else emit EDisableFileLogging);;
  (if truthy log_file then
     let log_level := default "WARNING" (environ !! "DTUF_FILE_LOG_LEVEL") in
     match logging_getattr log_level with
     | Some l => do_call (SetFilehandlerLogLevel l)
     | None => raise (AttributeError log_level)
     end
   else mret tt);;
  let log_level := default "WARNING" (environ !! "DTUF_CONSOLE_LOG_LEVEL") in
  match logging_getattr log_level with
  | Some l => do_call (SetConsoleLogLevel l)
  | None => raise (AttributeError log_level)
  end.

(** Line 125: the condition under which [progress] is the closure. *)
Definition progress_enabled (environ : environ_t) (isatty : bool) : bool :=
  let dtuf_progress := environ !! "DTUF_PROGRESS" in
  bool_decide (dtuf_progress = Some "1")
  || (negb (bool_decide (dtuf_progress = Some "0")) && isatty).

(** Lines 124-138: [progress]. *)
Definition progress (environ : environ_t) (isatty : bool) : option callback :=
  if progress_enabled environ isatty then Some Progress.progress else None.

(** [environ.get('DTUF_INSECURE') == '1'] *)
Definition insecure (environ : environ_t) : bool :=
  bool_decide (environ !! "DTUF_INSECURE" = Some "1").

(** Lines 148-182: the object the sub-command works on. *)
Definition make_objects (ns : Namespace) (environ : environ_t) : M frame :=
  if String.eqb (op ns) "list-repos" then
    host ← environ_item environ "DTUF_HOST";
    do_call (NewDTufBase host (auth environ) (insecure environ)
               (environ !! "DTUF_AUTH_HOST"));;
    mret {| dtuf_base := Some DTufBase; dtuf_master := None;
            dtuf_copy := None; dtuf_obj := DTufBase |}
  else if str_in (op ns) master_ops then
    host ← environ_item environ "DTUF_HOST";
    root_lifetime ← get_lifetime environ "ROOT";
    targets_lifetime ← get_lifetime environ "TARGETS";
    snapshot_lifetime ← get_lifetime environ "SNAPSHOT";
    timestamp_lifetime ← get_lifetime environ "TIMESTAMP";
    do_call (NewDTufMaster host (repo ns) (environ !! "DTUF_REPOSITORIES_ROOT")
               (auth environ) (insecure environ) (environ !! "DTUF_AUTH_HOST")
               root_lifetime targets_lifetime snapshot_lifetime
               timestamp_lifetime);;
    mret {| dtuf_base := None; dtuf_master := Some DTufMaster;
            dtuf_copy := None; dtuf_obj := DTufMaster |}
  else
    host ← environ_item environ "DTUF_HOST";
    do_call (NewDTufCopy host (repo ns) (environ !! "DTUF_REPOSITORIES_ROOT")
               (auth environ) (insecure environ) (environ !! "DTUF_AUTH_HOST"));;
    mret {| dtuf_base := None; dtuf_master := None;
            dtuf_copy := Some DTufCopy; dtuf_obj := DTufCopy |}.

(** Lines 198-302: the [if]/[elif] chain of [_doit] after the token has
    been set. *)
Definition dispatch (ns : Namespace) (environ : environ_t)
    (progress : option callback) (fr : frame) : M unit :=
  let pw role := environ !! ("DTUF_" +:+ role +:+ "_KEY_PASSWORD") in
  if String.eqb (op ns) "create-root-key" then
    when (0 <? length (args ns))%nat (parser_error "too many arguments");;
    o ← var "dtuf_master" (dtuf_master fr);
    do_call (CreateRootKey o (pw "ROOT"))
  else if String.eqb (op ns) "create-metadata-keys" then
    when (0 <? length (args ns))%nat (parser_error "too many arguments");;
    o ← var "dtuf_master" (dtuf_master fr);
    do_call (CreateMetadataKeys o (pw "TARGETS") (pw "SNAPSHOT")
               (pw "TIMESTAMP"))
  else if String.eqb (op ns) "create-metadata" then
    when (0 <? length (args ns))%nat (parser_error "too many arguments");;
    o ← var "dtuf_master" (dtuf_master fr);
    do_call (CreateMetadata o (pw "ROOT") (pw "TARGETS") (pw "SNAPSHOT")
               (pw "TIMESTAMP"))
  else if String.eqb (op ns) "reset-keys" then
    when (0 <? length (args ns))%nat (parser_error "too many arguments");;
    o ← var "dtuf_master" (dtuf_master fr);
    do_call (ResetKeys o (pw "ROOT") (pw "TARGETS") (pw "SNAPSHOT")
               (pw "TIMESTAMP"))
  else if String.eqb (op ns) "push-target" then
    when (length (args ns) <? 2)%nat (parser_error "too few arguments");;
    o ← var "dtuf_master" (dtuf_master fr);
    target ← item0 (args ns);
    do_call (PushTarget o target (tail (args ns)) progress)
  else if String.eqb (op ns) "del-target" then
    for_each (args ns) (fun name =>
      o ← var "dtuf_master" (dtuf_master fr);
      do_call (DelTarget o name))
  else if String.eqb (op ns) "push-metadata" then
    when (0 <? length (args ns))%nat (parser_error "too many arguments");;
    o ← var "dtuf_master" (dtuf_master fr);
    do_call (PushMetadata o (pw "TARGETS") (pw "SNAPSHOT") (pw "TIMESTAMP")
               progress)
  else if String.eqb (op ns) "list-master-targets" then
    when (0 <? length (args ns))%nat (parser_error "too many arguments");;
    o ← var "dtuf_master" (dtuf_master fr);
    names ← do_call (ListTargets o);
    for_in names print
  else if String.eqb (op ns) "get-master-expirations" then
    when (0 <? length (args ns))%nat (parser_error "too many arguments");;
    o ← var "dtuf_master" (dtuf_master fr);
    expirations ← do_call (GetExpirations o);
    for_each expirations (fun '(role, expiry) =>
      print (role +:+ ": " +:+ isoformat expiry))
  else if String.eqb (op ns) "pull-metadata" then
    when (1 <? length (args ns))%nat (parser_error "too many arguments");;
    root_public_key ←
      (if (length (args ns) =? 1)%nat then
         a0 ← item0 (args ns);
         if String.eqb a0 "-" then
           s ← do_call StdinRead; mret (Some s)
         else
           b ← do_call (FileRead a0);
           s ← lift (decode_utf8 b);
           mret (Some s)
       else mret None);
    o ← var "dtuf_copy" (dtuf_copy fr);
    names ← do_call (PullMetadata o root_public_key progress);
    for_in names print
  else if String.eqb (op ns) "pull-target" then
    for_each (args ns) (fun name =>
      o ← var "dtuf_copy" (dtuf_copy fr);
      blobs ← do_call (PullTarget o name true);
      for_in blobs (fun '(it, dgst, size) =>
        when (bool_decide (environ !! "DTUF_BLOB_INFO" = Some "1"))
          (print (dgst +:+ " " +:+ pretty size));;
        do_call (WriteWithProgress it dgst size progress)))
  else if String.eqb (op ns) "blob-sizes" then
    for_each (args ns) (fun name =>
      o ← var "dtuf_copy" (dtuf_copy fr);
      sizes ← do_call (BlobSizes o name);
      for_in sizes (fun size => print (pretty size)))
  else if String.eqb (op ns) "check-target" then
    when (length (args ns) <? 2)%nat (parser_error "too few arguments");;
    o ← var "dtuf_copy" (dtuf_copy fr);
    target ← item0 (args ns);
    do_call (CheckTarget o target (tail (args ns)))
  else if String.eqb (op ns) "list-copy-targets" then
    when (0 <? length (args ns))%nat (parser_error "too many arguments");;
    o ← var "dtuf_copy" (dtuf_copy fr);
    names ← do_call (ListTargets o);
    for_in names print
  else if String.eqb (op ns) "get-copy-expirations" then
    when (0 <? length (args ns))%nat (parser_error "too many arguments");;
    o ← var "dtuf_copy" (dtuf_copy fr);
    expirations ← do_call (GetExpirations o);
    for_each expirations (fun '(role, expiry) =>
      print (role +:+ ": " +:+ isoformat expiry))
  else if String.eqb (op ns) "list-repos" then
    o ← var "dtuf_base" (dtuf_base fr);
    names ← do_call (ListRepos o);
    for_in names print
  else mret tt.

(** Lines 194-196: [token = environ.get('DTUF_TOKEN')] and its use. *)
Definition set_token (environ : environ_t) (fr : frame) : M unit :=
  match environ !! "DTUF_TOKEN" with
  | Some token => when (truthy token) (emit (ESetToken (dtuf_obj fr) token))
  | None => mret tt
  end.

(** Lines 184-302: [def _doit()]. *)
Definition _doit (ns : Namespace) (environ : environ_t)
    (progress : option callback) (fr : frame) : M unit :=
  if String.eqb (op ns) "auth" then
    o ← var "dtuf_master" (dtuf_master fr);
    username ← environ_item environ "DTUF_USERNAME";
    password ← environ_item environ "DTUF_PASSWORD";
    token ← do_call (Authenticate o username password (args ns));
    match token with
    | Some t => when (truthy t) (print t)
    | None => mret tt
    end
  else
    set_token environ fr;;
    dispatch ns environ progress fr.

(** [isinstance(ex2, dxf.exceptions.DXFUnauthorizedError)] *)
Definition is_unauthorized (e : exn) : bool :=
  match e with DXFUnauthorizedError => true | _ => false end.

(** Lines 310-312: the loop over [ex.mirror_errors.values()]; [true] when it
    reaches [return access_denied()]. *)
Fixpoint any_unauthorized (mirror_errors : list (string * exn)) : bool :=
  match mirror_errors with
  | [] => false
  | (_, ex2) :: rest =>
      if is_unauthorized ex2 then true else any_unauthorized rest
  end.

(** Lines 304-313: [try: _doit(); return 0] and its two handlers. *)
Definition guarded (body : M unit) : M Z :=
  fun st =>
    match body st with
    | (Return _, st') => (Return 0, st')
    | (Raise DXFUnauthorizedError, st') => access_denied st'
    | (Raise (NoWorkingMirrorError mirror_errors as ex), st') =>
        if any_unauthorized mirror_errors then access_denied st'
        else (Raise ex, st')
    | (Raise e, st') => (Raise e, st')
    end.

(** Lines 106-182 without the argument parser: everything before [_doit]
    is defined. *)
Definition setup (ns : Namespace) (environ : environ_t) : M frame :=
  configure_logging environ;;
  make_objects ns environ.

(** [def doit(args, environ)], from the namespace [parser.parse_args]
    returned; [isatty] is [sys.stderr.isatty()]. *)
Definition doit (ns : Namespace) (environ : environ_t) (isatty : bool) : M Z :=
  fr ← setup ns environ;
  guarded (_doit ns environ (progress environ isatty) fr).

(** The class [doit] instantiates for a sub-command. *)
Definition kind_of (o : string) : objkind :=
  if String.eqb o "list-repos" then DTufBase
  else if str_in o master_ops then DTufMaster
  else DTufCopy.

(** The local variables after lines 148-182. *)
Definition frame_for (o : string) : frame :=
  match kind_of o with
  | DTufBase => Frame (Some DTufBase) None None DTufBase
  | DTufMaster => Frame None (Some DTufMaster) None DTufMaster
  | DTufCopy => Frame None None (Some DTufCopy) DTufCopy
  end.

(** The methods [_doit] calls on an object of each class. *)
Definition methods_of (o : objkind) : list string :=
  match o with
  | DTufBase => ["list_repos"]
  | DTufMaster =>
      "authenticate" :: "list_targets" :: "get_expirations" :: write_operations
  | DTufCopy => read_operations
  end.

(** A call of a run of [doit] for the sub-command [o]: a method call is on
    the object constructed for [o] and is one of its methods; a progress
    argument is [progress]. *)
Definition call_ok (o : string) (progress : option callback) {A} (c : call A)
  : Prop :=
  (forall k m, method c = Some (k, m) ->
     k = kind_of o /\ str_in m (methods_of k) = true) /\
  (forall p, progress_argument c = Some p -> p = progress).

Definition event_ok (o : string) (progress : option callback) (ev : event)
  : Prop :=
  match ev with
  | ECall c _ => call_ok o progress c
  | _ => True
  end.

(** The events of lines 194-196. *)
Definition token_events (environ : environ_t) (fr : frame) : list event :=
  match environ !! "DTUF_TOKEN" with
  | Some token => if truthy token then [ESetToken (dtuf_obj fr) token] else []
  | None => []
  end.

(** An event of a statement in the scope of the closure [au]: not a call
    of the closure, and if a constructor call, one that hands [au] to the
    package. *)
Definition statement_event (au : closure) (ev : event) : Prop :=
  is_closure_call ev = false /\
  match ev with
  | ECall c _ => forall au', handed c = Some au' -> au' = au
  | _ => True
  end.

(** No method is called between two states of a run. *)
Definition no_method_called (st st' : state) : Prop :=
  exists tr, st'.2 = st.2 ++ tr /\ method_calls tr = [].

(** ** Specifications of statements *)

(** Every event [m] adds satisfies [P], and a value it returns satisfies
    [Q]. *)
Definition emits {A} (P : event -> Prop) (Q : A -> Prop) (m : M A) : Prop :=
  forall st, exists tr,
    (m st).2.2 = st.2 ++ tr /\ Forall P tr /\
    forall a, (m st).1 = Return a -> Q a.

(** The events a run adds end with the call [c] raising [e]. *)
Definition ends_raising {A} (c : call A) (e : exn) (tr : list event) : Prop :=
  exists tr0, tr = tr0 ++ [ECall c (Some e)].

(** Nothing inside [m] catches: a call that raises is the last thing [m]
    does, and [m] raises what the call raised. *)
Definition propagates {A} (m : M A) : Prop :=
  forall st, exists tr,
    (m st).2.2 = st.2 ++ tr /\
    forall B (c : call B) e, ECall c (Some e) ∈ tr ->
      ends_raising c e tr /\ (m st).1 = Raise e.

(** [e] is a [DXFUnauthorizedError], or a [NoWorkingMirrorError] one of
    whose mirror errors is. *)
Definition unauthorized (e : exn) : Prop :=
  e = DXFUnauthorizedError \/
  exists mirror_errors url,
    e = NoWorkingMirrorError mirror_errors /\
    (url, DXFUnauthorizedError) ∈ mirror_errors.

(** The sub-commands served by a [DTufCopy]. *)
Definition copy_ops : list string :=
  ["pull-metadata"; "pull-target"; "blob-sizes"; "check-target";
   "list-copy-targets"; "get-copy-expirations"].

End Run.

(** ** A scripted stand-in for the imported packages

    Used to run [doit] on concrete command lines. *)

Definition demo_pylib : PyLib := {|
  datetime := Z;
  isoformat := fun t => "2026-01-01T00:00:" +:+ pretty t;
  timedelta := Z;
  seconds := Z;
  pytimeparse_parse := fun s => if String.eqb s "1h" then Some 3600 else None;
  timedelta_seconds := fun x =>
    match x with Some n => Return n | None => Raise (OtherError "TypeError") end;
  logattr := Z;
  logging_getattr := fun s =>
    if String.eqb s "WARNING" then Some 30
    else if String.eqb s "INFO" then Some 20 else None;
  decode_utf8 := fun b => Return (String.string_of_list_byte b);
  blob_iter := nat;
  response := string
|}.

(** What the scripted packages answer when the registry lets the caller
    in. *)
Definition demo_answer {A} (c : @call demo_pylib A) : outcome A :=
  match c in call A return outcome A with
  | SetFilehandlerLogLevel _ | SetConsoleLogLevel _ => Return tt
  | NewDTufBase _ _ _ _ | NewDTufMaster _ _ _ _ _ _ _ _ _ _
  | NewDTufCopy _ _ _ _ _ _ => Return tt
  | Authenticate _ _ _ _ => Return (Some "token-1")
  | AuthenticateResponse _ _ _ _ => Return (Some "token-2")
  | CreateRootKey _ _ | CreateMetadataKeys _ _ _ _ | CreateMetadata _ _ _ _ _
  | ResetKeys _ _ _ _ _ | PushTarget _ _ _ _ | DelTarget _ _
  | PushMetadata _ _ _ _ _ | CheckTarget _ _ _
  | WriteWithProgress _ _ _ _ => Return tt
  | ListTargets _ => Return (Iter ["v1"; "v2"] None)
  | GetExpirations _ =>
      Return [("root", 10); ("targets", 20); ("snapshot", 30);
              ("timestamp", 40)]
  | PullMetadata _ _ _ => Return (Iter ["v1"] None)
  | PullTarget _ _ _ => Return (Iter [(0%nat, "sha256:4f2a", 3)] None)
  | BlobSizes _ _ => Return (Iter [3] None)
  | ListRepos _ => Return (Iter ["repo1"] None)
  | StdinRead => Return "ROOT-KEY"
  | FileRead _ => Return ["P"%byte; "E"%byte; "M"%byte]
  end.

(** The state of the scripted packages says how the registry treats the
    caller: it lets them in, refuses them, every mirror fails without a
    refusal, or it lets them in after asking for credentials on every method
    call. *)
Inductive demo_state := LetIn | Refuse | MirrorsDown | Challenge.

Definition demo_world : @World demo_pylib := {|
  world := demo_state;
  lib_call := fun A c w =>
    (match w, method c with
     | Refuse, Some _ => Raise DXFUnauthorizedError
     | MirrorsDown, Some _ =>
         Raise (NoWorkingMirrorError [("https://mirror/", OtherError "Timeout")])
     | _, _ => demo_answer c
     end, w);
  lib_asks := fun A c w =>
    match w, method c with
    | Challenge, Some (o, _) =>
        [@CallbackUse demo_pylib o "401 Unauthorized" None]
    | _, _ => []
    end
|}.

(** The start of a run: the packages in state [w], nothing done yet. *)
Definition demo_start (w : demo_state) : @state demo_pylib demo_world := (w, []).

Definition demo_environ : environ_t :=
  {[ "DTUF_HOST" := "registry.example"; "DTUF_USERNAME" := "alice";
     "DTUF_PASSWORD" := "secret"; "DTUF_TOKEN" := "token-0" ]}.

End Cli.

(** * The consumer-side trust verifier *)

Module TrustVerifier.

(** Modelled from the spec: the four roles of section 3. The verifier is
    part of the [dtuf] package, which the sources do not include; [main.py]
    reaches it through [pull_metadata]. *)
Inductive role := root | targets | snapshot | timestamp.

(** Modelled from the spec: the reasons a [TrustChainError] names (section
    4.4, failure semantics); the [dtuf] package that raises it is missing. *)
Inductive reason :=
| bad_signature
| threshold_not_met
| expired
| rollback
| inconsistent_version.

(** Modelled from the spec: the two failures of a pull (section 4.4); the
    [dtuf] package that raises them is missing. *)
Inductive error :=
| TrustChainError (r : role) (why : reason)
| MissingMetadataError (r : role).

(** Modelled from the spec: the keys authorized for a role and its signing
    threshold (section 3, role key); the key store of [dtuf] is missing. *)
Record role_keys := RoleKeys { keys : list string; threshold : nat }.

(** Modelled from the spec: a metadata document of section 3 with payload
    [P]; the document format of [dtuf] is missing. A signature is the id of the
    signing key and whether the signature verifies over the document. *)
Record document (P : Type) := Document {
  version : Z;
  expires : Z;
  signatures : list (string * bool);
  payload : P
}.
Arguments Document {P} version expires signatures payload.
Arguments version {P} d.
Arguments expires {P} d.
Arguments signatures {P} d.
Arguments payload {P} d.

(** Modelled from the spec: the payloads of the role dependency graph of
    section 3, missing with the [dtuf] package. Root authorizes the keys of
    every role; timestamp pins the
    snapshot version; snapshot pins the targets version; targets maps a
    target name to its digests and declared sizes. *)
Abbreviation root_payload := (role -> role_keys).
Abbreviation targets_payload := (gmap string (list (string * Z))).

(** Modelled from the spec: the last-trusted metadata set of sections 5 and
    6, written only at Commit; the local store of [dtuf] is missing. *)
Record baseline := Baseline {
  b_root : document root_payload;
  b_timestamp : document Z;
  b_snapshot : document Z;
  b_targets : document targets_payload
}.

(** Modelled from the spec: the registry collaborator of section 6, missing
    from the sources: the named metadata documents it returns, [None] when
    absent. *)
Record registry := Registry {
  get_root : option (document root_payload);
  get_timestamp : option (document Z);
  get_snapshot : option (document Z);
  get_targets : option (document targets_payload)
}.

(** Modelled from the spec: what one pull of section 4.4 starts from -- the
    baseline, the caller-supplied root public key, the registry and the
    clock; the [pull_metadata] of [dtuf] that takes them is missing. *)
Record config := Config {
  trusted : option baseline;
  root_public_key : option string;
  remote : registry;
  now : Z
}.

(** Modelled from the spec: the distinct authorized keys with a signature
    that verifies (section 3, threshold invariant); the signature check of
    [dtuf] is missing. *)
Definition valid_signers (auth : role_keys) (sigs : list (string * bool))
  : list string :=
  remove_dups
    (filter (fun k => k ∈ keys auth) (map fst (filter (fun s => snd s = true) sigs))).

(** Modelled from the spec: the signature, threshold and expiration checks
    of section 4.4, which every fetched document goes through (the [dtuf]
    package that makes them is not part of the sources). *)
Definition check_signed {P} (auth : role_keys) (t : Z) (d : document P)
  : option reason :=
  if bool_decide (threshold auth ≤ length (valid_signers auth (signatures d)))%nat
  then
    if bool_decide (t < expires d) then None else Some expired
  else if bool_decide (Exists (fun s => s.1 ∈ keys auth ∧ s.2 = false) (signatures d))
  then Some bad_signature
  else Some threshold_not_met.

(** Modelled from the spec: version monotonicity against the last-trusted
    version of the role, when there is one. *)
Definition check_monotonic (last : option Z) (v : Z) : option reason :=
  match last with
  | Some l => if bool_decide (v < l) then Some rollback else None
  | None => None
  end.

(** Modelled from the spec: the version the referencing parent asserted. *)
Definition check_pinned (pinned : Z) (v : Z) : option reason :=
  if bool_decide (v = pinned) then None else Some inconsistent_version.

(** Modelled from the spec: the first failing check, in the order section
    4.4 lists them; the verifier of [dtuf] is missing. *)
Definition first_failure (checks : list (option reason)) : option reason :=
  foldr (fun c rest => match c with Some r => Some r | None => rest end)
        None checks.

(** Modelled from the spec: the states of a pull in section 4.4, [Trusted]
    and [Rejected] terminal; the verifier of [dtuf] is missing. *)
Inductive state :=
| BootstrapRoot
| FetchTimestamp (r : document root_payload)
| FetchSnapshot (r : document root_payload) (ts : document Z)
| FetchTargets (r : document root_payload) (ts sn : document Z)
| ReconcileTargets (r : document root_payload) (ts sn : document Z)
    (tg : document targets_payload)
| Commit (b : baseline) (changed : list string)
| Trusted (b : baseline) (changed : list string)
| Rejected (e : error).

(** Modelled from the spec: the machine of section 4.4, missing with the
    [dtuf] package: its state and the roles fetched from the registry so
    far. *)
Record machine := Machine { phase : state; fetched : list role }.

(** Modelled from the spec: step 5, the names added, changed or removed. *)
Definition reconcile (old new : targets_payload) : list string :=
  filter (fun name => old !! name ≠ new !! name)
         (elements (dom old ∪ dom new)).

(** Modelled from the spec: one transition of the state machine of
    section 4.4; the [pull_metadata] of [dtuf] that runs it is missing.
    With a baseline the trusted root is loaded from it. Without one the
    caller's root public key is the sole basis of trust: the root document
    is fetched and must be signed by that key. A document is checked in the
    order the section lists: signatures and threshold, expiration, version
    against the last-trusted one, version against the parent's pin. *)
Definition step (c : config) (m : machine) : machine :=
  match phase m with
  | BootstrapRoot =>
      match trusted c with
      | Some b => Machine (FetchTimestamp (b_root b)) (fetched m)
      | None =>
          match root_public_key c with
          | None => Machine (Rejected (TrustChainError root bad_signature))
                      (fetched m)
          | Some k =>
              match get_root (remote c) with
              | None => Machine (Rejected (MissingMetadataError root))
                          (fetched m ++ [root])
              | Some d =>
                  match check_signed (RoleKeys [k] 1) (now c) d with
                  | Some why => Machine (Rejected (TrustChainError root why))
                                  (fetched m ++ [root])
                  | None => Machine (FetchTimestamp d)
                              (fetched m ++ [root])
                  end
              end
          end
      end
  | FetchTimestamp r =>
      match get_timestamp (remote c) with
      | None => Machine (Rejected (MissingMetadataError timestamp))
                  (fetched m ++ [timestamp])
      | Some d =>
          match first_failure
                  [check_signed (payload r timestamp) (now c) d;
                   check_monotonic (version ∘ b_timestamp <$> trusted c)
                     (version d)] with
          | Some why => Machine (Rejected (TrustChainError timestamp why))
                          (fetched m ++ [timestamp])
          | None => Machine (FetchSnapshot r d) (fetched m ++ [timestamp])
          end
      end
  | FetchSnapshot r ts =>
      match trusted c with
      | Some b =>
          if bool_decide (payload ts = version (b_snapshot b)) then
            Machine (FetchTargets r ts (b_snapshot b)) (fetched m)
          else
            match get_snapshot (remote c) with
            | None => Machine (Rejected (MissingMetadataError snapshot))
                        (fetched m ++ [snapshot])
            | Some d =>
                match first_failure
                        [check_signed (payload r snapshot) (now c) d;
                         check_monotonic (Some (version (b_snapshot b)))
                           (version d);
                         check_pinned (payload ts) (version d)] with
                | Some why => Machine (Rejected (TrustChainError snapshot why))
                                (fetched m ++ [snapshot])
                | None => Machine (FetchTargets r ts d)
                            (fetched m ++ [snapshot])
                end
            end
      | None =>
          match get_snapshot (remote c) with
          | None => Machine (Rejected (MissingMetadataError snapshot))
                      (fetched m ++ [snapshot])
          | Some d =>
              match first_failure
                      [check_signed (payload r snapshot) (now c) d;
                       check_pinned (payload ts) (version d)] with
              | Some why => Machine (Rejected (TrustChainError snapshot why))
                              (fetched m ++ [snapshot])
              | None => Machine (FetchTargets r ts d) (fetched m ++ [snapshot])
              end
          end
      end
  | FetchTargets r ts sn =>
      match trusted c with
      | Some b =>
          if bool_decide (payload sn = version (b_targets b)) then
            Machine (ReconcileTargets r ts sn (b_targets b)) (fetched m)
          else
            match get_targets (remote c) with
            | None => Machine (Rejected (MissingMetadataError targets))
                        (fetched m ++ [targets])
            | Some d =>
                match first_failure
                        [check_signed (payload r targets) (now c) d;
                         check_monotonic (Some (version (b_targets b)))
                           (version d);
                         check_pinned (payload sn) (version d)] with
                | Some why => Machine (Rejected (TrustChainError targets why))
                                (fetched m ++ [targets])
                | None => Machine (ReconcileTargets r ts sn d)
                            (fetched m ++ [targets])
                end
            end
      | None =>
          match get_targets (remote c) with
          | None => Machine (Rejected (MissingMetadataError targets))
                      (fetched m ++ [targets])
          | Some d =>
              match first_failure
                      [check_signed (payload r targets) (now c) d;
                       check_pinned (payload sn) (version d)] with
              | Some why => Machine (Rejected (TrustChainError targets why))
                              (fetched m ++ [targets])
              | None => Machine (ReconcileTargets r ts sn d)
                          (fetched m ++ [targets])
              end
          end
      end
  | ReconcileTargets r ts sn tg =>
      let old := match trusted c with
                 | Some b => payload (b_targets b)
                 | None => ∅
                 end in
      Machine (Commit (Baseline r ts sn tg) (reconcile old (payload tg)))
              (fetched m)
  | Commit b changed => Machine (Trusted b changed) (fetched m)
  | Trusted _ _ | Rejected _ => m
  end.

(** Modelled from the spec: a pull, the six steps of section 4.4 from
    [BootstrapRoot]; the [pull_metadata] of [dtuf] is missing. *)
Definition pull (c : config) : machine :=
  Nat.iter 6 (step c) (Machine BootstrapRoot []).

(** Modelled from the spec: the terminal state [Rejected] of section 4.4,
    for the missing verifier of [dtuf]. *)
Definition rejected (m : machine) : Prop :=
  match phase m with Rejected _ => True | _ => False end.

(** Modelled from the spec: the last-trusted version of a role, read from
    the baseline (the local store of [dtuf] is missing). *)
Definition trusted_version (b : baseline) (r : role) : option Z :=
  match r with
  | root => Some (version (b_root b))
  | timestamp => Some (version (b_timestamp b))
  | snapshot => Some (version (b_snapshot b))
  | targets => Some (version (b_targets b))
  end.

(** Modelled from the spec: the version of the document the registry
    collaborator of section 6 serves for a role (the registry is missing). *)
Definition served_version (g : registry) (r : role) : option Z :=
  match r with
  | root => version <$> get_root g
  | timestamp => version <$> get_timestamp g
  | snapshot => version <$> get_snapshot g
  | targets => version <$> get_targets g
  end.

(** Modelled from the spec: the role dependency graph of section 3, for the
    missing verifier of [dtuf]. The version of a role that the referencing
    parent's payload declares
    during a pull from baseline [b]: timestamp references snapshot; snapshot
    (the fetched one, or the last-trusted one when timestamp still points at
    it) references targets; nothing references timestamp or root. *)
Definition declared_by_parent (c : config) (b : baseline) (r : role)
  : option Z :=
  match r with
  | snapshot => payload <$> get_timestamp (remote c)
  | targets =>
      ts ← get_timestamp (remote c);
      if bool_decide (payload ts = version (b_snapshot b))
      then Some (payload (b_snapshot b))
      else payload <$> get_snapshot (remote c)
  | _ => None
  end.

(** Every document fetched so far for a role with a last-trusted version is
    no older than that version and has the version its referencing parent
    declares. *)
Definition fetched_ok (c : config) (b : baseline) (m : machine) : Prop :=
  ∀ r V v,
    r ∈ fetched m →
    trusted_version b r = Some V →
    served_version (remote c) r = Some v →
    V <= v ∧ (∀ p, declared_by_parent c b r = Some p → p = v).

(** What holds in each state of a pull that starts from the baseline [b]. *)
Definition invariant (c : config) (b : baseline) (m : machine) : Prop :=
  match phase m with
  | Rejected _ => True
  | BootstrapRoot | FetchTimestamp _ => fetched m = []
  | FetchSnapshot _ ts =>
      get_timestamp (remote c) = Some ts ∧ fetched m = [timestamp] ∧
      version (b_timestamp b) <= version ts
  | FetchTargets _ ts sn =>
      fetched_ok c b m ∧ (targets ∉ fetched m) ∧ (root ∉ fetched m) ∧
      declared_by_parent c b targets = Some (payload sn)
  | ReconcileTargets _ _ _ _ | Commit _ _ | Trusted _ _ =>
      fetched_ok c b m
  end.

(** How far a pull has come. *)
Definition rank (s : state) : nat :=
  match s with
  | BootstrapRoot => 0
  | FetchTimestamp _ => 1
  | FetchSnapshot _ _ => 2
  | FetchTargets _ _ _ => 3
  | ReconcileTargets _ _ _ _ => 4
  | Commit _ _ => 5
  | Trusted _ _ | Rejected _ => 6
  end.

(** ** A small repository to run the verifier on *)

Definition demo_keys (r : role) : role_keys :=
  match r with
  | root => RoleKeys ["k-root"] 1
  | targets => RoleKeys ["k-targets"] 1
  | snapshot => RoleKeys ["k-snapshot"] 1
  | timestamp => RoleKeys ["k-timestamp"] 1
  end.

Definition demo_targets (digest : string) : targets_payload :=
  {[ "v1" := [(digest, 3)] ]}.

(** Last trusted: timestamp 5 pointing at snapshot 4 pointing at targets
    3. *)
Definition demo_baseline : baseline :=
  {| b_root := Document 1 1000 [("k-root", true)] demo_keys;
     b_timestamp := Document 5 1000 [("k-timestamp", true)] 4;
     b_snapshot := Document 4 1000 [("k-snapshot", true)] 3;
     b_targets := Document 3 1000 [("k-targets", true)] (demo_targets "sha256:aa") |}.

(** A registry serving a timestamp document, a snapshot document and a
    targets document with the given versions and pinned versions. *)
Definition demo_registry (ts ts_pin sn sn_pin tg : Z) : registry :=
  {| get_root := None;
     get_timestamp := Some (Document ts 1000 [("k-timestamp", true)] ts_pin);
     get_snapshot := Some (Document sn 1000 [("k-snapshot", true)] sn_pin);
     get_targets :=
       Some (Document tg 1000 [("k-targets", true)] (demo_targets "sha256:bb")) |}.

Definition demo_config (g : registry) : config :=
  {| trusted := Some demo_baseline; root_public_key := None;
     remote := g; now := 100 |}.

End TrustVerifier.

(** * More about the progress closure: what every reachable state satisfies *)

Module ProgressInvariants.
Import Progress.

(** Every tqdm object that is still open is the bar [bars] holds for the
    digest it was created for. *)
Definition no_leak (st : pstate) : Prop :=
  ∀ i d b, heap st !! i = Some (d, b) → closed b = false →
           bars st !! d = Some i.

(** What the closure keeps true of every tqdm object it created for [d]:
    the description is [d[0:8]], [leave] is [True], the count is not
    negative, and an object still open has not reached its total. *)
Definition bar_ok (d : string) (b : tqdm) : Prop :=
  desc b = dgst_prefix d ∧ leave b = true ∧ 0 <= n b ∧
  (closed b = false → n b < total b).

(** The state of the closure between two invocations. *)
Definition consistent (st : pstate) : Prop :=
  wf st ∧ no_leak st ∧ ∀ i d b, heap st !! i = Some (d, b) → bar_ok d b.

End ProgressInvariants.

(** * The rest of [main.py]: [main] and the interface of [doit] *)

Module Main.
Import Cli.

(** The environment variables the header of [main.py] documents (lines
    1-54). *)
Definition documented_variables : list string :=
  ["DTUF_USERNAME"; "DTUF_PASSWORD";
   "DTUF_ROOT_KEY_PASSWORD"; "DTUF_TARGETS_KEY_PASSWORD";
   "DTUF_SNAPSHOT_KEY_PASSWORD"; "DTUF_TIMESTAMP_KEY_PASSWORD";
   "DTUF_ROOT_LIFETIME"; "DTUF_TARGETS_LIFETIME";
   "DTUF_SNAPSHOT_LIFETIME"; "DTUF_TIMESTAMP_LIFETIME";
   "DTUF_HOST"; "DTUF_INSECURE"; "DTUF_AUTH_HOST"; "DTUF_TOKEN";
   "DTUF_REPOSITORIES_ROOT"; "DTUF_PROGRESS"; "DTUF_BLOB_INFO";
   "DTUF_LOG_FILE"; "DTUF_FILE_LOG_LEVEL"; "DTUF_CONSOLE_LOG_LEVEL"].

(** The four [DTUF_*_LIFETIME] variables [get_lifetime] is called for. *)
Definition lifetime_variables : list string :=
  ["DTUF_ROOT_LIFETIME"; "DTUF_TARGETS_LIFETIME";
   "DTUF_SNAPSHOT_LIFETIME"; "DTUF_TIMESTAMP_LIFETIME"].

(** The sub-commands whose branch starts with
    [if len(args.args) > 0: parser.error('too many arguments')], the two
    expiration listings apart. *)
Definition no_argument_ops : list string :=
  ["create-root-key"; "create-metadata-keys"; "create-metadata";
   "reset-keys"; "push-metadata"; "list-master-targets";
   "list-copy-targets"].

(** The sub-commands whose branch has no [print]. *)
Definition printless_ops : list string :=
  ["create-root-key"; "create-metadata-keys"; "create-metadata";
   "reset-keys"; "push-target"; "del-target"; "push-metadata";
   "check-target"].

(** The sub-command prints nothing: its branch has no [print], or it is
    pull-target without [DTUF_BLOB_INFO] set to '1'. *)
Definition printless (o : string) (environ : environ_t) : bool :=
  str_in o printless_ops
  || (String.eqb o "pull-target"
      && negb (bool_decide (environ !! "DTUF_BLOB_INFO" = Some "1"))).

Section Interface.
Context `{PyLib} `{!World}.

(** The event is a [print]. *)
Definition is_print (ev : event) : bool :=
  match ev with EPrint _ => true | _ => false end.

(** The event is [traceback.print_exc()]. *)
Definition is_traceback (ev : event) : bool :=
  match ev with ETraceback => true | _ => false end.

(** [def main()], from the namespace on: [exit(doit(...))]; [exit(code)]
    raises [SystemExit(code)]. *)
Definition main (ns : Namespace) (environ : environ_t) (isatty : bool) : M unit :=
  code ← doit ns environ isatty;
  raise (SystemExit code).

(** The events of [for name in args.args: dtuf_master.del_target(name)]
    when the first [k] names are deleted and the call for the next one, if
    [failure] is an exception, raises it. *)
Definition del_target_events (names : list string) (k : nat)
    (failure : option exn) : list event :=
  map (fun name => ECall (DelTarget DTufMaster name) None) (take k names)
  ++ match failure, names !! k with
     | Some e, Some name => [ECall (DelTarget DTufMaster name) (Some e)]
     | _, _ => []
     end.

End Interface.

End Main.

(** * What the listing and download sub-commands put on standard output *)

Module Output.
Import Cli.

Section Stdout.
Context `{PyLib} `{!World}.

(** The events [m] adds come in groups, each of which satisfies [B]. *)
Definition in_steps {A} (B : list event → Prop) (m : M A) : Prop :=
  ∀ st, ∃ trs, (m st).2.2 = st.2 ++ concat trs ∧ Forall B trs.

(** One step of pull-target with [DTUF_BLOB_INFO='1'], as its events show
    it: the call [pull_target(name, True)], or, for a blob it yields, the
    line [dgst + ' ' + str(size)] and then the blob written to stdout. *)
Definition announced_step (progress : option callback) (tr : list event)
  : Prop :=
  (∃ name r, tr = [ECall (PullTarget DTufCopy name true) r]) ∨
  (∃ it dgst size r,
     tr = [EPrint (dgst +:+ " " +:+ pretty size);
           ECall (WriteWithProgress it dgst size progress) r]).

(** The call that fetches the listing of a listing sub-command. *)
Definition listing (o : string) : call (iter string) :=
  if String.eqb o "list-repos" then ListRepos DTufBase
  else if String.eqb o "list-master-targets" then ListTargets DTufMaster
  else ListTargets DTufCopy.

End Stdout.

End Output.

(** * Properties of the progress closure *)

Module ProgressFacts.
Import Progress.

Lemma heap_upd_insert f i h d b :
  h !! i = Some (d, b) → heap_upd f i h = <[i := (d, f b)]> h.
Proof.
  intros Hi. unfold heap_upd. apply list_eq. intros j.
  rewrite list_lookup_alter, list_lookup_insert.
  destruct (decide (i = j)) as [<-|]; [|by rewrite decide_False by (by intros [? _])].
  rewrite Hi. simpl.
  rewrite decide_True; [done|]. split; [done|]. by eapply lookup_lt_Some.
Qed.

(** The closure on a digest that has a bar. *)
Lemma progress_known st d i b c sz :
  bars st !! d = Some i → heap st !! i = Some (d, b) →
  progress d c sz st = Some (finish d i (bump c b) st).
Proof.
  intros Hb Hh. unfold progress, bump, finish. rewrite Hb. simpl.
  assert (Hlt : (i < length (heap st))%nat) by (by eapply lookup_lt_Some).
  destruct (bool_decide (0 < Z.of_nat (length c))) eqn:Hc; simpl;
    repeat (rewrite Hb; simpl).
  - rewrite (heap_upd_insert _ _ _ _ _ Hh), list_lookup_insert_eq by done.
    simpl.
    pose proof (list_lookup_insert_eq (heap st) i
                  (d, tqdm_update (Z.of_nat (length c)) b) Hlt) as Hi.
    rewrite (heap_upd_insert tqdm_close i _ d _ Hi).
    rewrite list_insert_insert_eq. simpl. by repeat case_bool_decide.
  - rewrite Hh. simpl. rewrite (heap_upd_insert _ _ _ _ _ Hh).
    repeat case_bool_decide; simpl; try done.
    destruct st. simpl in *. by rewrite list_insert_id.
Qed.

(** The closure on a digest that has no bar: it opens one first. *)
Lemma progress_fresh st d c sz :
  bars st !! d = None →
  progress d c sz st
  = Some (finish d (length (heap st)) (bump c (tqdm_new (dgst_prefix d) sz))
            (opened d sz st)).
Proof.
  intros Hb.
  rewrite <- (progress_known (opened d sz st) d (length (heap st))
                (tqdm_new (dgst_prefix d) sz) c sz).
  - unfold progress. rewrite Hb. unfold opened. cbn [bars heap].
    by repeat (rewrite lookup_insert_eq; cbn [bars heap]).
  - unfold opened. simpl. apply lookup_insert_eq.
  - unfold opened. simpl. by rewrite lookup_app_r, Nat.sub_diag.
Qed.

Lemma bump_closed c b : closed (bump c b) = closed b.
Proof. unfold bump. by case_bool_decide. Qed.

Lemma bump_total c b : total (bump c b) = total b.
Proof. unfold bump. by case_bool_decide. Qed.

Lemma bump_n c b : n (bump c b) = n b + Z.of_nat (length c).
Proof. unfold bump. case_bool_decide; simpl; lia. Qed.

Lemma wf_opened d sz st :
  wf st → bars st !! d = None → wf (opened d sz st).
Proof.
  intros Hwf Hd d' i. unfold opened. simpl.
  rewrite lookup_insert. case_decide as Hdd.
  - intros [= <-]. subst d'. exists (tqdm_new (dgst_prefix d) sz).
    split; [|done]. by rewrite lookup_app_r, Nat.sub_diag.
  - intros Hi. destruct (Hwf _ _ Hi) as (b & Hb & Hc).
    exists b. split; [|done]. by apply lookup_app_l_Some.
Qed.

Lemma wf_finish d i b0 b st :
  wf st → bars st !! d = Some i → heap st !! i = Some (d, b0) →
  closed b = false → wf (finish d i b st).
Proof.
  intros Hwf Hd Hi Hc d' i'. unfold finish.
  case_bool_decide; simpl.
  - rewrite lookup_delete. case_decide as Hdd; [done|].
    intros Hi'. destruct (Hwf _ _ Hi') as (b' & Hb' & Hc').
    exists b'. split; [|done].
    rewrite list_lookup_insert_ne; [done|]. intros ->. congruence.
  - intros Hi'. destruct (decide (d' = d)) as [->|Hdd].
    + assert (i' = i) as -> by congruence.
      exists b. split; [|done].
      apply list_lookup_insert_eq. by eapply lookup_lt_Some.
    + destruct (Hwf _ _ Hi') as (b' & Hb' & Hc').
      exists b'. split; [|done].
      rewrite list_lookup_insert_ne; [done|]. intros ->. congruence.
Qed.

Lemma same_view_refl d st : same_view d st st.
Proof. by split. Qed.

Lemma same_view_trans d st1 st2 st3 :
  same_view d st1 st2 → same_view d st2 st3 → same_view d st1 st3.
Proof.
  intros [Hb1 Hh1] [Hb2 Hh2]. split; [congruence|].
  intros j b. by rewrite Hh2, Hh1.
Qed.

Lemma same_view_opened d d' sz st :
  d' ≠ d → same_view d st (opened d' sz st).
Proof.
  intros Hdd. split; simpl.
  - by rewrite lookup_insert_ne.
  - intros j b. rewrite lookup_app_Some. split.
    + intros [Hj|[_ Hj]]; [done|].
      apply list_lookup_singleton_Some in Hj as [_ Hj]. congruence.
    + intros Hj. by left.
Qed.

Lemma same_view_finish d d' i b0 b st :
  d' ≠ d → heap st !! i = Some (d', b0) → same_view d st (finish d' i b st).
Proof.
  intros Hdd Hi. unfold finish.
  assert (∀ x j y, <[i := (d', x)]> (heap st) !! j = Some (d, y)
                   ↔ heap st !! j = Some (d, y)) as Hins.
  { intros x j y. destruct (decide (i = j)) as [<-|Hij].
    - rewrite list_lookup_insert_eq by (by eapply lookup_lt_Some).
      rewrite Hi. split; congruence.
    - by rewrite list_lookup_insert_ne. }
  case_bool_decide; split; simpl; try done.
  by rewrite lookup_delete_ne.
Qed.

(** The closure never fails on a well-formed state, keeps it well-formed
    and leaves every other digest alone. *)
Lemma progress_wf d c sz st :
  wf st →
  ∃ st', progress d c sz st = Some st' ∧ wf st' ∧
         ∀ d0, d0 ≠ d → same_view d0 st st'.
Proof.
  intros Hwf. destruct (bars st !! d) as [i|] eqn:Hd.
  - destruct (Hwf _ _ Hd) as (b & Hb & Hc).
    eexists. split; [by apply progress_known|]. split.
    + eapply wf_finish; eauto. by rewrite bump_closed.
    + intros d0 Hd0. by eapply same_view_finish.
  - eexists. split; [by apply progress_fresh|].
    assert (heap (opened d sz st) !! length (heap st)
            = Some (d, tqdm_new (dgst_prefix d) sz)) as Hnew.
    { unfold opened. simpl. by rewrite lookup_app_r, Nat.sub_diag. }
    split.
    + eapply wf_finish; eauto using wf_opened.
      * unfold opened. simpl. apply lookup_insert_eq.
      * by rewrite bump_closed.
    + intros d0 Hd0. eapply same_view_trans; [by apply same_view_opened|].
      by eapply same_view_finish.
Qed.

Lemma tracked_same_view d s k st st' :
  same_view d st st' → wf st' → tracked d s k st → tracked d s k st'.
Proof.
  intros [Hb Hh] Hwf' [_ Hd]. split; [done|].
  destruct Hd as [(Hnone & -> & Hall)|(i & b & Hi & Hbi & Hn & Ht & Hrest)].
  - left. rewrite Hb. repeat split; [done|].
    intros j b Hj. apply Hh in Hj. eauto.
  - right. exists i, b. rewrite Hb, Hh. repeat split; try done.
    intros j b' Hij Hj. apply Hh in Hj. eauto.
Qed.

Lemma settled_tracked d s st : settled d st ↔ tracked d s 0 st ∧ bars st !! d = None.
Proof.
  unfold settled, tracked. split.
  - intros (Hwf & Hb & Hall). naive_solver.
  - intros [[Hwf [(Hb & _ & Hall)|(i & b & Hi & _)]] Hnone]; [done|congruence].
Qed.

(** An invocation for another digest. *)
Lemma progress_other d d' s k c sz st :
  d' ≠ d → tracked d s k st →
  ∃ st', progress d' c sz st = Some st' ∧ tracked d s k st'.
Proof.
  intros Hdd Htr. destruct (progress_wf d' c sz st (proj1 Htr))
    as (st' & Hrun & Hwf' & Hview).
  exists st'. split; [done|]. eapply tracked_same_view; eauto.
Qed.

(** The bar of [d] when it is closed and dropped. *)
Lemma finish_settles d i b0 b st :
  wf st → bars st !! d = Some i → heap st !! i = Some (d, b0) →
  closed b = false → total b <= n b →
  (∀ j b', j ≠ i → heap st !! j = Some (d, b') → closed b' = true) →
  settled d (finish d i b st).
Proof.
  intros Hwf Hd Hi Hc Hge Hrest. split; [by eapply wf_finish|].
  unfold finish. rewrite bool_decide_true by done. split; simpl.
  - apply lookup_delete_eq.
  - intros j b' Hj. simpl in Hj. destruct (decide (i = j)) as [<-|Hij].
    + rewrite list_lookup_insert_eq in Hj by (by eapply lookup_lt_Some).
      by inversion Hj.
    + rewrite list_lookup_insert_ne in Hj by done. eauto.
Qed.

(** The bar of [d] when it stays open. *)
Lemma finish_tracks d s i b0 b st :
  wf st → bars st !! d = Some i → heap st !! i = Some (d, b0) →
  closed b = false → n b < total b → total b = s →
  (∀ j b', j ≠ i → heap st !! j = Some (d, b') → closed b' = true) →
  tracked d s (n b) (finish d i b st).
Proof.
  intros Hwf Hd Hi Hc Hlt Ht Hrest. split; [by eapply wf_finish|].
  unfold finish. rewrite bool_decide_false by lia. right. simpl.
  exists i, b. split; [done|].
  split; [apply list_lookup_insert_eq; by eapply lookup_lt_Some|].
  repeat split; try done.
  intros j b' Hij Hj. rewrite list_lookup_insert_ne in Hj by done. eauto.
Qed.

(** An invocation for [d] with the size [s] its bar was opened with: the
    bar is closed and dropped as soon as the count reaches [s]. *)
Lemma progress_same d s k c st :
  tracked d s k st →
  ∃ st', progress d c s st = Some st' ∧
         if bool_decide (s <= k + Z.of_nat (length c)) then settled d st'
         else tracked d s (k + Z.of_nat (length c)) st'.
Proof.
  intros [Hwf [(Hnone & -> & Hall)|(i & b & Hi & Hbi & Hn & Ht & Hrest)]].
  - eexists. split; [by apply progress_fresh|].
    set (b := bump c (tqdm_new (dgst_prefix d) s)).
    assert (n b = 0 + Z.of_nat (length c)) as Hn by apply bump_n.
    assert (total b = s) as Ht by apply bump_total.
    assert (closed b = false) as Hc by apply bump_closed.
    assert (bars (opened d s st) !! d = Some (length (heap st))) as Hi
      by apply lookup_insert_eq.
    assert (heap (opened d s st) !! length (heap st)
            = Some (d, tqdm_new (dgst_prefix d) s)) as Hbi.
    { unfold opened. simpl. by rewrite lookup_app_r, Nat.sub_diag. }
    assert (∀ j b', j ≠ length (heap st) →
              heap (opened d s st) !! j = Some (d, b') → closed b' = true)
      as Hrest.
    { intros j b' Hj. unfold opened. simpl. rewrite lookup_app_Some.
      intros [Hold|[Hge Hnew]]; [by eapply Hall|].
      apply list_lookup_singleton_Some in Hnew as [Hz _]. lia. }
    case_bool_decide.
    + eapply finish_settles; eauto using wf_opened. lia.
    + rewrite <- Hn. eapply finish_tracks; eauto using wf_opened. lia.
  - destruct (Hwf _ _ Hi) as (b0 & Hb0 & Hc).
    assert (b0 = b) as -> by congruence.
    eexists. split; [by apply progress_known|].
    pose proof (bump_n c b) as Hn'. pose proof (bump_total c b) as Ht'.
    pose proof (bump_closed c b) as Hc'.
    case_bool_decide.
    + eapply finish_settles; eauto; (congruence || lia).
    + replace (k + Z.of_nat (length c)) with (n (bump c b)) by lia.
      eapply finish_tracks; eauto; (congruence || lia).
Qed.

Lemma run_app cs1 cs2 st : run (cs1 ++ cs2) st = run cs1 st ≫= run cs2.
Proof.
  revert st. induction cs1 as [|c cs1 IH]; intros st; simpl; [done|].
  destruct (progress _ _ _ st); simpl; [apply IH|done].
Qed.

Lemma reported_nonneg d cs : 0 <= reported d cs.
Proof.
  induction cs as [|c cs IH]; simpl; [done|]. case_bool_decide; lia.
Qed.

(** While the count stays below [s] the bar of [d] follows it. *)
Lemma run_tracks d s cs : ∀ k st,
  tracked d s k st →
  Forall (fun c => pc_dgst c = d → pc_size c = s) cs →
  k + reported d cs < s →
  ∃ st', run cs st = Some st' ∧ tracked d s (k + reported d cs) st'.
Proof.
  induction cs as [|c cs IH]; intros k st Htr Hsz Hlt; simpl in *.
  - exists st. by rewrite Z.add_0_r.
  - apply Forall_cons in Hsz as [Hc Hsz].
    pose proof (reported_nonneg d cs) as Hnn.
    case_bool_decide as Hd.
    + destruct c as [d' c sz]. simpl in *. subst d'. rewrite (Hc eq_refl).
      destruct (progress_same d s k c st Htr) as (st1 & -> & Hst1).
      rewrite bool_decide_false in Hst1 by lia. simpl.
      destruct (IH _ _ Hst1 Hsz) as (st' & Hrun & Htr'); [lia|].
      exists st'. split; [done|]. by rewrite Z.add_assoc.
    + destruct (progress_other d (pc_dgst c) s k (pc_chunk c) (pc_size c) st)
        as (st1 & -> & Hst1); [done..|]. simpl. by apply IH.
Qed.

(** Invocations for other digests leave a settled digest settled. *)
Lemma run_settled d cs : ∀ st,
  settled d st → Forall (fun c => pc_dgst c ≠ d) cs →
  ∃ st', run cs st = Some st' ∧ settled d st'.
Proof.
  induction cs as [|c cs IH]; intros st Hst Hcs; simpl; [by exists st|].
  apply Forall_cons in Hcs as [Hc Hcs].
  apply (settled_tracked d 0) in Hst as [Htr Hnone].
  destruct (progress_wf (pc_dgst c) (pc_chunk c) (pc_size c) st (proj1 Htr))
    as (st1 & -> & Hwf1 & Hview). simpl.
  apply IH; [|done]. apply (settled_tracked d 0).
  destruct (Hview d (not_eq_sym Hc)) as [Hb Hh].
  split; [|congruence]. eapply tracked_same_view; eauto.
Qed.

Lemma tracked_init d s : tracked d s 0 init.
Proof.
  split; [by intros d' i Hi|]. left. repeat split; try done.
Qed.

(** An empty chunk for a settled digest opens a bar that stays open. *)
Lemma progress_reopens d s st :
  0 < s → settled d st →
  ∃ st', progress d [] s st = Some st' ∧
         is_Some (bars st' !! d) ∧ some_open d st'.
Proof.
  intros Hs Hst. apply (settled_tracked d s) in Hst as [Htr Hnone].
  destruct (progress_same d s 0 [] st Htr) as (st' & Hrun & Hst').
  rewrite bool_decide_false in Hst' by (simpl; lia).
  exists st'. split; [done|].
  destruct Hst' as [Hwf [(Hb & _)|(i & b & Hi & Hbi & _)]].
  - rewrite (progress_fresh _ _ _ _ Hnone) in Hrun. inversion Hrun as [Heq].
    rewrite <- Heq in Hb. unfold finish in Hb.
    rewrite bool_decide_false in Hb by (simpl; lia). simpl in Hb.
    by rewrite lookup_insert_eq in Hb.
  - split; [by eexists|]. destruct (Hwf _ _ Hi) as (b' & Hb' & Hc).
    by exists i, b'.
Qed.

(** C4 (as amended). With progress reporting on and a digest of declared
    size [s > 0]: once the closure has been invoked with chunks for the
    digest whose lengths sum to [s], the last of them non-empty -- earlier
    ones may be empty, and invocations for other digests may come before,
    between and after -- [bars] has no entry for the digest and no tqdm
    object created for it is open. No invocation raises. An empty chunk
    delivered after that opens a new bar for the digest, which stays in
    [bars], open. *)
Theorem progress_completes (d : string) (s : Z) (pre post : list pcall)
    (c : bytes) :
  0 < s → c ≠ [] →
  Forall (fun x => pc_dgst x = d → pc_size x = s) pre →
  reported d pre + Z.of_nat (length c) = s →
  Forall (fun x => pc_dgst x ≠ d) post →
  ∃ st, run (pre ++ PCall d c s :: post) init = Some st ∧
        bars st !! d = None ∧ all_closed d st ∧
        ∃ st', progress d [] s st = Some st' ∧
               is_Some (bars st' !! d) ∧ some_open d st'.
Proof.
  intros Hs Hc Hpre Hsum Hpost.
  assert (0 < Z.of_nat (length c)) as Hlen by (destruct c; [done|simpl; lia]).
  destruct (run_tracks d s pre 0 init (tracked_init d s) Hpre)
    as (st1 & Hrun1 & Htr1); [lia|].
  destruct (progress_same d s _ c st1 Htr1) as (st2 & Hrun2 & Hst2).
  rewrite bool_decide_true in Hst2 by lia.
  destruct (run_settled d post st2 Hst2 Hpost) as (st3 & Hrun3 & Hst3).
  exists st3. split.
  - rewrite run_app, Hrun1. simpl. by rewrite Hrun2.
  - destruct Hst3 as (Hwf & Hnone & Hall). repeat split; try done.
    by apply progress_reopens.
Qed.

Lemma progress_completes_witness :
  let d := "sha256:4f2a" in
  ∃ st, run ([PCall d [] 3; PCall "sha256:91bc" ["x"%byte] 1;
              PCall d ["a"%byte] 3]
             ++ PCall d ["b"%byte; "c"%byte] 3
             :: [PCall "sha256:77e0" [] 5]) init = Some st ∧
        bars st !! d = None ∧ all_closed d st ∧
        ∃ st', progress d [] 3 st = Some st' ∧
               is_Some (bars st' !! d) ∧ some_open d st'.
Proof.
  intros d. apply (progress_completes d 3); try done.
  - repeat constructor; simpl; done.
  - repeat constructor; simpl; done.
Defined.

(** C4 as stated fails: for a digest of size 3, one chunk of three bytes
    followed by the final empty chunk. The three bytes close and drop the
    bar; the empty chunk opens a second one (address 1) which stays in
    [bars], open. *)
Lemma progress_final_empty_chunk_reopens :
  let d := "sha256:4f2a" in
  let chunks : list bytes := [["a"%byte; "b"%byte; "c"%byte]] in
  Forall (fun c => c ≠ []) chunks ∧
  foldr (fun c acc => Z.of_nat (length c) + acc) 0 chunks = 3 ∧
  ∃ st, run (feed d 3 chunks ++ feed d 3 [[]]) init = Some st ∧
        bars st !! d = Some 1%nat ∧
        heap st !! 1%nat = Some (d, tqdm_new (dgst_prefix d) 3) ∧
        ¬ (bars st !! d = None ∧ all_closed d st).
Proof.
  intros d chunks. split; [by repeat constructor|]. split; [done|].
  eexists. split; [vm_compute; reflexivity|].
  split; [by vm_compute|]. split; [by vm_compute|].
  intros [Hb _]. by vm_compute in Hb.
Qed.

End ProgressFacts.

(** * Properties of [doit] *)

Module CliFacts.
Import Cli.

Section Rules.
Context `{PyLib} `{!World}.

Lemma bind_run {A B} (m : M A) (f : A → M B) st :
  (m ≫= f) st = match m st with
                | (Return a, st') => f a st'
                | (Raise e, st') => (Raise e, st')
                end.
Proof. reflexivity. Qed.

Lemma ret_run {A} (a : A) st : (mret a : M A) st = (Return a, st).
Proof. reflexivity. Qed.

Lemma do_call_run {A} (c : call A) w0 tr r w :
  lib_call c w0 = (r, w) →
  do_call c (w0, tr) = (r, (w, tr ++ [ECall c (raised r)])).
Proof. intros Hc. unfold do_call. simpl. by rewrite Hc. Qed.

(** ** Rules for [emits] *)

Lemma emits_weaken {A} P (Q Q' : A → Prop) m :
  emits P Q m → (∀ a, Q a → Q' a) → emits P Q' m.
Proof.
  intros Hm HQ st. destruct (Hm st) as (tr & Htr & HP & Hr).
  exists tr. eauto.
Qed.

Lemma emits_ret {A} P (a : A) : emits P (fun x => x = a) (mret a).
Proof.
  intros st. exists []. simpl. rewrite app_nil_r.
  repeat split; [constructor|]. by intros ? [= ->].
Qed.

Lemma emits_raise {A} P (Q : A → Prop) e : emits P Q (raise e).
Proof.
  intros st. exists []. simpl. rewrite app_nil_r.
  repeat split; [constructor|]. by intros ? [=].
Qed.

Lemma emits_lift {A} P (r : outcome A) : emits P (fun a => r = Return a) (lift r).
Proof.
  intros st. exists []. simpl. rewrite app_nil_r.
  repeat split; [constructor|]. by intros ? ->.
Qed.

Lemma emits_emit (P : event → Prop) ev :
  P ev → emits P (fun _ => True) (emit ev).
Proof.
  intros Hev st. exists [ev]. simpl. split; [done|]. split; [by repeat constructor|done].
Qed.

Lemma emits_call {A} (P : event → Prop) (c : call A) :
  (∀ r, P (ECall c r)) → emits P (fun _ => True) (do_call c).
Proof.
  intros Hc st. unfold do_call. destruct (lib_call c st.1) as [r w].
  exists [ECall c (raised r)]. simpl.
  split; [done|]. split; [by repeat constructor|done].
Qed.

Lemma emits_bind {A B} P (Q : A → Prop) (R : B → Prop) m (f : A → M B) :
  emits P Q m → (∀ a, Q a → emits P R (f a)) → emits P R (m ≫= f).
Proof.
  intros Hm Hf st. rewrite bind_run.
  destruct (Hm st) as (tr & Htr & HP & Hr).
  destruct (m st) as [[a|e] st1]; simpl in *.
  - destruct (Hf a (Hr a eq_refl) st1) as (tr' & Htr' & HP' & Hr').
    exists (tr ++ tr'). rewrite Htr', Htr, app_assoc.
    split; [done|]. split; [by apply Forall_app|done].
  - exists tr. split; [done|]. split; [done|]. by intros ? [=].
Qed.

Lemma emits_var {A} P name (v : option A) :
  emits P (fun a => v = Some a) (var name v).
Proof.
  destruct v; simpl; [|apply emits_raise].
  eapply emits_weaken; [apply emits_ret|]. by intros ? ->.
Qed.

Lemma emits_environ_item P environ key :
  emits P (fun v => environ !! key = Some v) (environ_item environ key).
Proof.
  unfold environ_item. destruct (environ !! key); [|apply emits_raise].
  eapply emits_weaken; [apply emits_ret|]. by intros ? ->.
Qed.

Lemma emits_item0 P l : emits P (fun _ => True) (item0 l).
Proof.
  destruct l; simpl; [apply emits_raise|].
  eapply emits_weaken; [apply emits_ret|done].
Qed.

Lemma emits_true {A} P (a : A) : emits P (fun _ => True) (mret a).
Proof. eapply emits_weaken; [apply emits_ret|done]. Qed.

Lemma emits_parser_error {A} (P : event → Prop) (Q : A → Prop) message :
  P (EParserError message) → emits P Q (parser_error message).
Proof.
  intros HP. unfold parser_error. eapply emits_bind.
  - by apply emits_emit.
  - intros _ _. apply emits_raise.
Qed.

Lemma emits_when (P : event → Prop) cond body :
  emits P (fun _ => True) body → emits P (fun _ => True) (when cond body).
Proof. destruct cond; simpl; [done|]. intros _. apply emits_true. Qed.

Lemma emits_for_each {A} P (l : list A) body :
  (∀ x, emits P (fun _ => True) (body x)) →
  emits P (fun _ => True) (for_each l body).
Proof.
  intros Hbody. induction l as [|x l IH]; simpl; [apply emits_true|].
  eapply emits_bind; [apply Hbody|]. by intros _ _.
Qed.

Lemma emits_for_in {A} P (it : iter A) body :
  (∀ x, emits P (fun _ => True) (body x)) →
  emits P (fun _ => True) (for_in it body).
Proof.
  intros Hbody. unfold for_in.
  eapply emits_bind; [by apply emits_for_each|]. intros _ _.
  destruct (failure it); [apply emits_raise|apply emits_true].
Qed.

Lemma access_denied_run st :
  access_denied st = (Return EACCES, (st.1, st.2 ++ [ETraceback])).
Proof. reflexivity. Qed.

Lemma emits_guarded (P : event → Prop) body :
  P ETraceback → emits P (fun _ => True) body →
  emits P (fun _ => True) (guarded body).
Proof.
  intros HP Hbody st. destruct (Hbody st) as (tr & Htr & Htr' & _).
  unfold guarded.
  destruct (body st) as [[[]|e] st1]; simpl in *.
  { exists tr. by repeat split. }
  assert (∃ tr', st1.2 ++ [ETraceback] = st.2 ++ tr' ∧ Forall P tr') as Hden.
  { exists (tr ++ [ETraceback]). rewrite Htr, app_assoc.
    split; [done|]. apply Forall_app. split; [done|]. by constructor. }
  destruct e as [|errs| | | | |]; try (exists tr; by repeat split).
  - destruct Hden as (tr' & ? & ?). exists tr'. by repeat split.
  - destruct (any_unauthorized errs); [|exists tr; by repeat split].
    rewrite access_denied_run.
    destruct Hden as (tr' & ? & ?). exists tr'. by repeat split.
Qed.

Lemma emits_get_lifetime P environ role :
  emits P (fun _ => True) (get_lifetime environ role).
Proof.
  unfold get_lifetime. destruct (environ !! _); [|apply emits_true].
  eapply emits_bind; [apply emits_lift|]. intros ? _. apply emits_true.
Qed.

End Rules.

(** Running a statement on a state, as far as the hypotheses tell. *)
Ltac run :=
  repeat first
    [ rewrite bind_run
    | rewrite ret_run
    | progress cbn [var when item0 lift raise fst snd raised
                    length Nat.ltb Nat.leb Nat.eqb
                    dtuf_base dtuf_master dtuf_copy dtuf_obj] ].

(** One step of a proof of [emits], chosen by the shape of the statement. *)
Ltac emits_step :=
  match goal with
  | |- emits _ _ (mbind _ _) => eapply emits_bind; [|intros ? ?]
  | |- emits _ _ (when _ _) => apply emits_when
  | |- emits _ _ (parser_error _) => apply emits_parser_error; [exact I|]
  | |- emits _ _ (parser_error _) => apply emits_parser_error; exact I
  | |- emits _ _ (var _ _) => apply emits_var
  | |- emits _ _ (environ_item _ _) => apply emits_environ_item
  | |- emits _ _ (item0 _) => apply emits_item0
  | |- emits _ _ (get_lifetime _ _) => apply emits_get_lifetime
  | |- emits _ _ (lift _) => apply emits_lift
  | |- emits _ _ (do_call _) => apply emits_call
  | |- emits _ _ (emit _) => apply emits_emit
  | |- emits _ _ (print _) => apply emits_emit
  | |- emits _ _ (for_each _ _) => apply emits_for_each; intros ?
  | |- emits _ _ (for_in _ _) => apply emits_for_in; intros ?
  | |- emits _ _ (mret _) => apply emits_true
  | |- emits _ _ (raise _) => apply emits_raise
  | |- emits _ _ (if ?b then _ else _) => destruct b eqn:?
  | |- emits _ _ (match ?x with _ => _ end) => destruct x eqn:?
  end.

(** A call made in a branch of [doit]: the sub-command is known from the
    tests that led there. *)
Ltac call_leaf :=
  repeat match goal with
         | H : String.eqb _ _ = true |- _ => apply String.eqb_eq in H; subst
         end;
  cbn in *; simplify_eq; try exact I;
  try (intros ?; split;
         [intros ? ? [= <- <-]; by split | by intros ? [= <-]]);
  try (intros ?; split; [by intros ? ? [=] | by intros ? [=]]).

Section Events.
Context `{PyLib} `{!World}.

(** Lines 106-182 call no method and bind the variables as [frame_for]
    says. *)
Lemma setup_emits o r a environ pr :
  emits (event_ok o pr) (fun fr => fr = frame_for o)
        (setup (Build_Namespace o r a) environ).
Proof.
  unfold setup. eapply emits_bind with (Q := fun _ => True).
  - unfold configure_logging. repeat emits_step; call_leaf.
  - intros _ _. unfold make_objects, frame_for, kind_of. cbn [op repo args].
    destruct (String.eqb o "list-repos"); [|destruct (str_in o master_ops)].
    all: repeat (eapply emits_bind; [emits_step|intros ? ?]).
    all: try (eapply emits_weaken; [apply emits_ret|by intros ? ->]).
    all: call_leaf.
Qed.

(** Every call of [_doit] is a method of the object constructed for the
    sub-command, with [progress] as its progress argument. *)
Lemma _doit_emits o r a environ pr :
  emits (event_ok o pr) (fun _ => True)
        (_doit (Build_Namespace o r a) environ pr (frame_for o)).
Proof.
  unfold _doit, dispatch, set_token. cbn [op repo args].
  repeat emits_step; call_leaf.
Qed.

Lemma doit_emits ns environ isatty :
  emits (event_ok (op ns) (progress environ isatty)) (fun _ => True)
        (doit ns environ isatty).
Proof.
  destruct ns as [o r a]. unfold doit. eapply emits_bind.
  - apply setup_emits.
  - intros fr ->. apply emits_guarded; [exact I|]. apply _doit_emits.
Qed.

(** Every sub-command the parser accepts is list-repos, a master
    sub-command or a consumer sub-command. *)
Lemma choices_covered :
  Forall (fun o => o = "list-repos" ∨ str_in o master_ops = true ∨
                   str_in o copy_ops = true) choices.
Proof.
  unfold choices.
  repeat (apply Forall_cons; split;
          [first [by left | by right; left | by right; right]|]).
  constructor.
Qed.

Lemma method_calls_app tr1 tr2 :
  method_calls (tr1 ++ tr2) = method_calls tr1 ++ method_calls tr2.
Proof. apply omap_app. Qed.

Lemma method_calls_ok o pr tr :
  Forall (event_ok o pr) tr →
  Forall (fun km => km.1 = kind_of o ∧ str_in km.2 (methods_of km.1) = true)
         (method_calls tr).
Proof.
  induction 1 as [|ev tr Hev _ IH]; simpl; [constructor|].
  destruct ev as [| |A c raised| | | |]; simpl; try done.
  destruct (method c) as [[k m]|] eqn:Hm; [|done].
  constructor; [|done]. by apply Hev.
Qed.

Lemma str_in_elem x l : str_in x l = true ↔ x ∈ l.
Proof.
  unfold str_in. induction l as [|y l IH]; simpl.
  - split; [done|]. by intros ?%elem_of_nil.
  - rewrite orb_true_iff, elem_of_cons, IH, String.eqb_eq. done.
Qed.

Lemma read_not_write m :
  str_in m read_operations = true → m ∉ write_operations.
Proof.
  rewrite str_in_elem. unfold read_operations, write_operations. intros Hm.
  repeat (apply elem_of_cons in Hm as [->|Hm];
          [intros Hin;
           repeat (apply elem_of_cons in Hin as [?|Hin]; [done|]);
           by apply elem_of_nil in Hin|]).
  by apply elem_of_nil in Hm.
Qed.

Lemma kind_of_copy o : str_in o copy_ops = true → kind_of o = DTufCopy.
Proof.
  rewrite str_in_elem. unfold copy_ops. intros Hin.
  repeat (apply elem_of_cons in Hin as [->|Hin]; [done|]).
  by apply elem_of_nil in Hin.
Qed.

(** The trace of a run only grows. *)
Lemma setup_frame ns environ st fr st1 :
  setup ns environ st = (Return fr, st1) → fr = frame_for (op ns).
Proof.
  intros Hrun. destruct ns as [o r a].
  destruct (setup_emits o r a environ None st) as (tr & _ & _ & Hfr).
  apply Hfr. by rewrite Hrun.
Qed.

(** Configuring the logs calls no method. *)
Lemma configure_logging_quiet environ st :
  ∃ tr, (configure_logging environ st).2.2 = st.2 ++ tr ∧ method_calls tr = [].
Proof.
  assert (emits (fun ev => method_calls [ev] = []) (fun _ => True)
                (configure_logging environ)) as Hem.
  { unfold configure_logging. repeat emits_step; done. }
  destruct (Hem st) as (tr & Htr & Hquiet & _). exists tr. split; [done|].
  clear Htr. induction Hquiet as [|ev tr Hev _ IH]; [done|].
  change (ev :: tr) with ([ev] ++ tr). by rewrite method_calls_app, Hev, IH.
Qed.

(** For a consumer sub-command, lines 176-182 construct the [DTufCopy]. *)
Lemma make_objects_copy ns environ st fr st1 :
  kind_of (op ns) = DTufCopy →
  make_objects ns environ st = (Return fr, st1) →
  ∃ host,
    environ !! "DTUF_HOST" = Some host ∧
    st1.2 = st.2 ++ [ECall (NewDTufCopy host (repo ns)
                              (environ !! "DTUF_REPOSITORIES_ROOT")
                              (auth environ) (insecure environ)
                              (environ !! "DTUF_AUTH_HOST")) None].
Proof.
  unfold kind_of, make_objects.
  destruct (String.eqb (op ns) "list-repos"); [done|].
  destruct (str_in (op ns) master_ops); [done|]. intros _.
  rewrite bind_run. unfold environ_item.
  destruct (environ !! "DTUF_HOST") as [host|]; [|done]. simpl.
  rewrite bind_run. unfold do_call.
  destruct (lib_call _ st.1) as [[[]|e] w]; simpl; [|done].
  intros [= <- <-]. by exists host.
Qed.

(** The statements of [doit] never make the call of the closure, and the
    callback their constructor calls hand over is [auth]. *)
Lemma doit_statement_events ns environ isatty :
  emits (statement_event (auth environ)) (fun _ => True)
        (doit ns environ isatty).
Proof.
  unfold doit. eapply emits_bind with (Q := fun _ => True).
  - unfold setup, configure_logging, make_objects.
    repeat emits_step;
      first [by split | split; [done|]; first [by intros ? [=] | by intros ? [= <-]]].
  - intros fr _. apply emits_guarded; [by split|].
    unfold _doit, dispatch, set_token.
    repeat match goal with
           | |- emits _ _ (parser_error _) =>
               apply emits_parser_error; by split
           | _ => emits_step
           end;
      first [by split | intros; split; [done|]; by intros ? [=]].
Qed.

Lemma closure_events_filter environ uses :
  filter (fun ev => is_closure_call ev = false)
         (closure_events (auth environ) uses) = [].
Proof. induction uses as [|u uses IH]; [done|]. simpl. by rewrite filter_cons_False. Qed.

(** Putting the calls of the closure in adds [authenticate] calls of [auth]
    to the events of the statements, and nothing else. *)
Lemma with_callbacks_adds environ tr : ∀ held w,
  (∀ au, held = Some au → au = auth environ) →
  Forall (statement_event (auth environ)) tr →
  filter (fun ev => is_closure_call ev = false) (with_callbacks held w tr) = tr ∧
  Forall (fun ev => is_closure_call ev = true →
            ∃ o response x, ev = ECall (auth environ o response) x)
         (with_callbacks held w tr).
Proof.
  induction tr as [|ev tr IH]; intros held w Hheld Htr; [by split|].
  apply Forall_cons in Htr as [[Hev Hhands] Htr].
  assert (∀ uses, Forall (fun ev => is_closure_call ev = true →
                            ∃ o response x, ev = ECall (auth environ o response) x)
                         (closure_events (auth environ) uses)) as Hcl.
  { intros uses. apply Forall_forall. intros ev' Hin _.
    apply list_elem_of_fmap in Hin as (u & -> & _). eauto. }
  destruct ev as [| |A c r| | | |];
    try (destruct (IH held w Hheld Htr) as [Hf Hc]; simpl; split;
         [by rewrite filter_cons_True, Hf|by constructor]).
  cbn [with_callbacks].
  set (held' := match handed c with Some au => Some au | None => held end).
  assert (∀ au, held' = Some au → au = auth environ) as Hheld'.
  { unfold held'. destruct (handed c) as [au0|] eqn:Hc; [|done].
    intros au [= <-]. by apply Hhands. }
  destruct (IH held' (lib_call c w).2 Hheld' Htr) as [Hf Hc].
  assert (∃ uses, match held' with
                  | Some au => closure_events au (lib_asks c w)
                  | None => []
                  end = closure_events (auth environ) uses) as [uses ->].
  { destruct held' as [au|]; [|by exists []].
    rewrite (Hheld' au eq_refl). eauto. }
  split.
  - by rewrite filter_app, closure_events_filter, filter_cons_True, Hf.
  - apply Forall_app. split; [done|]. constructor; [|done].
    intros Hyes. congruence.
Qed.

(** C2. On any input, no pushing, deleting or key life-cycle method is
    called on a [DTufCopy], by the statements of [doit] or by the [auth]
    closure. With the calls of the closure in, the events of a run are those
    of its statements plus, for each use the package makes of the callback,
    one [authenticate(DTUF_USERNAME, DTUF_PASSWORD, response=response)] on
    the object the package passes. For the sub-commands pull-metadata,
    pull-target, blob-sizes, check-target, list-copy-targets and
    get-copy-expirations, every method call a statement makes is one of the
    read operations (pull_metadata, pull_target, blob_sizes, check_target,
    list_targets, get_expirations) on a [DTufCopy], and every other method
    call of the run is an [authenticate] of the closure; and when lines
    106-182 complete, the object they construct is a [DTufCopy], built from
    [DTUF_HOST] and the repo before any statement calls a method. *)
Theorem doit_copy_read_only ns environ isatty st :
  ∃ tr,
    (doit ns environ isatty st).2.2 = st.2 ++ tr ∧
    let full := with_callbacks None st.1 tr in
    filter (fun ev => is_closure_call ev = false) full = tr ∧
    Forall (fun ev => is_closure_call ev = true →
              ∃ o response x, ev = ECall (auth environ o response) x) full ∧
    (∀ m, (DTufCopy, m) ∈ method_calls full → m ∉ write_operations) ∧
    (str_in (op ns) copy_ops = true →
       Forall (fun km => km.1 = DTufCopy ∧ km.2 ∈ read_operations)
              (method_calls tr) ∧
       Forall (fun km => km.1 = DTufCopy ∧ km.2 ∈ read_operations ∨
                         km.2 = "authenticate")
              (method_calls full) ∧
       ∀ fr st1, setup ns environ st = (Return fr, st1) →
         dtuf_obj fr = DTufCopy ∧ dtuf_copy fr = Some DTufCopy ∧
         ∃ host tr0 tr1,
           environ !! "DTUF_HOST" = Some host ∧
           method_calls tr0 = [] ∧
           tr = tr0 ++ ECall (NewDTufCopy host (repo ns)
                                (environ !! "DTUF_REPOSITORIES_ROOT")
                                (auth environ) (insecure environ)
                                (environ !! "DTUF_AUTH_HOST")) None :: tr1).
Proof.
  destruct (doit_emits ns environ isatty st) as (tr & Htr & Hok & _).
  destruct (doit_statement_events ns environ isatty st)
    as (tr' & Htr' & Hst & _).
  assert (tr' = tr) as ->
    by (apply (app_inv_head st.2); by rewrite <- Htr, <- Htr').
  clear Htr'. exists tr. split; [done|]. intros full.
  destruct (with_callbacks_adds environ tr None st.1 ltac:(done) Hst)
    as [Hfilter Hclosure].
  fold full in Hfilter, Hclosure.
  split; [done|]. split; [done|].
  apply method_calls_ok in Hok. rewrite Forall_forall in Hok.
  assert (∀ k m, (k, m) ∈ method_calls full →
                 (k, m) ∈ method_calls tr ∨ m = "authenticate") as Hfull.
  { intros k m Hin. unfold method_calls in Hin.
    apply list_elem_of_omap in Hin as (ev & Hev & Hm).
    destruct (is_closure_call ev) eqn:Hc.
    - rewrite Forall_forall in Hclosure.
      destruct (Hclosure ev Hev Hc) as (o & response & x & ->).
      right. simpl in Hm. congruence.
    - left. unfold method_calls. apply list_elem_of_omap. exists ev.
      split; [|done]. rewrite <- Hfilter. by apply list_elem_of_filter. }
  split.
  - intros m Hin. destruct (Hfull _ _ Hin) as [Hin'| ->].
    + destruct (Hok _ Hin') as [_ Hm]. by apply read_not_write.
    + unfold write_operations. intros Hw.
      repeat (apply elem_of_cons in Hw as [?|Hw]; [done|]).
      by apply elem_of_nil in Hw.
  - intros Hcopy. pose proof (kind_of_copy _ Hcopy) as Hkind.
    assert (∀ k m, (k, m) ∈ method_calls tr →
                   k = DTufCopy ∧ m ∈ read_operations) as Hreads.
    { intros k m Hin. destruct (Hok _ Hin) as [Hk Hm]. simpl in *.
      rewrite Hkind in Hk. subst k. split; [done|]. by apply str_in_elem. }
    split; [|split].
    + apply Forall_forall. intros [k m] Hin. by apply Hreads.
    + apply Forall_forall. intros [k m] Hin.
      destruct (Hfull _ _ Hin) as [Hin'| ->]; [left; by apply Hreads|by right].
    + intros fr st1 Hsetup.
      pose proof (setup_frame _ _ _ _ _ Hsetup) as ->.
      unfold frame_for in Hsetup |- *. rewrite Hkind in Hsetup |- *.
      do 2 (split; [done|]).
      unfold doit in Htr. rewrite bind_run, Hsetup in Htr.
      unfold setup in Hsetup. rewrite bind_run in Hsetup.
      destruct (configure_logging_quiet environ st) as (tr0 & Htr0 & Hquiet).
      destruct (configure_logging environ st) as [[[]|e] st0]; [|done].
      destruct (make_objects_copy _ _ _ _ _ Hkind Hsetup) as (host & Hhost & Hst1).
      destruct (emits_guarded (fun _ => True)
                  (_doit ns environ (progress environ isatty)
                     (Frame None None (Some DTufCopy) DTufCopy)) I) with (st := st1)
        as (tr1 & Htr1 & _).
      { intros st'. destruct ns as [o r a].
        destruct (_doit_emits o r a environ (progress environ isatty) st')
          as (tr' & Htr' & _). simpl in Hkind.
        unfold frame_for in Htr'. rewrite Hkind in Htr'.
        exists tr'. split; [done|]. split; [|done].
        apply Forall_forall. done. }
      exists host, tr0, tr1. do 2 (split; [done|]).
      simpl in Htr0. rewrite Htr1, Hst1, Htr0 in Htr.
      rewrite <- !app_assoc in Htr. by apply app_inv_head in Htr.
Qed.

End Events.

(** ** Rules for [propagates] *)

Section Propagation.
Context `{PyLib} `{!World}.

(** A statement that makes no call. *)
Lemma propagates_quiet {A} (m : M A) :
  (∀ st, ∃ tr, (m st).2.2 = st.2 ++ tr ∧
               Forall (fun ev => ∀ B (c : call B) r, ev ≠ ECall c r) tr) →
  propagates m.
Proof.
  intros Hm st. destruct (Hm st) as (tr & Htr & Hquiet).
  exists tr. split; [done|]. intros B c e Hin.
  rewrite Forall_forall in Hquiet. by destruct (Hquiet _ Hin B c (Some e)).
Qed.

Lemma propagates_ret {A} (a : A) : propagates (mret a).
Proof.
  apply propagates_quiet. intros st. exists []. simpl.
  by rewrite app_nil_r.
Qed.

Lemma propagates_raise {A} e : propagates (raise (A := A) e).
Proof.
  apply propagates_quiet. intros st. exists []. simpl.
  by rewrite app_nil_r.
Qed.

Lemma propagates_lift {A} (r : outcome A) : propagates (lift r).
Proof.
  apply propagates_quiet. intros st. exists []. simpl.
  by rewrite app_nil_r.
Qed.

Lemma propagates_emit ev :
  (∀ B (c : call B) r, ev ≠ ECall c r) → propagates (emit ev).
Proof.
  intros Hev. apply propagates_quiet. intros st. exists [ev]. simpl.
  split; [done|]. by repeat constructor.
Qed.

Lemma propagates_call {A} (c : call A) : propagates (do_call c).
Proof.
  intros st. unfold do_call. destruct (lib_call c st.1) as [r w].
  exists [ECall c (raised r)]. simpl. split; [done|].
  intros B c' e Hin. apply list_elem_of_singleton in Hin.
  split; [exists []; by rewrite Hin|].
  destruct r as [a|e']; simpl in Hin; [by inversion Hin|].
  by inversion Hin.
Qed.

Lemma propagates_bind {A B} (m : M A) (f : A → M B) :
  propagates m → (∀ a, propagates (f a)) → propagates (m ≫= f).
Proof.
  intros Hm Hf st. rewrite bind_run.
  destruct (Hm st) as (tr & Htr & Hp).
  destruct (m st) as [[a|e] st1]; simpl in *.
  - destruct (Hf a st1) as (tr' & Htr' & Hp').
    exists (tr ++ tr'). rewrite Htr', Htr, app_assoc. split; [done|].
    intros C c e Hin. apply elem_of_app in Hin as [Hin|Hin].
    + by destruct (Hp _ _ _ Hin) as [_ ?].
    + destruct (Hp' _ _ _ Hin) as [[tr0 ->] Hr]. split; [|done].
      exists (tr ++ tr0). by rewrite app_assoc.
  - exists tr. split; [done|]. intros C c e0 Hin.
    destruct (Hp _ _ _ Hin) as [Hend [= ->]]. done.
Qed.

Lemma propagates_var {A} name (v : option A) : propagates (var name v).
Proof. destruct v; [apply propagates_ret|apply propagates_raise]. Qed.

Lemma propagates_environ_item environ key :
  propagates (environ_item environ key).
Proof.
  unfold environ_item.
  destruct (environ !! key); [apply propagates_ret|apply propagates_raise].
Qed.

Lemma propagates_item0 l : propagates (item0 l).
Proof. destruct l; [apply propagates_raise|apply propagates_ret]. Qed.

Lemma propagates_parser_error {A} message :
  propagates (parser_error (A := A) message).
Proof.
  apply propagates_bind; [by apply propagates_emit|].
  intros _. apply propagates_raise.
Qed.

Lemma propagates_when cond body :
  propagates body → propagates (when cond body).
Proof. destruct cond; simpl; [done|]. intros _. apply propagates_ret. Qed.

Lemma propagates_for_each {A} (l : list A) body :
  (∀ x, propagates (body x)) → propagates (for_each l body).
Proof.
  intros Hbody. induction l as [|x l IH]; simpl; [apply propagates_ret|].
  apply propagates_bind; [apply Hbody|done].
Qed.

Lemma propagates_for_in {A} (it : iter A) body :
  (∀ x, propagates (body x)) → propagates (for_in it body).
Proof.
  intros Hbody. apply propagates_bind; [by apply propagates_for_each|].
  intros _. destruct (failure it); [apply propagates_raise|apply propagates_ret].
Qed.

End Propagation.

Ltac propagates_step :=
  match goal with
  | |- propagates (mbind _ _) => apply propagates_bind; [|intros ?]
  | |- propagates (when _ _) => apply propagates_when
  | |- propagates (parser_error _) => apply propagates_parser_error
  | |- propagates (var _ _) => apply propagates_var
  | |- propagates (environ_item _ _) => apply propagates_environ_item
  | |- propagates (item0 _) => apply propagates_item0
  | |- propagates (lift _) => apply propagates_lift
  | |- propagates (do_call _) => apply propagates_call
  | |- propagates (emit _) => apply propagates_emit; done
  | |- propagates (print _) => apply propagates_emit; done
  | |- propagates (for_each _ _) => apply propagates_for_each; intros ?
  | |- propagates (for_in _ _) => apply propagates_for_in; intros ?
  | |- propagates (mret _) => apply propagates_ret
  | |- propagates (raise _) => apply propagates_raise
  | |- propagates (if ?b then _ else _) => destruct b
  | |- propagates (match ?x with _ => _ end) => destruct x
  end.

Section Guard.
Context `{PyLib} `{!World}.

(** Nothing in [_doit] catches an exception. *)
Lemma _doit_propagates ns environ pr fr : propagates (_doit ns environ pr fr).
Proof.
  unfold _doit, dispatch, set_token. repeat propagates_step.
Qed.

Lemma is_unauthorized_spec e :
  is_unauthorized e = true ↔ e = DXFUnauthorizedError.
Proof. by destruct e. Qed.

Lemma any_unauthorized_spec errs :
  any_unauthorized errs = true ↔ ∃ url, (url, DXFUnauthorizedError) ∈ errs.
Proof.
  induction errs as [|[url ex2] errs IH]; simpl.
  - split; [done|]. intros [url Hin]. by apply elem_of_nil in Hin.
  - destruct (is_unauthorized ex2) eqn:Hex.
    + apply is_unauthorized_spec in Hex as ->. split; [|done].
      intros _. exists url. by left.
    + rewrite IH. split.
      * intros [url' Hin]. exists url'. by right.
      * intros [url' Hin]. apply elem_of_cons in Hin as [[= -> <-]|Hin];
          [done|by exists url'].
Qed.

(** What the two handlers of [doit] do with an exception. *)
Lemma guarded_raise body st e st' :
  body st = (Raise e, st') →
  (unauthorized e →
     guarded body st = (Return EACCES, (st'.1, st'.2 ++ [ETraceback]))) ∧
  (¬ unauthorized e → guarded body st = (Raise e, st')).
Proof.
  intros Hbody. unfold guarded, unauthorized. rewrite Hbody. split.
  - intros [->|(errs & url & -> & Hin)]; [done|].
    assert (any_unauthorized errs = true) as ->
      by (apply any_unauthorized_spec; eauto).
    done.
  - intros Hno. destruct e as [|errs| | | | |]; try done.
    + destruct Hno. by left.
    + destruct (any_unauthorized errs) eqn:Hany; [|done].
      apply any_unauthorized_spec in Hany as [url Hin].
      destruct Hno. right. eauto.
Qed.

(** C3. Once lines 106-182 have completed, for every sub-command: a call
    that raises is the last thing [_doit] does, and [_doit] raises what the
    call raised; if what [_doit] raises is a [DXFUnauthorizedError], or a
    [NoWorkingMirrorError] with a [DXFUnauthorizedError] among its mirror
    errors, [doit] prints the traceback and returns [errno.EACCES]; if
    [_doit] returns, [doit] returns 0; a [NoWorkingMirrorError] none of whose
    mirror errors is a [DXFUnauthorizedError] is raised again to the
    caller. *)
Theorem doit_access_denied ns environ isatty st fr st1 :
  setup ns environ st = (Return fr, st1) →
  let body := _doit ns environ (progress environ isatty) fr st1 in
  let result := doit ns environ isatty st in
  ∃ tr,
    body.2.2 = st1.2 ++ tr ∧
    (∀ A (c : call A) e, ECall c (Some e) ∈ tr →
       ends_raising c e tr ∧ body.1 = Raise e) ∧
    (∀ e, body.1 = Raise e → unauthorized e →
       result = (Return EACCES, (body.2.1, body.2.2 ++ [ETraceback]))) ∧
    (body.1 = Return tt → result = (Return 0, body.2)) ∧
    (∀ mirror_errors,
       body.1 = Raise (NoWorkingMirrorError mirror_errors) →
       (∀ url, (url, DXFUnauthorizedError) ∉ mirror_errors) →
       result = (Raise (NoWorkingMirrorError mirror_errors), body.2)).
Proof.
  intros Hsetup body result.
  assert (result = guarded (_doit ns environ (progress environ isatty) fr) st1)
    as Hresult by (unfold result, doit; by rewrite bind_run, Hsetup).
  destruct (_doit_propagates ns environ (progress environ isatty) fr st1)
    as (tr & Htr & Hprop).
  rewrite Hresult. clear Hresult result. subst body.
  destruct (_doit ns environ (progress environ isatty) fr st1)
    as [r st2] eqn:Hbody.
  exists tr. split; [done|]. simpl in *. split; [done|]. split; [|split].
  - intros e ->. by apply guarded_raise.
  - intros ->. unfold guarded. by rewrite Hbody.
  - intros errs -> Hnone. apply (guarded_raise _ _ _ _ Hbody).
    intros [[=]|(errs' & url & [= <-] & Hin)]. by apply (Hnone url).
Qed.

End Guard.

(** ** The sub-commands one by one *)

Section Commands.
Context `{PyLib} `{!World}.

Lemma set_token_run environ fr st :
  set_token environ fr st = (Return tt, (st.1, st.2 ++ token_events environ fr)).
Proof.
  unfold set_token, token_events. destruct st as [w tr].
  destruct (environ !! "DTUF_TOKEN") as [token|]; simpl;
    [destruct (truthy token); simpl|]; by rewrite ?app_nil_r.
Qed.

Lemma method_calls_token environ fr : method_calls (token_events environ fr) = [].
Proof.
  unfold token_events. destruct (environ !! "DTUF_TOKEN") as [token|]; [|done].
  by destruct (truthy token).
Qed.

(** Lines 106-182 call no method. *)
Lemma setup_quiet ns environ st : no_method_called st (setup ns environ st).2.
Proof.
  assert (emits (fun ev => method_calls [ev] = []) (fun _ => True)
                (setup ns environ)) as Hem.
  { unfold setup, configure_logging, make_objects. repeat emits_step; done. }
  destruct (Hem st) as (tr & Htr & Hquiet & _).
  exists tr. split; [done|]. clear Htr.
  induction Hquiet as [|ev tr Hev _ IH]; [done|].
  change (ev :: tr) with ([ev] ++ tr). by rewrite method_calls_app, Hev, IH.
Qed.

Lemma no_method_called_extend st st1 w tr :
  no_method_called st st1 → method_calls tr = [] →
  no_method_called st (w, st1.2 ++ tr).
Proof.
  intros (tr0 & Htr0 & Hquiet) Htr. exists (tr0 ++ tr). simpl.
  by rewrite Htr0, app_assoc, method_calls_app, Hquiet, Htr.
Qed.

Lemma setup_no_method ns environ st fr st1 :
  setup ns environ st = (Return fr, st1) → no_method_called st st1.
Proof. intros Hrun. pose proof (setup_quiet ns environ st). by rewrite Hrun in *. Qed.

(** A parser error right after the token has been set: nothing else
    happens, and no method has been called since [doit] started. *)
Lemma guarded_parser_error ns environ st fr st1 message (rest : M unit) :
  setup ns environ st = (Return fr, st1) →
  let st2 := (st1.1, st1.2 ++ token_events environ fr) in
  let result :=
    guarded (set_token environ fr;; parser_error (A := unit) message;; rest) st1 in
  result = (Raise (SystemExit 2), (st2.1, st2.2 ++ [EParserError message])) ∧
  no_method_called st result.2.
Proof.
  intros Hsetup st2 result.
  assert (result = (Raise (SystemExit 2),
                    (st2.1, st2.2 ++ [EParserError message]))) as ->.
  { unfold result, guarded. by rewrite bind_run, set_token_run. }
  split; [done|]. simpl. rewrite <- app_assoc.
  apply no_method_called_extend; [by eapply setup_no_method|].
  by rewrite method_calls_app, method_calls_token.
Qed.

(** C6. For push-target, once lines 106-182 have completed and the token
    has been set: with fewer than two positional arguments after the repo
    [doit] fails with the parser error "too few arguments" and no method,
    [push_target] included, is ever called; with a target name and at least
    one source, [push_target] is called on the [DTufMaster] with the first
    argument as the name, the remaining arguments as the sources and
    [progress], and [doit] ends as that call does. *)
Theorem push_target_arguments ns environ isatty st fr st1 :
  op ns = "push-target" →
  setup ns environ st = (Return fr, st1) →
  let st2 := (st1.1, st1.2 ++ token_events environ fr) in
  let result := doit ns environ isatty st in
  ((length (args ns) < 2)%nat →
     result = (Raise (SystemExit 2),
               (st2.1, st2.2 ++ [EParserError "too few arguments"])) ∧
     no_method_called st result.2) ∧
  (∀ target sources,
     args ns = target :: sources → sources ≠ [] →
     result = guarded (do_call (PushTarget DTufMaster target sources
                                  (progress environ isatty))) st2).
Proof.
  intros Hop Hsetup st2 result.
  pose proof (setup_frame _ _ _ _ _ Hsetup) as Hfr. rewrite Hop in Hfr.
  change (frame_for "push-target")
    with (Frame None (Some DTufMaster) None DTufMaster) in Hfr.
  assert (result
          = guarded (set_token environ fr;;
                     when (length (args ns) <? 2)%nat
                       (parser_error "too few arguments");;
                     o ← var "dtuf_master" (dtuf_master fr);
                     target ← item0 (args ns);
                     do_call (PushTarget o target (tail (args ns))
                                (progress environ isatty))) st1) as Hres.
  { unfold result, doit. rewrite bind_run, Hsetup.
    unfold _doit, dispatch. by rewrite Hop. }
  rewrite Hres. clear Hres result. split.
  - intros Hlen. apply Nat.ltb_lt in Hlen. rewrite Hlen. simpl.
    by apply (guarded_parser_error ns environ st fr st1).
  - intros target sources Hargs Hsrc. rewrite Hargs. subst fr.
    destruct sources as [|src sources]; [done|]. simpl.
    unfold guarded. by rewrite !bind_run, set_token_run.
Qed.

(** C9. For del-target, pull-target and blob-sizes with no target name,
    [doit] calls no method of the repository object; once lines 106-182 have
    completed it sets the token if there is one and returns 0 -- there is no
    parser error. *)
Theorem no_targets_is_silent ns environ isatty st :
  op ns ∈ ["del-target"; "pull-target"; "blob-sizes"] →
  args ns = [] →
  let result := doit ns environ isatty st in
  no_method_called st result.2 ∧
  ∀ fr st1, setup ns environ st = (Return fr, st1) →
            result = (Return 0, (st1.1, st1.2 ++ token_events environ fr)).
Proof.
  intros Hop Hargs result.
  assert (∀ fr st1, setup ns environ st = (Return fr, st1) →
            result = (Return 0, (st1.1, st1.2 ++ token_events environ fr)))
    as Hrun.
  { intros fr st1 Hsetup.
    unfold result, doit. rewrite bind_run, Hsetup. unfold guarded.
    repeat (apply elem_of_cons in Hop as [Hop|Hop];
            [unfold _doit, dispatch; rewrite Hop, Hargs; simpl;
             by rewrite bind_run, set_token_run|]).
    by apply elem_of_nil in Hop. }
  split; [|done].
  destruct (setup ns environ st) as [[fr|e] st1] eqn:Hsetup.
  - rewrite (Hrun _ _ eq_refl). simpl.
    apply no_method_called_extend; [by eapply setup_no_method|].
    apply method_calls_token.
  - unfold result, doit. rewrite bind_run, Hsetup. simpl.
    pose proof (setup_quiet ns environ st) as Hquiet. by rewrite Hsetup in Hquiet.
Qed.

Lemma for_each_emit {A} (l : list A) (body : A → M unit) (g : A → event) :
  (∀ x st, body x st = (Return tt, (st.1, st.2 ++ [g x]))) →
  ∀ st, for_each l body st = (Return tt, (st.1, st.2 ++ map g l)).
Proof.
  intros Hbody. induction l as [|x l IH]; intros st; simpl.
  - rewrite app_nil_r. by destruct st.
  - rewrite bind_run, Hbody, IH. simpl. by rewrite <- app_assoc.
Qed.

(** The line printed for an entry of [get_expirations()]. *)
Lemma expirations_loop (expirations : list (string * datetime)) st :
  for_each expirations
    (fun '(role, expiry) => print (role +:+ ": " +:+ isoformat expiry)) st
  = (Return tt,
     (st.1, st.2 ++ map (fun '(role, expiry) =>
                           EPrint (role +:+ ": " +:+ isoformat expiry))
                        expirations)).
Proof. apply for_each_emit. by intros [role expiry] st'. Qed.

(** C7. For get-master-expirations and get-copy-expirations, once lines
    106-182 have completed and the token has been set: without extra
    positional arguments [doit] calls [get_expirations()] on the master,
    respectively the copy, prints one line per entry of the mapping it
    returns -- the role, ": " and the expiry in [isoformat()] -- in the
    mapping's order, and returns 0; with an extra argument it fails with the
    parser error "too many arguments" and no method is ever called. *)
Theorem expirations_printed ns environ isatty st fr st1 :
  op ns = "get-master-expirations" ∨ op ns = "get-copy-expirations" →
  setup ns environ st = (Return fr, st1) →
  let o := if String.eqb (op ns) "get-master-expirations"
           then DTufMaster else DTufCopy in
  let st2 := (st1.1, st1.2 ++ token_events environ fr) in
  let result := doit ns environ isatty st in
  (args ns = [] →
     ∀ expirations w,
       lib_call (GetExpirations o) st1.1 = (Return expirations, w) →
       result = (Return 0,
                 (w, st2.2 ++ ECall (GetExpirations o) None
                       :: map (fun '(role, expiry) =>
                                 EPrint (role +:+ ": " +:+ isoformat expiry))
                              expirations))) ∧
  (args ns ≠ [] →
     result = (Raise (SystemExit 2),
               (st2.1, st2.2 ++ [EParserError "too many arguments"])) ∧
     no_method_called st result.2).
Proof.
  intros Hop Hsetup o st2 result.
  pose proof (setup_frame _ _ _ _ _ Hsetup) as Hfr.
  assert (dtuf_master fr = (if String.eqb (op ns) "get-master-expirations"
                            then Some DTufMaster else None) ∧
          dtuf_copy fr = (if String.eqb (op ns) "get-master-expirations"
                          then None else Some DTufCopy)) as [Hm Hc].
  { rewrite Hfr. by destruct Hop as [-> | ->]. }
  assert (result
          = guarded (set_token environ fr;;
                     when (0 <? length (args ns))%nat
                       (parser_error "too many arguments");;
                     o' ← (if String.eqb (op ns) "get-master-expirations"
                           then var "dtuf_master" (dtuf_master fr)
                           else var "dtuf_copy" (dtuf_copy fr));
                     expirations ← do_call (GetExpirations o');
                     for_each expirations (fun '(role, expiry) =>
                       print (role +:+ ": " +:+ isoformat expiry))) st1)
    as Hres.
  { unfold result, doit. rewrite bind_run, Hsetup. unfold _doit, dispatch.
    by destruct Hop as [-> | ->]. }
  rewrite Hres. clear Hres result. split.
  - intros Hargs expirations w Hcall. rewrite Hargs. simpl.
    unfold guarded. rewrite !bind_run, set_token_run.
    rewrite Hm, Hc. subst o.
    destruct (String.eqb (op ns) "get-master-expirations"); run;
      rewrite (do_call_run _ _ _ _ _ Hcall), expirations_loop; simpl;
      by rewrite <- app_assoc.
  - intros Hargs.
    assert ((0 <? length (args ns))%nat = true) as ->.
    { apply Nat.ltb_lt. destruct (args ns); [done|simpl; lia]. }
    by apply (guarded_parser_error ns environ st fr st1).
Qed.

Lemma print_loop (names : list string) st :
  for_each names print st = (Return tt, (st.1, st.2 ++ map EPrint names)).
Proof. by apply for_each_emit. Qed.

(** C5. For pull-metadata, once lines 106-182 have completed and the token
    has been set: with no positional argument after the repo,
    [pull_metadata] is called on the [DTufCopy] with root public key [None]
    (and [progress]); with the single argument "-", with what
    [sys.stdin.read()] returns; with a single file name, with the bytes read
    from that file decoded as UTF-8; with more than one argument [doit]
    fails with the parser error "too many arguments" and no method is ever
    called. When [pull_metadata] returns, each name it yields is printed by
    one [print], in order, and [doit] returns 0. *)
Theorem pull_metadata_root_key ns environ isatty st fr st1 :
  op ns = "pull-metadata" →
  setup ns environ st = (Return fr, st1) →
  let st2 := (st1.1, st1.2 ++ token_events environ fr) in
  let result := doit ns environ isatty st in
  let pull key :=
    guarded (names ← do_call (PullMetadata DTufCopy key
                                (progress environ isatty));
             for_in names print) in
  (args ns = [] → result = pull None st2) ∧
  (args ns = ["-"] →
     ∀ s w, lib_call StdinRead st1.1 = (Return s, w) →
            result = pull (Some s) (w, st2.2 ++ [ECall StdinRead None])) ∧
  (∀ name, args ns = [name] → name ≠ "-" →
     ∀ b w s, lib_call (FileRead name) st1.1 = (Return b, w) →
              decode_utf8 b = Return s →
              result
              = pull (Some s) (w, st2.2 ++ [ECall (FileRead name) None])) ∧
  ((1 < length (args ns))%nat →
     result = (Raise (SystemExit 2),
               (st2.1, st2.2 ++ [EParserError "too many arguments"])) ∧
     no_method_called st result.2) ∧
  (∀ key w0 tr names w,
     lib_call (PullMetadata DTufCopy key (progress environ isatty)) w0
     = (Return names, w) →
     failure names = None →
     pull key (w0, tr)
     = (Return 0,
        (w, tr ++ ECall (PullMetadata DTufCopy key (progress environ isatty))
                    None :: map EPrint (items names)))).
Proof.
  intros Hop Hsetup st2 result pull.
  pose proof (setup_frame _ _ _ _ _ Hsetup) as Hfr. rewrite Hop in Hfr.
  change (frame_for "pull-metadata")
    with (Frame None None (Some DTufCopy) DTufCopy) in Hfr.
  assert (result
          = guarded
              (set_token environ fr;;
               when (1 <? length (args ns))%nat
                 (parser_error "too many arguments");;
               root_public_key ←
                 (if (length (args ns) =? 1)%nat then
                    a0 ← item0 (args ns);
                    if String.eqb a0 "-" then
                      s ← do_call StdinRead; mret (Some s)
                    else
                      b ← do_call (FileRead a0);
                      s ← lift (decode_utf8 b);
                      mret (Some s)
                  else mret None);
               o ← var "dtuf_copy" (dtuf_copy fr);
               names ← do_call (PullMetadata o root_public_key
                                  (progress environ isatty));
               for_in names print) st1) as Hres.
  { unfold result, doit. rewrite bind_run, Hsetup.
    unfold _doit, dispatch. by rewrite Hop. }
  rewrite Hres. clear Hres result. subst fr pull. repeat split.
  - intros Hargs. rewrite Hargs. unfold guarded.
    by rewrite !bind_run, set_token_run.
  - intros Hargs s w Hcall. rewrite Hargs. unfold guarded.
    rewrite !bind_run, set_token_run. run.
    change (String.eqb "-" "-") with true. cbv iota. run.
    by rewrite (do_call_run _ _ _ _ _ Hcall).
  - intros name Hargs Hname b w s Hcall Hdecode. rewrite Hargs.
    unfold guarded. rewrite !bind_run, set_token_run. run.
    apply String.eqb_neq in Hname. rewrite Hname. run.
    rewrite (do_call_run _ _ _ _ _ Hcall), Hdecode. by run.
  - apply Nat.ltb_lt in H1. rewrite H1.
    by apply (guarded_parser_error ns environ st _ st1).
  - apply Nat.ltb_lt in H1. rewrite H1.
    by apply (guarded_parser_error ns environ st _ st1).
  - intros key w0 tr names w Hcall Hfail. unfold guarded, for_in.
    rewrite bind_run, (do_call_run _ _ _ _ _ Hcall), bind_run, print_loop.
    rewrite Hfail. simpl. by rewrite <- app_assoc.
Qed.

(** Lines 106-182 do not read [DTUF_TOKEN]. *)
Lemma setup_ignores_token ns environ t :
  setup ns (<["DTUF_TOKEN" := t]> environ) = setup ns (delete "DTUF_TOKEN" environ).
Proof.
  unfold setup, configure_logging, make_objects, get_lifetime, environ_item,
    auth, insecure.
  simpl. by rewrite !lookup_insert_ne, !lookup_delete_ne by done.
Qed.

Lemma progress_ignores_token environ t isatty :
  progress (<["DTUF_TOKEN" := t]> environ) isatty
  = progress (delete "DTUF_TOKEN" environ) isatty.
Proof.
  unfold progress, progress_enabled.
  by rewrite !lookup_insert_ne, !lookup_delete_ne by done.
Qed.

Lemma _doit_auth ns environ pr fr :
  op ns = "auth" →
  _doit ns environ pr fr
  = (o ← var "dtuf_master" (dtuf_master fr);
     username ← environ_item environ "DTUF_USERNAME";
     password ← environ_item environ "DTUF_PASSWORD";
     token ← do_call (Authenticate o username password (args ns));
     match token with
     | Some t => when (truthy t) (print t)
     | None => mret tt
     end).
Proof. intros Hop. unfold _doit. by rewrite Hop. Qed.

Lemma _doit_other ns environ pr fr :
  op ns ≠ "auth" →
  _doit ns environ pr fr = (set_token environ fr;; dispatch ns environ pr fr).
Proof. intros Hop%String.eqb_neq. unfold _doit. by rewrite Hop. Qed.

(** C10. For auth the value of [DTUF_TOKEN] makes no difference to the run.
    Once lines 106-182 have completed, [authenticate] is called on the
    [DTufMaster] with [DTUF_USERNAME], [DTUF_PASSWORD] and the positional
    arguments as actions; when it returns, the token is printed if and only
    if it is neither [None] nor empty, and [doit] returns 0 having done
    nothing else. For every other sub-command, a non-empty [DTUF_TOKEN] is
    assigned to the [token] attribute of the object constructed for the
    sub-command, and the sub-command runs after that. *)
Theorem auth_ignores_token ns environ isatty st :
  (op ns = "auth" →
     (∀ t, doit ns (<["DTUF_TOKEN" := t]> environ) isatty st
           = doit ns (delete "DTUF_TOKEN" environ) isatty st) ∧
     ∀ fr st1 username password token w,
       setup ns environ st = (Return fr, st1) →
       environ !! "DTUF_USERNAME" = Some username →
       environ !! "DTUF_PASSWORD" = Some password →
       lib_call (Authenticate DTufMaster username password (args ns)) st1.1
       = (Return token, w) →
       doit ns environ isatty st
       = (Return 0,
          (w, st1.2 ++ ECall (Authenticate DTufMaster username password
                                (args ns)) None
                :: match token with
                   | Some t => if truthy t then [EPrint t] else []
                   | None => []
                   end))) ∧
  (op ns ≠ "auth" →
     ∀ fr st1 token,
       setup ns environ st = (Return fr, st1) →
       environ !! "DTUF_TOKEN" = Some token → token ≠ "" →
       dtuf_obj fr = kind_of (op ns) ∧
       doit ns environ isatty st
       = guarded (dispatch ns environ (progress environ isatty) fr)
           (st1.1, st1.2 ++ [ESetToken (dtuf_obj fr) token])).
Proof.
  split.
  - intros Hop. split.

    + intros t. unfold doit.
      rewrite setup_ignores_token, progress_ignores_token.
      rewrite !bind_run. destruct (setup _ _ st) as [[fr|e] st1]; [|done].
      rewrite !_doit_auth by done. unfold environ_item.
      by rewrite !lookup_insert_ne, !lookup_delete_ne by done.
    + intros fr st1 username password token w Hsetup Hu Hp Hcall.
      pose proof (setup_frame _ _ _ _ _ Hsetup) as Hfr. rewrite Hop in Hfr.
      change (frame_for "auth")
        with (Frame None (Some DTufMaster) None DTufMaster) in Hfr.
      unfold doit. rewrite bind_run, Hsetup, _doit_auth by done.
      unfold guarded. subst fr.
      unfold environ_item. rewrite Hu, Hp. destruct st1 as [w1 tr1].
      simpl in Hcall. run. rewrite (do_call_run _ _ _ _ _ Hcall). simpl.
      destruct token as [t|]; [destruct (truthy t)|]; simpl;
        by rewrite <- ?app_assoc, ?app_nil_r.
  - intros Hop fr st1 token Hsetup Htoken Hne.
    pose proof (setup_frame _ _ _ _ _ Hsetup) as Hfr. split.
    + rewrite Hfr. unfold frame_for. by destruct (kind_of (op ns)).
    + unfold doit. rewrite bind_run, Hsetup, _doit_other by done.
      unfold guarded.
      rewrite bind_run, set_token_run. unfold token_events.
      rewrite Htoken. apply String.eqb_neq in Hne. unfold truthy.
      by rewrite Hne.
Qed.

(** C8. [progress] is the closure exactly when [DTUF_PROGRESS] is "1", or
    it is not "0" (unset included) and standard error is a terminal;
    otherwise it is [None]. Whatever the sub-command, the progress argument
    of every call [doit] makes is that value. *)
Theorem progress_when_enabled environ isatty :
  let enabled :=
    environ !! "DTUF_PROGRESS" = Some "1" ∨
    (environ !! "DTUF_PROGRESS" ≠ Some "0" ∧ isatty = true) in
  (progress environ isatty = Some Progress.progress ↔ enabled) ∧
  (progress environ isatty = None ↔ ¬ enabled) ∧
  ∀ ns st, ∃ tr,
    (doit ns environ isatty st).2.2 = st.2 ++ tr ∧
    ∀ A (c : call A) r p,
      ECall c r ∈ tr → progress_argument c = Some p →
      p = progress environ isatty.
Proof.
  intros enabled.
  assert (progress_enabled environ isatty = true ↔ enabled) as Hen.
  { unfold progress_enabled, enabled.
    rewrite orb_true_iff, andb_true_iff, negb_true_iff.
    rewrite bool_decide_eq_true, bool_decide_eq_false. done. }
  unfold progress. repeat split.
  - destruct (progress_enabled environ isatty); [tauto|done].
  - intros Hena. apply Hen in Hena. by rewrite Hena.
  - destruct (progress_enabled environ isatty); [done|].
    intros _ Hena. by apply Hen in Hena.
  - destruct (progress_enabled environ isatty); [|done].
    intros Hno. destruct Hno. by apply Hen.
  - intros ns st. destruct (doit_emits ns environ isatty st) as (tr & Htr & Hok & _).
    exists tr. split; [done|]. intros A c r p Hin Hp.
    rewrite Forall_forall in Hok. by apply (Hok _ Hin).
Qed.

End Commands.

End CliFacts.

(** * Properties of the trust verifier *)

Module TrustVerifierFacts.
Import TrustVerifier.

Lemma first_failure_none checks :
  first_failure checks = None → Forall (fun c => c = None) checks.
Proof.
  induction checks as [|c checks IH]; simpl; [constructor|].
  destruct c; [done|]. intros Hrest. constructor; [done|by apply IH].
Qed.

Lemma check_monotonic_ok l v : check_monotonic (Some l) v = None → l <= v.
Proof. unfold check_monotonic. case_bool_decide; [done|lia]. Qed.

Lemma check_pinned_ok p v : check_pinned p v = None → v = p.
Proof. unfold check_pinned. by case_bool_decide. Qed.

(** The checks of a fetched document, taken apart. *)
Ltac split_checks H :=
  apply first_failure_none in H;
  repeat match type of H with
         | Forall _ (_ :: _) => apply Forall_cons in H as [? H]
         end;
  repeat match goal with
         | H' : check_monotonic (Some _) _ = None |- _ =>
             apply check_monotonic_ok in H'
         | H' : check_pinned _ _ = None |- _ => apply check_pinned_ok in H'
         end.

#[local] Arguments first_failure : simpl never.
#[local] Arguments check_monotonic : simpl never.
#[local] Arguments check_pinned : simpl never.
#[local] Arguments check_signed : simpl never.

Ltac not_in :=
  let Hin := fresh in
  intros Hin; simpl in Hin;
  repeat (apply elem_of_cons in Hin as [?|Hin]; [done|]);
  by apply elem_of_nil in Hin.

Section Pull.
Variables (c : config) (b : baseline).
Hypothesis Htrusted : trusted c = Some b.

(** A step keeps the invariant. *)
Lemma step_invariant m : invariant c b m → invariant c b (step c m).
Proof.
  destruct m as [ph fs]. unfold invariant, step. simpl.
  rewrite Htrusted. destruct ph as [|r|r ts|r ts sn|r ts sn tg|b' ch|b' ch|e];
    simpl; try done.
  - (* FetchTimestamp *)
    intros ->. destruct (get_timestamp (remote c)) as [d|] eqn:Hd; [|done].
    match goal with
    | |- context [first_failure ?l] => destruct (first_failure l) eqn:Hchecks
    end; simpl; [done|].
    split_checks Hchecks. done.
  - (* FetchSnapshot *)
    intros (Hts & -> & Hmono).
    assert (∀ V v, trusted_version b timestamp = Some V →
              served_version (remote c) timestamp = Some v →
              V <= v ∧ (∀ p, declared_by_parent c b timestamp = Some p → p = v))
      as Hok0.
    { intros V v [= <-] Hv. simpl in Hv.
      rewrite Hts in Hv. injection Hv as <-. done. }
    case_bool_decide as Hsame; simpl.
    + split; [|split; [not_in|split; [not_in|]]].
      * intros r' V v Hin. simpl in Hin.
        apply list_elem_of_singleton in Hin as ->. apply Hok0.
      * rewrite Hts. simpl. by rewrite bool_decide_true.
    + destruct (get_snapshot (remote c)) as [d|] eqn:Hd; [|done].
      match goal with
      | |- context [first_failure ?l] => destruct (first_failure l) eqn:Hchecks
      end; simpl; [done|].
      split_checks Hchecks. split; [|split; [not_in|split; [not_in|]]].
      * intros r' V v Hin. simpl in Hin.
        apply elem_of_cons in Hin as [->|Hin]; [apply Hok0|].
        apply list_elem_of_singleton in Hin as ->.
        intros [= <-]. simpl. rewrite Hd, Hts. simpl.
        intros [= <-]. split; [done|]. by intros p [= <-].
      * rewrite Hts. simpl. by rewrite bool_decide_false.
  - (* FetchTargets *)
    intros (Hok & Hnot & Hroot & Hpin).
    case_bool_decide as Hsame; simpl.
    + intros r' V v Hin. by apply Hok.
    + destruct (get_targets (remote c)) as [d|] eqn:Hd; [|done].
      match goal with
      | |- context [first_failure ?l] => destruct (first_failure l) eqn:Hchecks
      end; simpl; [done|].
      split_checks Hchecks.
      intros r' V v Hin. simpl in Hin.
      apply elem_of_app in Hin as [Hin|Hin]; [by apply Hok|].
      apply list_elem_of_singleton in Hin as ->.
      intros [= <-]. simpl. rewrite Hd. simpl.
      intros [= <-]. split; [done|]. rewrite Hpin. by intros p [= <-].
Qed.

Lemma iter_invariant k m :
  invariant c b m → invariant c b (Nat.iter k (step c) m).
Proof. intros Hm. induction k; simpl; [done|by apply step_invariant]. Qed.

Lemma pull_invariant : invariant c b (pull c).
Proof. by apply iter_invariant. Qed.

(** A pull that is not rejected has only fetched documents that pass. *)
Lemma invariant_fetched_ok m :
  invariant c b m → ¬ rejected m → fetched_ok c b m.
Proof.
  unfold invariant, rejected.
  destruct (phase m) as [|r|r ts|r ts sn|r ts sn tg|b' ch|b' ch|e];
    try done; try tauto.
  - intros Hm _ r' V v Hin. rewrite Hm in Hin. by apply elem_of_nil in Hin.
  - intros Hm _ r' V v Hin. rewrite Hm in Hin. by apply elem_of_nil in Hin.
  - intros (Hts & Hm & Hmono) _ r' V v Hin. rewrite Hm in Hin.
    apply list_elem_of_singleton in Hin as ->. intros [= <-]. simpl.
    rewrite Hts. intros [= <-]. done.
Qed.

End Pull.

Lemma rejected_dec m : Decision (rejected m).
Proof. unfold rejected. destruct (phase m); apply _. Qed.

(** The steps of a pull move forward until a terminal state. *)
Lemma step_rank c m :
  (Nat.min 6 (S (rank (phase m))) <= rank (phase (step c m)))%nat.
Proof.
  destruct m as [ph fs]. unfold step. simpl.
  destruct ph; simpl; repeat case_match; simpl; lia.
Qed.

Lemma iter_rank c k m :
  (Nat.min 6 (k + rank (phase m)) <= rank (phase (Nat.iter k (step c) m)))%nat.
Proof.
  induction k as [|k IH].
  - change (Nat.iter 0 (step c) m) with m. lia.
  - change (Nat.iter (S k) (step c) m) with (step c (Nat.iter k (step c) m)).
    pose proof (step_rank c (Nat.iter k (step c) m)). lia.
Qed.

(** A pull ends in [Trusted] or [Rejected]. *)
Lemma pull_terminates c :
  (∃ b changed, phase (pull c) = Trusted b changed) ∨
  (∃ e, phase (pull c) = Rejected e).
Proof.
  unfold pull.
  pose proof (iter_rank c 6 (Machine BootstrapRoot [])) as Hrank.
  revert Hrank. generalize (Nat.iter 6 (step c) (Machine BootstrapRoot [])).
  intros m. change (rank (phase (Machine BootstrapRoot []))) with 0%nat.
  destruct (phase m); cbn [rank]; intros Hrank; try lia; eauto.
Qed.

(** C1 (spec-modelled). A verifier whose last-trusted version of a role is
    [V] rejects the pull when the document it fetches for that role has a
    version below [V] (rollback), and also when that document has a version
    above [V] and the payload of the referencing parent -- timestamp for
    snapshot, snapshot for targets -- declares a different version. *)
Theorem monotonicity c b r V v :
  trusted c = Some b →
  trusted_version b r = Some V →
  r ∈ fetched (pull c) →
  served_version (remote c) r = Some v →
  (v < V → rejected (pull c)) ∧
  (V < v → ∀ p, declared_by_parent c b r = Some p → p ≠ v →
           rejected (pull c)).
Proof.
  intros Htrusted HV Hin Hv.
  pose proof (pull_invariant c b Htrusted) as Hinv.
  destruct (rejected_dec (pull c)) as [Hrej|Hok]; [done|].
  destruct (invariant_fetched_ok c b _ Hinv Hok r V v Hin HV Hv) as [Hle Hpin].
  split; [lia|]. intros _ p Hp Hne. by destruct (Hpin p Hp).
Qed.

End TrustVerifierFacts.

(** * The theorems at work on the scripted packages *)

Module Examples.
Import Cli CliFacts.

#[local] Existing Instance demo_pylib.
#[local] Existing Instance demo_world.

(** [dtuf del-target repo] *)
Lemma no_targets_is_silent_witness :
  (doit (Build_Namespace "del-target" "repo" []) demo_environ false
        (demo_start LetIn)).1
  = Return 0.
Proof.
  pose (ns := Build_Namespace "del-target" "repo" []).
  assert (op ns ∈ ["del-target"; "pull-target"; "blob-sizes"]) as Hop
    by (simpl; constructor).
  assert (args ns = []) as Hargs by reflexivity.
  assert (setup ns demo_environ (demo_start LetIn)
          = (Return (frame_for (op ns)),
             (setup ns demo_environ (demo_start LetIn)).2))
    as Hsetup by (vm_compute; reflexivity).
  destruct (no_targets_is_silent ns demo_environ false (demo_start LetIn)
              Hop Hargs) as [_ Hrun].
  fold ns. by rewrite (Hrun _ _ Hsetup).
Defined.

(** C2 as stated fails: [dtuf list-copy-targets repo] against a registry
    that asks for credentials. While [list_targets()] is served the package
    calls [auth] back, and the closure calls [authenticate] on the
    [DTufCopy] it is passed: a call on the consumer object that is none of
    the six read operations. *)
Lemma consumer_run_authenticates :
  let ns := Build_Namespace "list-copy-targets" "repo" [] in
  let tr := (doit ns demo_environ false (demo_start Challenge)).2.2 in
  with_callbacks None Challenge tr
  = [ELogFilename "dtuf.log";
     ECall (SetFilehandlerLogLevel 30) None;
     ECall (SetConsoleLogLevel 30) None;
     ECall (NewDTufCopy "registry.example" "repo" None (auth demo_environ)
              false None) None;
     ESetToken DTufCopy "token-0";
     ECall (AuthenticateResponse DTufCopy (Some "alice") (Some "secret")
              "401 Unauthorized") None;
     ECall (ListTargets DTufCopy) None;
     EPrint "v1"; EPrint "v2"] ∧
  (DTufCopy, "authenticate") ∈ method_calls (with_callbacks None Challenge tr) ∧
  "authenticate" ∉ read_operations.
Proof.
  intros ns tr. split; [vm_compute; reflexivity|]. split.
  - vm_compute. by repeat constructor.
  - unfold read_operations. intros Hin.
    repeat (apply elem_of_cons in Hin as [?|Hin]; [done|]).
    by apply elem_of_nil in Hin.
Qed.

(** [dtuf pull-target repo v1] against a registry that asks for
    credentials. *)
Lemma doit_copy_read_only_witness :
  ∃ tr,
    (doit (Build_Namespace "pull-target" "repo" ["v1"]) demo_environ false
          (demo_start Challenge)).2.2 = tr ∧
    Forall (fun km => km.1 = DTufCopy ∧ km.2 ∈ read_operations)
           (method_calls tr) ∧
    Forall (fun km => km.1 = DTufCopy ∧ km.2 ∈ read_operations ∨
                      km.2 = "authenticate")
           (method_calls (with_callbacks None Challenge tr)).
Proof.
  destruct (doit_copy_read_only (Build_Namespace "pull-target" "repo" ["v1"])
              demo_environ false (demo_start Challenge)) as (tr & Htr & Hrest).
  cbv zeta in Hrest. destruct Hrest as (_ & _ & _ & Hcopy).
  destruct (Hcopy eq_refl) as (Hstatements & Hfull & _).
  exists tr. by repeat split.
Defined.

(** [dtuf list-copy-targets repo] against a registry that refuses the
    caller. *)
Lemma doit_access_denied_witness :
  (doit (Build_Namespace "list-copy-targets" "repo" []) demo_environ false
        (demo_start Refuse)).1
  = Return EACCES.
Proof.
  pose (ns := Build_Namespace "list-copy-targets" "repo" []).
  assert (setup ns demo_environ (demo_start Refuse)
          = (Return (frame_for (op ns)),
             (setup ns demo_environ (demo_start Refuse)).2))
    as Hsetup by (vm_compute; reflexivity).
  destruct (doit_access_denied ns demo_environ false (demo_start Refuse) _ _
              Hsetup) as (tr & Htr & Hcall & Hdenied & _).
  assert (tr = [ESetToken DTufCopy "token-0";
                ECall (ListTargets DTufCopy) (Some DXFUnauthorizedError)]) as ->.
  { apply (app_inv_head (setup ns demo_environ (demo_start Refuse)).2.2).
    rewrite <- Htr. vm_compute. reflexivity. }
  destruct (Hcall _ (ListTargets DTufCopy) DXFUnauthorizedError) as [_ Hraise];
    [by repeat constructor|].
  fold ns. rewrite (Hdenied _ Hraise); [done|]. by left.
Defined.

(** [dtuf push-target repo v1 file.bin @v0], and [dtuf push-target repo v1]. *)
Lemma push_target_arguments_witness :
  (∃ st2, doit (Build_Namespace "push-target" "repo" ["v1"; "file.bin"; "@v0"])
               demo_environ false (demo_start LetIn)
          = guarded (do_call (PushTarget DTufMaster "v1" ["file.bin"; "@v0"]
                                None)) st2) ∧
  (doit (Build_Namespace "push-target" "repo" ["v1"]) demo_environ false
        (demo_start LetIn)).1 = Raise (SystemExit 2).
Proof.
  split.
  - pose (ns := Build_Namespace "push-target" "repo" ["v1"; "file.bin"; "@v0"]).
    assert (setup ns demo_environ (demo_start LetIn)
            = (Return (frame_for (op ns)),
               (setup ns demo_environ (demo_start LetIn)).2))
      as Hsetup by (vm_compute; reflexivity).
    destruct (push_target_arguments ns demo_environ false (demo_start LetIn)
                _ _ eq_refl Hsetup) as [_ Hcall].
    eexists. by apply (Hcall "v1" ["file.bin"; "@v0"]).
  - pose (ns := Build_Namespace "push-target" "repo" ["v1"]).
    assert (setup ns demo_environ (demo_start LetIn)
            = (Return (frame_for (op ns)),
               (setup ns demo_environ (demo_start LetIn)).2))
      as Hsetup by (vm_compute; reflexivity).
    destruct (push_target_arguments ns demo_environ false (demo_start LetIn)
                _ _ eq_refl Hsetup) as [Hfew _].
    destruct Hfew as [Hrun _]; [simpl; lia|]. fold ns. by rewrite Hrun.
Defined.

(** [dtuf get-copy-expirations repo] *)
Lemma expirations_printed_witness :
  ∃ tr0,
    doit (Build_Namespace "get-copy-expirations" "repo" []) demo_environ false
         (demo_start LetIn)
    = (Return 0,
       (LetIn, tr0 ++ [ECall (GetExpirations DTufCopy) None;
                       EPrint "root: 2026-01-01T00:00:10";
                       EPrint "targets: 2026-01-01T00:00:20";
                       EPrint "snapshot: 2026-01-01T00:00:30";
                       EPrint "timestamp: 2026-01-01T00:00:40"])).
Proof.
  pose (ns := Build_Namespace "get-copy-expirations" "repo" []).
  assert (setup ns demo_environ (demo_start LetIn)
          = (Return (frame_for (op ns)),
             (setup ns demo_environ (demo_start LetIn)).2))
    as Hsetup by (vm_compute; reflexivity).
  destruct (expirations_printed ns demo_environ false (demo_start LetIn)
              _ _ (or_intror eq_refl) Hsetup) as [Hrun _].
  eexists. fold ns. by rewrite (Hrun eq_refl _ _ eq_refl).
Defined.

(** [dtuf pull-metadata repo -] *)
Lemma pull_metadata_root_key_witness :
  ∃ tr0,
    doit (Build_Namespace "pull-metadata" "repo" ["-"]) demo_environ false
         (demo_start LetIn)
    = (Return 0,
       (LetIn, tr0 ++ ECall (PullMetadata DTufCopy (Some "ROOT-KEY") None) None
                   :: map EPrint ["v1"])).
Proof.
  pose (ns := Build_Namespace "pull-metadata" "repo" ["-"]).
  assert (setup ns demo_environ (demo_start LetIn)
          = (Return (frame_for (op ns)),
             (setup ns demo_environ (demo_start LetIn)).2))
    as Hsetup by (vm_compute; reflexivity).
  destruct (pull_metadata_root_key ns demo_environ false (demo_start LetIn)
              _ _ eq_refl Hsetup) as (_ & Hstdin & _ & _ & Hpull).
  eexists. fold ns. rewrite (Hstdin eq_refl "ROOT-KEY" LetIn eq_refl).
  by apply (Hpull (Some "ROOT-KEY") LetIn _ (Iter ["v1"] None) LetIn).
Defined.

(** [DTUF_PROGRESS] unset with a terminal, and [DTUF_PROGRESS=0]. *)
Lemma progress_when_enabled_witness :
  progress demo_environ true = Some Progress.progress ∧
  progress (<["DTUF_PROGRESS" := "0"]> demo_environ) true = None.
Proof.
  split.
  - apply (progress_when_enabled demo_environ true). right. by split.
  - apply (progress_when_enabled (<["DTUF_PROGRESS" := "0"]> demo_environ) true).
    intros [Hone|[Hzero _]]; [done|]. by apply Hzero.
Defined.

(** [dtuf auth repo pull], and [dtuf list-master-targets repo]. *)
Lemma auth_ignores_token_witness :
  doit (Build_Namespace "auth" "repo" ["pull"])
       (<["DTUF_TOKEN" := "token-9"]> demo_environ) false (demo_start LetIn)
  = doit (Build_Namespace "auth" "repo" ["pull"])
         (delete "DTUF_TOKEN" demo_environ) false (demo_start LetIn) ∧
  (∃ tr0, doit (Build_Namespace "auth" "repo" ["pull"]) demo_environ false
               (demo_start LetIn)
          = (Return 0,
             (LetIn, tr0 ++ [ECall (Authenticate DTufMaster "alice" "secret"
                                      ["pull"]) None;
                             EPrint "token-1"]))) ∧
  (∃ st1, doit (Build_Namespace "list-master-targets" "repo" []) demo_environ
               false (demo_start LetIn)
          = guarded (dispatch (Build_Namespace "list-master-targets" "repo" [])
                       demo_environ None (frame_for "list-master-targets"))
              (LetIn, st1 ++ [ESetToken DTufMaster "token-0"])).
Proof.
  pose (ns := Build_Namespace "auth" "repo" ["pull"]).
  destruct (auth_ignores_token ns demo_environ false (demo_start LetIn))
    as [Hauth _].
  destruct (Hauth eq_refl) as [Hsame Hrun]. split; [apply Hsame|]. split.
  - assert (setup ns demo_environ (demo_start LetIn)
            = (Return (frame_for (op ns)),
               (setup ns demo_environ (demo_start LetIn)).2))
      as Hsetup by (vm_compute; reflexivity).
    eexists. fold ns.
    by rewrite (Hrun _ _ "alice" "secret" (Some "token-1") LetIn Hsetup
                  eq_refl eq_refl eq_refl).
  - pose (ns' := Build_Namespace "list-master-targets" "repo" []).
    destruct (auth_ignores_token ns' demo_environ false (demo_start LetIn))
      as [_ Hother].
    assert (setup ns' demo_environ (demo_start LetIn)
            = (Return (frame_for (op ns')),
               (setup ns' demo_environ (demo_start LetIn)).2))
      as Hsetup by (vm_compute; reflexivity).
    destruct (Hother ltac:(done) _ _ "token-0" Hsetup eq_refl ltac:(done))
      as [_ Hrun'].
    eexists. fold ns'. by rewrite Hrun'.
Defined.

End Examples.

(** * The verifier at work on the small repository *)

Module TrustExamples.
Import TrustVerifier TrustVerifierFacts.

(** A consistent newer chain is trusted, and the changed target is
    reported. *)
Example pull_newer_chain :
  phase (pull (demo_config (demo_registry 6 5 5 4 4)))
  = Trusted
      (Baseline (b_root demo_baseline)
         (Document 6 1000 [("k-timestamp", true)] 5)
         (Document 5 1000 [("k-snapshot", true)] 4)
         (Document 4 1000 [("k-targets", true)] (demo_targets "sha256:bb")))
      ["v1"].
Proof. vm_compute. reflexivity. Qed.

(** An unchanged timestamp fetches nothing more. *)
Example pull_unchanged :
  fetched (pull (demo_config (demo_registry 5 4 9 9 9))) = [timestamp].
Proof. vm_compute. reflexivity. Qed.

(** A replayed timestamp (3 after 5), and a snapshot 6 under a timestamp
    that declares 5. *)
Lemma monotonicity_witness :
  rejected (pull (demo_config (demo_registry 3 4 4 3 3))) ∧
  rejected (pull (demo_config (demo_registry 6 5 6 3 3))).
Proof.
  split.
  - assert (timestamp ∈ fetched (pull (demo_config (demo_registry 3 4 4 3 3))))
      as Hin by (vm_compute; by repeat constructor).
    assert (3 < 5) as Hlt by lia.
    exact (proj1 (monotonicity (demo_config (demo_registry 3 4 4 3 3))
                    demo_baseline timestamp 5 3 eq_refl eq_refl Hin eq_refl)
                 Hlt).
  - assert (snapshot ∈ fetched (pull (demo_config (demo_registry 6 5 6 3 3))))
      as Hin by (vm_compute; by repeat constructor).
    assert (4 < 6) as Hlt by lia.
    assert (5 ≠ 6) as Hne by lia.
    exact (proj2 (monotonicity (demo_config (demo_registry 6 5 6 3 3))
                    demo_baseline snapshot 4 6 eq_refl eq_refl Hin eq_refl)
                 Hlt 5 eq_refl Hne).
Defined.

End TrustExamples.

(** * More properties of the progress closure *)

Module ProgressMore.
Import Progress ProgressFacts ProgressInvariants.

Lemma bump_desc c b : desc (bump c b) = desc b.
Proof. unfold bump. by case_bool_decide. Qed.

Lemma bump_leave c b : leave (bump c b) = leave b.
Proof. unfold bump. by case_bool_decide. Qed.

(** The last [if] of the closure, on the bar of [d]. *)
Lemma consistent_finish d i b0 b st :
  wf st → no_leak st →
  (∀ j d' b', j ≠ i → heap st !! j = Some (d', b') → bar_ok d' b') →
  bars st !! d = Some i → heap st !! i = Some (d, b0) →
  closed b = false → desc b = dgst_prefix d → leave b = true → 0 <= n b →
  consistent (finish d i b st).
Proof.
  intros Hwf Hleak Hbars Hd Hi Hc Hdesc Hleave Hn.
  assert (i < length (heap st))%nat as Hlt by (by eapply lookup_lt_Some).
  split; [by eapply wf_finish|]. unfold finish.
  case_bool_decide as Hfull; split; simpl.
  - intros j d' b' Hj Hopen. simpl in *. destruct (decide (i = j)) as [<-|Hij].
    + rewrite list_lookup_insert_eq in Hj by done. by inversion Hj; subst.
    + rewrite list_lookup_insert_ne in Hj by done.
      pose proof (Hleak _ _ _ Hj Hopen) as Hb.
      rewrite lookup_delete_ne; [done|]. intros <-. congruence.
  - intros j d' b' Hj. simpl in *. destruct (decide (i = j)) as [<-|Hij].
    + rewrite list_lookup_insert_eq in Hj by done. inversion Hj; subst.
      by repeat split.
    + rewrite list_lookup_insert_ne in Hj by done. eauto.
  - intros j d' b' Hj Hopen. simpl in *. destruct (decide (i = j)) as [<-|Hij].
    + rewrite list_lookup_insert_eq in Hj by done. by inversion Hj; subst.
    + rewrite list_lookup_insert_ne in Hj by done. eauto.
  - intros j d' b' Hj. simpl in *. destruct (decide (i = j)) as [<-|Hij].
    + rewrite list_lookup_insert_eq in Hj by done. inversion Hj; subst.
      repeat split; try done. intros _. lia.
    + rewrite list_lookup_insert_ne in Hj by done. eauto.
Qed.

(** One invocation keeps the state consistent and never fails. *)
Lemma progress_consistent d c sz st :
  consistent st → ∃ st', progress d c sz st = Some st' ∧ consistent st'.
Proof.
  intros (Hwf & Hleak & Hbars). destruct (bars st !! d) as [i|] eqn:Hd.
  - destruct (Hwf _ _ Hd) as (b & Hb & Hc).
    destruct (Hbars _ _ _ Hb) as (Hdesc & Hleave & Hn & _).
    eexists. split; [by apply progress_known|].
    eapply consistent_finish; eauto.
    + by rewrite bump_closed.
    + by rewrite bump_desc.
    + by rewrite bump_leave.
    + rewrite bump_n. lia.
  - eexists. split; [by apply progress_fresh|].
    eapply (consistent_finish d (length (heap st))
              (tqdm_new (dgst_prefix d) sz)).
    + by apply wf_opened.
    + intros j d' b' Hj Hopen. unfold opened in *. simpl in *.
      apply lookup_app_Some in Hj as [Hj|[Hge Hj]].
      * pose proof (Hleak _ _ _ Hj Hopen) as Hb.
        rewrite lookup_insert_ne; [done|]. intros <-. congruence.
      * apply list_lookup_singleton_Some in Hj as [Hz [= <- <-]].
        rewrite lookup_insert_eq. f_equal. lia.
    + intros j d' b' Hne Hj. unfold opened in Hj. simpl in Hj.
      apply lookup_app_Some in Hj as [Hj|[Hge Hj]]; [eauto|].
      apply list_lookup_singleton_Some in Hj as [Hz _]. lia.
    + apply lookup_insert_eq.
    + unfold opened. simpl. by rewrite lookup_app_r, Nat.sub_diag.
    + by rewrite bump_closed.
    + by rewrite bump_desc.
    + by rewrite bump_leave.
    + rewrite bump_n. simpl. lia.
Qed.

(** Every reachable state is well-formed. *)
Lemma reachable_wf (cs : list pcall) :
  ∃ st, run cs init = Some st ∧ wf st.
Proof.
  assert (wf init) as Hinit by (by intros d i Hi).
  revert Hinit. generalize init. induction cs as [|c cs IH]; intros st Hst.
  - by exists st.
  - simpl. destruct (progress_wf (pc_dgst c) (pc_chunk c) (pc_size c) st Hst)
      as (st1 & -> & Hst1 & _). simpl. by apply IH.
Qed.

(** X1. Whatever the library passes to the closure, in whatever order and
    with whatever sizes, starting from [bars = {}]: no [bars[dgst]]
    subscript ever raises [KeyError]; afterwards every entry of [bars] is an
    open tqdm object created for its key, every open tqdm object is the
    entry of its digest (none is leaked), and every object has description
    [dgst[0:8]], [leave=True], a count that is not negative and, while it is
    open, below its total. *)
Theorem progress_always_consistent (cs : list pcall) :
  ∃ st, run cs init = Some st ∧ consistent st.
Proof.
  assert (consistent init) as Hinit.
  { split; [by intros d i Hi|]. split; [by intros i d b Hi|by intros i d b Hi]. }
  revert Hinit. generalize init. induction cs as [|c cs IH]; intros st Hst.
  - by exists st.
  - simpl. destruct (progress_consistent (pc_dgst c) (pc_chunk c) (pc_size c)
                       st Hst) as (st1 & -> & Hst1). simpl. by apply IH.
Qed.

(** X2. A digest whose declared size is zero (or negative) and that has no
    bar: one invocation, with any chunk, creates the tqdm object, closes it
    and drops it again -- [bars] has no entry for the digest afterwards and
    the new object, at the end of the store, is closed. *)
Theorem progress_empty_blob d c sz st :
  bars st !! d = None → sz <= 0 →
  ∃ st' b,
    progress d c sz st = Some st' ∧
    bars st' !! d = None ∧
    heap st' !! length (heap st) = Some (d, b) ∧
    closed b = true ∧ total b = sz ∧ n b = Z.of_nat (length c) ∧
    ∀ j, j ≠ length (heap st) → heap st' !! j = heap st !! j.
Proof.
  intros Hnone Hsz.
  set (b := bump c (tqdm_new (dgst_prefix d) sz)).
  exists (finish d (length (heap st)) b (opened d sz st)), (tqdm_close b).
  split; [by apply progress_fresh|].
  unfold finish. pose proof (bump_n c (tqdm_new (dgst_prefix d) sz)) as Hn.
  pose proof (bump_total c (tqdm_new (dgst_prefix d) sz)) as Ht.
  fold b in Hn, Ht. simpl in Hn, Ht.
  rewrite bool_decide_true by lia. simpl. split; [apply lookup_delete_eq|].
  split.
  { apply list_lookup_insert_eq. rewrite length_app. simpl. lia. }
  repeat split; try done.
  intros j Hj. rewrite list_lookup_insert_ne by done.
  destruct (decide (j < length (heap st))%nat) as [Hlt|Hge].
  - by rewrite lookup_app_l.
  - rewrite !lookup_ge_None_2; [done|lia|rewrite length_app; simpl; lia].
Qed.

Lemma progress_empty_blob_witness :
  ∃ st' b,
    progress "sha256:e3b0" [] 0 init = Some st' ∧
    bars st' !! "sha256:e3b0" = None ∧
    heap st' !! 0%nat = Some ("sha256:e3b0", b) ∧
    closed b = true ∧ total b = 0 ∧ n b = 0 ∧
    ∀ j, j ≠ 0%nat → heap st' !! j = heap init !! j.
Proof. by apply (progress_empty_blob "sha256:e3b0" [] 0 init). Defined.

(** X3. After any sequence of invocations, one more invocation for a
    digest leaves every other digest alone: its entry in [bars] and every
    tqdm object created for it are what they were. *)
Theorem progress_leaves_other_digests (cs : list pcall) d c sz d' :
  d' ≠ d →
  ∃ st st',
    run cs init = Some st ∧
    run (cs ++ [PCall d c sz]) init = Some st' ∧
    bars st' !! d' = bars st !! d' ∧
    ∀ j b, heap st' !! j = Some (d', b) ↔ heap st !! j = Some (d', b).
Proof.
  intros Hne.
  destruct (reachable_wf cs) as (st & Hrun & Hwf).
  destruct (progress_wf d c sz st Hwf) as (st' & Hstep & _ & Hview).
  exists st, st'. split; [done|]. split.
  - rewrite run_app, Hrun. simpl. by rewrite Hstep.
  - by apply Hview.
Qed.

Lemma progress_leaves_other_digests_witness :
  ∃ st st',
    run [PCall "sha256:77e0" ["x"%byte] 5] init = Some st ∧
    run ([PCall "sha256:77e0" ["x"%byte] 5] ++ [PCall "sha256:4f2a" [] 3]) init
    = Some st' ∧
    bars st' !! "sha256:77e0" = bars st !! "sha256:77e0" ∧
    ∀ j b, heap st' !! j = Some ("sha256:77e0", b)
           ↔ heap st !! j = Some ("sha256:77e0", b).
Proof.
  by apply (progress_leaves_other_digests
              [PCall "sha256:77e0" ["x"%byte] 5] "sha256:4f2a" [] 3
              "sha256:77e0").
Defined.

(** While the count of [d] stays below [s], a bar that exists stays, and an
    invocation for [d] makes one. *)
Lemma run_keeps_bar d s cs : ∀ k st,
  tracked d s k st →
  Forall (fun c => pc_dgst c = d → pc_size c = s) cs →
  k + reported d cs < s →
  is_Some (bars st !! d) ∨ Exists (fun c => pc_dgst c = d) cs →
  ∃ st', run cs st = Some st' ∧ tracked d s (k + reported d cs) st' ∧
         is_Some (bars st' !! d).
Proof.
  induction cs as [|c cs IH]; intros k st Htr Hsz Hlt Hbar; simpl in *.
  - exists st. rewrite Z.add_0_r. split; [done|]. split; [done|].
    destruct Hbar as [?|Hex]; [done|]. by apply Exists_nil in Hex.
  - apply Forall_cons in Hsz as [Hc Hsz].
    pose proof (reported_nonneg d cs) as Hnn.
    case_bool_decide as Hd.
    + destruct c as [d' c sz]. simpl in *. subst d'. rewrite (Hc eq_refl).
      destruct (progress_same d s k c st Htr) as (st1 & Hstep & Hst1).
      rewrite bool_decide_false in Hst1 by lia. rewrite Hstep. simpl.
      assert (is_Some (bars st1 !! d)) as Hbar1.
      { destruct Htr as [Hwf Hview].
        destruct (bars st !! d) as [i|] eqn:Hi.
        - destruct (Hwf _ _ Hi) as (b & Hb & _).
          rewrite (progress_known _ _ _ _ _ _ Hi Hb) in Hstep.
          injection Hstep as <-. unfold finish.
          case_bool_decide as Hfull; simpl; [|by rewrite Hi].
          destruct Hview as [(? & _)|(i' & b' & Hi' & Hb' & Hn & Ht & _)];
            [done|].
          assert (b' = b) as -> by congruence.
          rewrite bump_n, bump_total in Hfull. lia.
        - rewrite (progress_fresh _ _ _ _ Hi) in Hstep.
          injection Hstep as <-. unfold finish.
          case_bool_decide as Hfull; simpl; [|by rewrite lookup_insert_eq].
          destruct Hview as [(_ & -> & _)|(i' & b' & Hi' & _)]; [|congruence].
          rewrite bump_n, bump_total in Hfull. simpl in Hfull. lia. }
      destruct (IH _ _ Hst1 Hsz) as (st' & Hrun & Htr' & Hbar');
        [lia|by left|].
      exists st'. by rewrite Z.add_assoc.
    + destruct (progress_wf (pc_dgst c) (pc_chunk c) (pc_size c) st (proj1 Htr))
        as (st1 & -> & Hwf1 & Hview). simpl.
      destruct (Hview d (not_eq_sym Hd)) as [Hb Hh].
      apply IH; [|done|done|].
      * eapply tracked_same_view; eauto.
      * destruct Hbar as [Hbar|Hex]; [left; by rewrite Hb|].
        apply Exists_cons in Hex as [?|?]; [done|by right].
Qed.

(** X4. The bar shows the bytes reported so far: after any sequence of
    invocations in which those for [d] all carry the size [s], there is at
    least one of them, and their chunks add up to less than [s], [bars] holds
    an open tqdm object for [d] whose count is that sum and whose total is
    [s]. *)
Theorem progress_counts_bytes d s (cs : list pcall) :
  Forall (fun c => pc_dgst c = d → pc_size c = s) cs →
  Exists (fun c => pc_dgst c = d) cs →
  reported d cs < s →
  ∃ st i b,
    run cs init = Some st ∧
    bars st !! d = Some i ∧ heap st !! i = Some (d, b) ∧
    closed b = false ∧ n b = reported d cs ∧ total b = s.
Proof.
  intros Hsz Hex Hlt.
  destruct (run_keeps_bar d s cs 0 init (tracked_init d s) Hsz)
    as (st & Hrun & [Hwf Hview] & [i Hi]); [lia|by right|].
  destruct Hview as [(Hnone & _)|(i' & b & Hi' & Hb & Hn & Ht & _)];
    [congruence|].
  assert (i' = i) as -> by congruence.
  destruct (Hwf _ _ Hi) as (b' & Hb' & Hc).
  assert (b' = b) as -> by congruence.
  exists st, i, b. by repeat split.
Qed.

Lemma progress_counts_bytes_witness :
  ∃ st i b,
    run [PCall "sha256:4f2a" [] 10; PCall "sha256:77e0" ["x"%byte] 1;
         PCall "sha256:4f2a" ["a"%byte; "b"%byte] 10;
         PCall "sha256:4f2a" ["c"%byte] 10] init = Some st ∧
    bars st !! "sha256:4f2a" = Some i ∧
    heap st !! i = Some ("sha256:4f2a", b) ∧
    closed b = false ∧ n b = 3 ∧ total b = 10.
Proof.
  apply (progress_counts_bytes "sha256:4f2a" 10).
  - repeat constructor; simpl; done.
  - by constructor.
  - by vm_compute.
Defined.

End ProgressMore.

(** * More properties of [doit] *)

Module MainFacts.
Import Cli CliFacts Main.

Section Environment.
Context `{PyLib} `{!World}.

(** Rewriting the lookups of one environment into those of another that
    agrees with it on the documented variables. *)
Ltac agree Hagree :=
  cbv beta zeta; cbn [String.append];
  repeat match goal with
         | |- context [?e !! ?k] =>
             lazymatch type of Hagree with
             | forall k', _ -> e !! k' = _ =>
                 rewrite (Hagree k) by (apply str_in_elem; reflexivity)
             end
         end.

(** X5. [doit] depends on the environment only through the variables the
    header of [main.py] documents: two environments that agree on them give
    the same run, whatever else they hold. *)
Theorem doit_reads_documented_variables ns environ environ' isatty :
  (∀ k, k ∈ documented_variables → environ !! k = environ' !! k) →
  doit ns environ isatty = doit ns environ' isatty.
Proof.
  intros Hagree.
  unfold doit, setup, configure_logging, make_objects, progress,
    progress_enabled, _doit, dispatch, set_token.
  unfold get_lifetime, environ_item, auth, insecure.
  agree Hagree. reflexivity.
Qed.

(** X6. Without [DTUF_HOST], whatever the sub-command: once the logs are
    configured, [doit] raises [KeyError('DTUF_HOST')] -- it is not caught --
    and nothing else has happened: no lifetime is parsed, no object is
    constructed, no method is called. *)
Theorem doit_without_host ns environ isatty st st0 :
  environ !! "DTUF_HOST" = None →
  configure_logging environ st = (Return tt, st0) →
  doit ns environ isatty st = (Raise (KeyError "DTUF_HOST"), st0).
Proof.
  intros Hhost Hlog. unfold doit, setup. rewrite !bind_run, Hlog.
  unfold make_objects, environ_item.
  destruct (String.eqb (op ns) "list-repos");
    [|destruct (str_in (op ns) master_ops)];
    by rewrite bind_run, Hhost.
Qed.

(** X7. Only the master sub-commands read the metadata lifetimes: for
    list-repos and the consumer sub-commands, two environments that agree on
    the documented variables other than the four [DTUF_*_LIFETIME] give the
    same run -- a lifetime that cannot be parsed does them no harm. *)
Theorem lifetimes_only_for_master ns environ environ' isatty :
  str_in (op ns) master_ops = false →
  (∀ k, k ∈ documented_variables → k ∉ lifetime_variables →
        environ !! k = environ' !! k) →
  doit ns environ isatty = doit ns environ' isatty.
Proof.
  intros Hop Hagree.
  assert (∀ k, str_in k documented_variables = true →
               str_in k lifetime_variables = false →
               environ !! k = environ' !! k) as Hagree'.
  { intros k Hk Hl. apply Hagree; [by apply str_in_elem|].
    intros Hin%str_in_elem. congruence. }
  clear Hagree.
  unfold doit, setup, configure_logging, make_objects, progress,
    progress_enabled, _doit, dispatch, set_token.
  rewrite Hop. unfold environ_item, auth, insecure.
  cbv beta zeta.
  repeat match goal with
         | |- context [environ !! ?k] =>
             rewrite (Hagree' k) by reflexivity
         end.
  reflexivity.
Qed.

(** X8. For a master sub-command with [DTUF_HOST] set, a [DTUF_ROOT_LIFETIME]
    that [timedelta(seconds=pytimeparse.parse(...))] rejects -- in particular
    one [pytimeparse] cannot parse, for which [parse] returns [None] -- stops
    [doit] with that exception right after the logs are configured: no
    [DTufMaster] is constructed and no method is called. *)
Theorem bad_lifetime_stops_master ns environ isatty st st0 host lifetime e :
  str_in (op ns) master_ops = true →
  environ !! "DTUF_HOST" = Some host →
  environ !! "DTUF_ROOT_LIFETIME" = Some lifetime →
  timedelta_seconds (pytimeparse_parse lifetime) = Raise e →
  configure_logging environ st = (Return tt, st0) →
  doit ns environ isatty st = (Raise e, st0).
Proof.
  intros Hop Hhost Hlife Hbad Hlog. unfold doit, setup.
  rewrite !bind_run, Hlog. unfold make_objects.
  assert (String.eqb (op ns) "list-repos" = false) as ->.
  { apply String.eqb_neq. intros Heq. by rewrite Heq in Hop. }
  rewrite Hop. unfold environ_item, get_lifetime.
  change ("DTUF_" +:+ "ROOT" +:+ "_LIFETIME") with "DTUF_ROOT_LIFETIME".
  rewrite Hhost, Hlife, Hbad. by run.
Qed.

(** X9. An empty [DTUF_TOKEN] is the same as none, for every sub-command. *)
Theorem empty_token_is_no_token ns environ isatty :
  doit ns (<["DTUF_TOKEN" := ""]> environ) isatty
  = doit ns (delete "DTUF_TOKEN" environ) isatty.
Proof.
  unfold doit, setup, configure_logging, make_objects, progress,
    progress_enabled, _doit, dispatch, set_token.
  unfold get_lifetime, environ_item, auth, insecure.
  cbv beta zeta. cbn [String.append].
  rewrite lookup_insert_eq, lookup_delete_eq.
  by rewrite !lookup_insert_ne, !lookup_delete_ne by done.
Qed.

End Environment.

Section Branches.
Context `{PyLib} `{!World}.

(** X10. create-root-key, create-metadata-keys, create-metadata, reset-keys,
    push-metadata, list-master-targets and list-copy-targets take no
    positional argument after the repo: with one, once lines 106-182 have
    completed and the token has been set, [doit] fails with the parser error
    "too many arguments" and no method has been called. *)
Theorem extra_arguments_rejected ns environ isatty st fr st1 :
  op ns ∈ no_argument_ops →
  args ns ≠ [] →
  setup ns environ st = (Return fr, st1) →
  let st2 := (st1.1, st1.2 ++ token_events environ fr) in
  let result := doit ns environ isatty st in
  result = (Raise (SystemExit 2),
            (st2.1, st2.2 ++ [EParserError "too many arguments"])) ∧
  no_method_called st result.2.
Proof.
  intros Hop Hargs Hsetup st2 result.
  assert ((0 <? length (args ns))%nat = true) as Hlen.
  { apply Nat.ltb_lt. destruct (args ns); [done|simpl; lia]. }
  unfold result, doit. rewrite bind_run, Hsetup.
  unfold no_argument_ops in Hop.
  repeat (apply elem_of_cons in Hop as [Hop|Hop];
          [unfold _doit, dispatch; rewrite Hop, Hlen;
           by apply (guarded_parser_error ns environ st fr st1)|]).
  by apply elem_of_nil in Hop.
Qed.

(** X11. For auth, once lines 106-182 have completed: without
    [DTUF_USERNAME], [doit] raises [KeyError('DTUF_USERNAME')]; with it but
    without [DTUF_PASSWORD], [KeyError('DTUF_PASSWORD')]. Either way
    [authenticate] is not called and nothing is printed. *)
Theorem auth_needs_credentials ns environ isatty st fr st1 :
  op ns = "auth" →
  setup ns environ st = (Return fr, st1) →
  (environ !! "DTUF_USERNAME" = None →
     doit ns environ isatty st = (Raise (KeyError "DTUF_USERNAME"), st1)) ∧
  (is_Some (environ !! "DTUF_USERNAME") →
     environ !! "DTUF_PASSWORD" = None →
     doit ns environ isatty st = (Raise (KeyError "DTUF_PASSWORD"), st1)).
Proof.
  intros Hop Hsetup.
  pose proof (setup_frame _ _ _ _ _ Hsetup) as Hfr. rewrite Hop in Hfr.
  change (frame_for "auth")
    with (Frame None (Some DTufMaster) None DTufMaster) in Hfr. subst fr.
  unfold doit. rewrite bind_run, Hsetup, _doit_auth by done.
  unfold guarded, environ_item. split.
  - intros ->. by run.
  - intros [u ->] ->. by run.
Qed.

Lemma get_lifetime_run environ role st :
  ∃ r, get_lifetime environ role st = (r, st).
Proof.
  unfold get_lifetime. destruct (environ !! _); [|by eexists].
  rewrite bind_run. unfold lift.
  destruct (timedelta_seconds _); by eexists.
Qed.

(** When lines 148-182 complete they have made one call, the constructor
    call, which hands [auth] to the package. *)
Lemma make_objects_constructs ns environ st fr st1 :
  make_objects ns environ st = (Return fr, st1) →
  ∃ c : call unit,
    handed c = Some (auth environ) ∧
    st1 = ((lib_call c st.1).2, st.2 ++ [ECall c None]).
Proof.
  unfold make_objects.
  destruct (String.eqb (op ns) "list-repos");
    [|destruct (str_in (op ns) master_ops)];
    rewrite bind_run; unfold environ_item;
    (destruct (environ !! "DTUF_HOST") as [host|]; [|done]);
    rewrite ret_run.
  2:{ repeat (rewrite bind_run;
              match goal with
              | |- context [get_lifetime environ ?role st] =>
                  destruct (get_lifetime_run environ role st) as [[?|?] ->];
                  [|done]
              end).
      rewrite bind_run. unfold do_call.
      destruct (lib_call _ st.1) as [[[]|e] w] eqn:Hcall; [|done].
      rewrite ret_run. intros [= <- <-].
      match type of Hcall with lib_call ?c _ = _ => exists c end.
      split; [reflexivity|]. by rewrite Hcall. }
  all: rewrite bind_run; unfold do_call;
    destruct (lib_call _ st.1) as [[[]|e] w] eqn:Hcall; [|done];
    rewrite ret_run; intros [= <- <-];
    match type of Hcall with lib_call ?c _ = _ => exists c end;
    (split; [reflexivity|]); by rewrite Hcall.
Qed.

(** The calls of lines 107-120 hand the package nothing, and the events
    after them are served from the state they leave. *)
Lemma configure_logging_callbacks environ st st0 :
  configure_logging environ st = (Return tt, st0) →
  ∃ tr, st0.2 = st.2 ++ tr ∧
        with_callbacks None st.1 tr = tr ∧
        ∀ rest, with_callbacks None st.1 (tr ++ rest)
                = tr ++ with_callbacks None st0.1 rest.
Proof.
  unfold configure_logging. destruct st as [w tr0].
  set (file_level := default "WARNING" (environ !! "DTUF_FILE_LOG_LEVEL")).
  set (console_level :=
         default "WARNING" (environ !! "DTUF_CONSOLE_LOG_LEVEL")).
  destruct (truthy _).
  - rewrite !bind_run. cbn [emit fst snd].
    destruct (logging_getattr file_level) as [l1|]; [|by rewrite ?bind_run].
    destruct (lib_call (SetFilehandlerLogLevel l1) w) as [[[]|e] w1] eqn:H1;
      rewrite ?bind_run, (do_call_run _ _ _ _ _ H1); [|done].
    destruct (logging_getattr console_level) as [l2|]; [|by rewrite ?bind_run].
    destruct (lib_call (SetConsoleLogLevel l2) w1) as [[[]|e] w2] eqn:H2;
      rewrite ?bind_run, (do_call_run _ _ _ _ _ H2); [|done].
    intros [= <-]. eexists. split; [by rewrite <- !app_assoc|].
    simpl. rewrite H1. simpl. rewrite H2. by split.
  - rewrite !bind_run. cbn [emit fst snd]. rewrite ?ret_run.
    destruct (logging_getattr console_level) as [l2|]; [|by rewrite ?bind_run].
    destruct (lib_call (SetConsoleLogLevel l2) w) as [[[]|e] w2] eqn:H2;
      rewrite bind_run, ret_run, (do_call_run _ _ _ _ _ H2); [|done].
    intros [= <-]. eexists. split; [by rewrite <- !app_assoc|].
    simpl. rewrite H2. by split.
Qed.

Lemma with_callbacks_token held w environ fr rest :
  with_callbacks held w (token_events environ fr ++ rest)
  = token_events environ fr ++ with_callbacks held w rest.
Proof.
  unfold token_events. destruct (environ !! "DTUF_TOKEN") as [token|]; [|done].
  by destruct (truthy token).
Qed.

(** Once lines 106-182 have completed the package holds [auth]: with the
    calls of the closure in, the events of the run are those up to the
    token, where the constructor may have called [auth] back, followed by
    the later ones with the calls [auth] makes. *)
Lemma setup_callbacks ns environ st fr st1 :
  setup ns environ st = (Return fr, st1) →
  ∃ tr0,
    st1.2 ++ token_events environ fr = st.2 ++ tr0 ∧
    ∀ rest,
      with_callbacks None st.1 (tr0 ++ rest)
      = with_callbacks None st.1 tr0
        ++ with_callbacks (Some (auth environ)) st1.1 rest.
Proof.
  unfold setup. rewrite bind_run.
  destruct (configure_logging environ st) as [[[]|e] st0] eqn:Hlog; [|done].
  intros Hmake.
  destruct (configure_logging_callbacks _ _ _ Hlog) as (tr & Htr & Hsame & Hsplit).
  destruct (make_objects_constructs _ _ _ _ _ Hmake) as (c & Hc & ->).
  exists (tr ++ [ECall c None] ++ token_events environ fr).
  cbn [fst snd]. split; [by rewrite Htr, <- !app_assoc|].
  assert (∀ rest,
            with_callbacks None st.1
              (tr ++ [ECall c None] ++ token_events environ fr ++ rest)
            = tr ++ closure_events (auth environ) (lib_asks c st0.1)
                 ++ ECall c None :: token_events environ fr
                 ++ with_callbacks (Some (auth environ)) (lib_call c st0.1).2
                      rest) as Hall.
  { intros rest. rewrite Hsplit. cbn [app with_callbacks]. rewrite Hc.
    by rewrite with_callbacks_token. }
  intros rest.
  pose proof (Hall []) as Hnil. cbn [with_callbacks] in Hnil.
  rewrite !app_nil_r in Hnil.
  rewrite Hnil, <- !app_assoc, Hall. by rewrite <- ?app_assoc.
Qed.

(** One call, with the calls of the closure in: the [authenticate] calls
    the closure makes while the package serves the call, then how the call
    ended, then at most the traceback. *)
Lemma guarded_call_callbacks (c : call unit) au st :
  handed c = None →
  ∃ r tb,
    (guarded (do_call c) st).2.2 = st.2 ++ ECall c r :: tb ∧
    (tb = [] ∨ tb = [ETraceback]) ∧
    with_callbacks (Some au) st.1 (ECall c r :: tb)
    = closure_events au (lib_asks c st.1) ++ ECall c r :: tb.
Proof.
  intros Hc.
  assert (∀ r tb, tb = [] ∨ tb = [ETraceback] →
            with_callbacks (Some au) st.1 (ECall c r :: tb)
            = closure_events au (lib_asks c st.1) ++ ECall c r :: tb) as Hfull.
  { intros r tb Htb. cbn [with_callbacks]. rewrite Hc.
    by destruct Htb as [-> | ->]. }
  unfold guarded, do_call. destruct (lib_call c st.1) as [[[]|e] w].
  { exists None, []. split; [done|]. split; [by left|]. apply Hfull. by left. }
  assert (∃ r tb,
            (access_denied (w, st.2 ++ [ECall c (Some e)])).2.2
            = st.2 ++ ECall c r :: tb ∧
            (tb = [] ∨ tb = [ETraceback]) ∧
            with_callbacks (Some au) st.1 (ECall c r :: tb)
            = closure_events au (lib_asks c st.1) ++ ECall c r :: tb)
    as Hdenied.
  { exists (Some e), [ETraceback]. rewrite access_denied_run.
    cbn [fst snd]. rewrite <- app_assoc. split; [done|]. split; [by right|].
    apply Hfull. by right. }
  assert (∃ r tb,
            st.2 ++ [ECall c (Some e)] = st.2 ++ ECall c r :: tb ∧
            (tb = [] ∨ tb = [ETraceback]) ∧
            with_callbacks (Some au) st.1 (ECall c r :: tb)
            = closure_events au (lib_asks c st.1) ++ ECall c r :: tb)
    as Hraised.
  { exists (Some e), []. split; [done|]. split; [by left|].
    apply Hfull. by left. }
  destruct e as [|errs| | | | |]; try exact Hraised; [exact Hdenied|].
  by destruct (any_unauthorized errs).
Qed.

(** The same from the start of the run, once lines 106-182 have completed
    and the token has been set. *)
Lemma run_call_callbacks ns environ st fr st1 (c : call unit) :
  setup ns environ st = (Return fr, st1) →
  handed c = None →
  let st2 := (st1.1, st1.2 ++ token_events environ fr) in
  ∃ tr0 r tb,
    (guarded (do_call c) st2).2.2 = st.2 ++ tr0 ++ ECall c r :: tb ∧
    (tb = [] ∨ tb = [ETraceback]) ∧
    with_callbacks None st.1 (tr0 ++ ECall c r :: tb)
    = with_callbacks None st.1 tr0
      ++ closure_events (auth environ) (lib_asks c st2.1) ++ ECall c r :: tb.
Proof.
  intros Hsetup Hc st2.
  destruct (setup_callbacks _ _ _ _ _ Hsetup) as (tr0 & Htr0 & Hsplit).
  destruct (guarded_call_callbacks c (auth environ) st2 Hc)
    as (r & tb & Hrun & Htb & Hfull).
  exists tr0, r, tb. split; [|split; [done|]].
  - rewrite Hrun. unfold st2. cbn [snd]. by rewrite Htr0, <- app_assoc.
  - rewrite Hsplit. f_equal. exact Hfull.
Qed.

(** X12. check-target needs a target name and at least one file: once lines
    106-182 have completed and the token has been set, with fewer than two
    positional arguments [doit] fails with the parser error "too few
    arguments" and no method has been called; otherwise the one statement
    that runs is [check_target(args[0], *args[1:])] on the [DTufCopy]. With
    the calls of the [auth] closure in, the events of the run end with: one
    [authenticate] of the closure for each use the package makes of the
    callback while it serves [check_target], then [check_target] ending,
    then at most the traceback. *)
Theorem check_target_arguments ns environ isatty st fr st1 :
  op ns = "check-target" →
  setup ns environ st = (Return fr, st1) →
  let st2 := (st1.1, st1.2 ++ token_events environ fr) in
  let result := doit ns environ isatty st in
  ((length (args ns) < 2)%nat →
     result = (Raise (SystemExit 2),
               (st2.1, st2.2 ++ [EParserError "too few arguments"])) ∧
     no_method_called st result.2) ∧
  (∀ target files,
     args ns = target :: files → files ≠ [] →
     let c := CheckTarget DTufCopy target files in
     result = guarded (do_call c) st2 ∧
     ∃ tr0 r tb,
       result.2.2 = st.2 ++ tr0 ++ ECall c r :: tb ∧
       (tb = [] ∨ tb = [ETraceback]) ∧
       with_callbacks None st.1 (tr0 ++ ECall c r :: tb)
       = with_callbacks None st.1 tr0
         ++ closure_events (auth environ) (lib_asks c st2.1)
         ++ ECall c r :: tb).
Proof.
  intros Hop Hsetup st2 result.
  pose proof (setup_frame _ _ _ _ _ Hsetup) as Hfr. rewrite Hop in Hfr.
  change (frame_for "check-target")
    with (Frame None None (Some DTufCopy) DTufCopy) in Hfr.
  assert (∀ target files,
            args ns = target :: files → files ≠ [] →
            result = guarded (do_call (CheckTarget DTufCopy target files)) st2)
    as Hcall.
  { intros target files Hargs Hfiles.
    unfold result, doit. rewrite bind_run, Hsetup.
    unfold _doit, dispatch. rewrite Hop, Hargs. subst fr.
    destruct files as [|f files]; [done|]. simpl.
    unfold guarded. by rewrite !bind_run, set_token_run. }
  split.
  - intros Hlen. apply Nat.ltb_lt in Hlen.
    unfold result, doit. rewrite bind_run, Hsetup.
    unfold _doit, dispatch. rewrite Hop.
    change (String.eqb "check-target" "auth") with false. cbv iota.
    repeat match goal with
           | |- context [if String.eqb "check-target" ?s then _ else _] =>
               change (String.eqb "check-target" s) with false; cbv iota
           end.
    change (String.eqb "check-target" "check-target") with true. cbv iota.
    rewrite Hlen. by apply (guarded_parser_error ns environ st fr st1).
  - intros target files Hargs Hfiles c. split; [by apply Hcall|].
    rewrite (Hcall _ _ Hargs Hfiles).
    by apply (run_call_callbacks ns environ st fr st1).
Qed.

(** X13. The key passwords reach the key life-cycle methods in the order
    root, targets, snapshot, timestamp. Once lines 106-182 have completed and
    the token has been set, without positional arguments: create-root-key
    passes [DTUF_ROOT_KEY_PASSWORD] alone; create-metadata and reset-keys pass
    all four; create-metadata-keys and push-metadata pass the three metadata
    passwords and never the root one, push-metadata with [progress] after
    them. An unset variable is passed as [None]. That call, on the
    [DTufMaster], is the one statement that runs; with the calls of the
    [auth] closure in, the events of the run end with: one [authenticate] of
    the closure for each use the package makes of the callback while it
    serves the call, then the call ending, then at most the traceback. *)
Theorem key_passwords_in_order ns environ isatty st fr st1 :
  args ns = [] →
  setup ns environ st = (Return fr, st1) →
  let st2 := (st1.1, st1.2 ++ token_events environ fr) in
  let result := doit ns environ isatty st in
  let root := environ !! "DTUF_ROOT_KEY_PASSWORD" in
  let targets := environ !! "DTUF_TARGETS_KEY_PASSWORD" in
  let snapshot := environ !! "DTUF_SNAPSHOT_KEY_PASSWORD" in
  let timestamp := environ !! "DTUF_TIMESTAMP_KEY_PASSWORD" in
  let runs (c : call unit) :=
    result = guarded (do_call c) st2 ∧
    ∃ tr0 r tb,
      result.2.2 = st.2 ++ tr0 ++ ECall c r :: tb ∧
      (tb = [] ∨ tb = [ETraceback]) ∧
      with_callbacks None st.1 (tr0 ++ ECall c r :: tb)
      = with_callbacks None st.1 tr0
        ++ closure_events (auth environ) (lib_asks c st2.1)
        ++ ECall c r :: tb in
  (op ns = "create-root-key" → runs (CreateRootKey DTufMaster root)) ∧
  (op ns = "create-metadata-keys" →
     runs (CreateMetadataKeys DTufMaster targets snapshot timestamp)) ∧
  (op ns = "create-metadata" →
     runs (CreateMetadata DTufMaster root targets snapshot timestamp)) ∧
  (op ns = "reset-keys" →
     runs (ResetKeys DTufMaster root targets snapshot timestamp)) ∧
  (op ns = "push-metadata" →
     runs (PushMetadata DTufMaster targets snapshot timestamp
             (progress environ isatty))).
Proof.
  intros Hargs Hsetup st2 result root targets snapshot timestamp runs.
  pose proof (setup_frame _ _ _ _ _ Hsetup) as Hfr.
  assert (∀ c : call unit,
            handed c = None → result = guarded (do_call c) st2 → runs c)
    as Hruns.
  { intros c Hc Hrun. split; [done|]. rewrite Hrun.
    by apply (run_call_callbacks ns environ st fr st1). }
  split; [|split; [|split; [|split]]];
    intros Hop; (apply Hruns; [done|]); rewrite Hop in Hfr;
    unfold result, doit; rewrite bind_run, Hsetup;
    unfold _doit, dispatch; rewrite Hop, Hargs; subst fr;
    unfold guarded; simpl; by rewrite !bind_run, set_token_run.
Qed.

Lemma var_run {A} name (a : A) st : var name (Some a) st = (Return a, st).
Proof. reflexivity. Qed.

(** The loop of del-target on a bound [dtuf_master]. *)
Lemma del_target_loop names : ∀ st : state,
  ∃ k failure w,
    for_each names
      (fun name => o ← var "dtuf_master" (Some DTufMaster);
                   do_call (DelTarget o name)) st
    = (match failure with None => Return tt | Some e => Raise e end,
       (w, st.2 ++ del_target_events names k failure)) ∧
    match failure with
    | None => k = length names
    | Some _ => (k < length names)%nat
    end.
Proof.
  induction names as [|name names IH]; intros st.
  - exists 0%nat, None, st.1. simpl. rewrite app_nil_r. by destruct st.
  - cbn [for_each]. destruct st as [w0 tr0]. rewrite !bind_run, var_run.
    destruct (lib_call (DelTarget DTufMaster name) w0) as [[[]|e] w] eqn:Hcall;
      rewrite (do_call_run _ _ _ _ _ Hcall).
    + destruct (IH (w, tr0 ++ [ECall (DelTarget DTufMaster name) None]))
        as (k & failure & w' & Hrun & Hk).
      exists (S k), failure, w'. cbn [raised]. rewrite Hrun. split.
      * unfold del_target_events. simpl. by rewrite <- !app_assoc.
      * destruct failure; simpl; lia.
    + exists 0%nat, (Some e), w. split; [done|]. simpl. lia.
Qed.

(** The events of the del-target loop are events of statements. *)
Lemma del_target_statement_events au names k failure :
  Forall (statement_event au) (del_target_events names k failure).
Proof.
  unfold del_target_events. apply Forall_app. split.
  - apply Forall_fmap, Forall_forall. intros name _. split; [done|].
    by intros ? [=].
  - destruct failure as [e|]; [|constructor].
    destruct (names !! k) as [name|]; [|constructor].
    constructor; [|constructor]. split; [done|]. by intros ? [=].
Qed.

(** X14. del-target deletes the targets in the order given and stops at the
    first [del_target] that raises: once lines 106-182 have completed and the
    token has been set, the statements that run are [del_target(name)] on
    the [DTufMaster] for the first [k] names, all returning, then -- unless
    all names are done and [doit] returns 0 -- one for the next name,
    raising; the names after it are never tried. What that call raised is
    handled as any exception is: [errno.EACCES] after the traceback when it
    is (or wraps) a [DXFUnauthorizedError], raised to the caller otherwise.
    With the calls of the [auth] closure in, the only other calls are the
    [authenticate] calls the closure makes when the package calls it
    back. *)
Theorem del_target_stops_at_first_failure ns environ isatty st fr st1 :
  op ns = "del-target" →
  setup ns environ st = (Return fr, st1) →
  let st2 := (st1.1, st1.2 ++ token_events environ fr) in
  let result := doit ns environ isatty st in
  ∃ k failure w,
    let calls := del_target_events (args ns) k failure in
    let tr := st2.2 ++ calls in
    match failure with
    | None => k = length (args ns) ∧ result = (Return 0, (w, tr))
    | Some e =>
        (k < length (args ns))%nat ∧
        (unauthorized e →
           result = (Return EACCES, (w, tr ++ [ETraceback]))) ∧
        (¬ unauthorized e → result = (Raise e, (w, tr)))
    end ∧
    ∃ tr0 full,
      st2.2 = st.2 ++ tr0 ∧
      with_callbacks None st.1 (tr0 ++ calls)
      = with_callbacks None st.1 tr0 ++ full ∧
      filter (fun ev => is_closure_call ev = false) full = calls ∧
      Forall (fun ev => is_closure_call ev = true →
                ∃ o response x, ev = ECall (auth environ o response) x) full.
Proof.
  intros Hop Hsetup st2 result.
  pose proof (setup_frame _ _ _ _ _ Hsetup) as Hfr. rewrite Hop in Hfr.
  change (frame_for "del-target")
    with (Frame None (Some DTufMaster) None DTufMaster) in Hfr. subst fr.
  destruct (del_target_loop (args ns) st2) as (k & failure & w & Hrun & Hk).
  exists k, failure, w. cbv zeta. split.
  2:{ destruct (setup_callbacks _ _ _ _ _ Hsetup) as (tr0 & Htr0 & Hsplit).
      exists tr0, (with_callbacks (Some (auth environ)) st1.1
                     (del_target_events (args ns) k failure)).
      split; [exact Htr0|]. split; [apply Hsplit|].
      apply with_callbacks_adds; [by intros ? [= <-]|].
      apply del_target_statement_events. }
  set (loop := for_each (args ns)
                 (fun name => o ← var "dtuf_master" (Some DTufMaster);
                              do_call (DelTarget o name))) in Hrun.
  assert (result = guarded loop st2) as ->.
  { unfold result, doit. rewrite bind_run, Hsetup.
    unfold _doit, dispatch. rewrite Hop. unfold guarded. simpl.
    by rewrite !bind_run, set_token_run. }
  destruct failure as [e|].
  - split; [done|]. exact (guarded_raise _ _ _ _ Hrun).
  - split; [done|]. unfold guarded. by rewrite Hrun.
Qed.

End Branches.

(** As [emits_step], with the condition of an [if] without [else] kept. *)
Ltac emits_step_when :=
  match goal with
  | |- emits _ _ (when ?c _) => destruct c eqn:?; cbn [when]
  | |- emits _ _ (parser_error _) => apply emits_parser_error; reflexivity
  | _ => emits_step
  end.

(** A [print] in a branch: the tests that led there contradict
    [printless]. *)
Ltac print_leaf Hq :=
  repeat match goal with
         | H : String.eqb _ _ = true |- _ => apply String.eqb_eq in H; subst
         end;
  try done;
  try (intros; done);
  try (exfalso; cbn in Hq;
       repeat match goal with
              | H : bool_decide _ = true |- _ => rewrite H in Hq
              end;
       cbn in Hq; congruence).

Section Endings.
Context `{PyLib} `{!World}.

Lemma Forall_emitted {A} (P : event → Prop) (m : M A) st :
  emits P (fun _ => True) m →
  ∃ tr, (m st).2.2 = st.2 ++ tr ∧ Forall P tr.
Proof. intros Hm. destruct (Hm st) as (tr & ? & ? & _). eauto. Qed.

(** X15. The key life-cycle sub-commands, push-target, del-target,
    push-metadata and check-target never print; nor does pull-target unless
    [DTUF_BLOB_INFO] is '1' -- standard output then carries the blobs and
    nothing else. *)
Theorem printless_commands ns environ isatty st :
  printless (op ns) environ = true →
  ∃ tr, (doit ns environ isatty st).2.2 = st.2 ++ tr ∧
        Forall (fun ev => is_print ev = false) tr.
Proof.
  intros Hq. apply Forall_emitted. destruct ns as [o r a]. simpl in Hq.
  unfold doit. eapply emits_bind with (Q := fun _ => True).
  - unfold setup, configure_logging, make_objects.
    repeat emits_step; done.
  - intros fr _. apply emits_guarded; [done|].
    unfold _doit, dispatch, set_token. cbn [op repo args].
    repeat emits_step_when; print_leaf Hq.
Qed.

(** Nothing before the handlers of [doit] prints a traceback. *)
Lemma setup_no_traceback ns environ :
  emits (fun ev => is_traceback ev = false) (fun _ => True) (setup ns environ).
Proof.
  unfold setup, configure_logging, make_objects. repeat emits_step; done.
Qed.

Lemma _doit_no_traceback ns environ pr fr :
  emits (fun ev => is_traceback ev = false) (fun _ => True)
        (_doit ns environ pr fr).
Proof.
  unfold _doit, dispatch, set_token.
  repeat match goal with
         | |- emits _ _ (parser_error _) =>
             apply emits_parser_error; reflexivity
         | _ => emits_step
         end; done.
Qed.

(** X16. How a run of [doit] ends, and [main] with it. Either [doit]
    returns 0 and no traceback was printed; or it returns [errno.EACCES]
    (13) and the traceback is the last thing it did, printed once; or it
    raises, without a traceback. It returns nothing else. [main] exits with
    the status [doit] returned and lets an exception of [doit] through. *)
Theorem doit_exit_status ns environ isatty st :
  let result := doit ns environ isatty st in
  ∃ tr,
    result.2.2 = st.2 ++ tr ∧
    ((result.1 = Return 0 ∧ Forall (fun ev => is_traceback ev = false) tr) ∨
     (result.1 = Return EACCES ∧
      ∃ tr0, tr = tr0 ++ [ETraceback] ∧
             Forall (fun ev => is_traceback ev = false) tr0) ∨
     (∃ e, result.1 = Raise e ∧
           Forall (fun ev => is_traceback ev = false) tr)) ∧
    main ns environ isatty st
    = (match result.1 with
       | Return code => Raise (SystemExit code)
       | Raise e => Raise e
       end, result.2).
Proof.
  intros result.
  assert (main ns environ isatty st
          = (match result.1 with
             | Return code => Raise (SystemExit code)
             | Raise e => Raise e
             end, result.2)) as Hmain.
  { unfold main. rewrite bind_run. fold result.
    by destruct result as [[code|e] st']. }
  destruct (Forall_emitted _ _ st (setup_no_traceback ns environ))
    as (tr1 & Htr1 & Hno1).
  subst result. unfold doit in *. rewrite bind_run in *.
  destruct (setup ns environ st) as [[fr|e] st1]; cbn [fst snd] in *.
  2:{ exists tr1. split; [done|]. split; [|done]. right. right. eauto. }
  destruct (Forall_emitted _ _ st1
              (_doit_no_traceback ns environ (progress environ isatty) fr))
    as (tr2 & Htr2 & Hno2).
  assert (Forall (fun ev => is_traceback ev = false) (tr1 ++ tr2)) as Hno
    by (by apply Forall_app).
  unfold guarded in *.
  destruct (_doit ns environ (progress environ isatty) fr st1)
    as [[[]|e] st2]; cbn [fst snd] in *.
  all: assert (st2.2 = st.2 ++ (tr1 ++ tr2)) as Htr
    by (rewrite Htr2, Htr1; symmetry; apply app_assoc).
  { exists (tr1 ++ tr2). split; [done|]. split; [|done]. left. by split. }
  assert (∃ tr, (access_denied st2).2.2 = st.2 ++ tr ∧
            ∃ tr0, tr = tr0 ++ [ETraceback] ∧
                   Forall (fun ev => is_traceback ev = false) tr0) as Hdenied.
  { exists ((tr1 ++ tr2) ++ [ETraceback]). rewrite access_denied_run.
    cbn [fst snd]. rewrite Htr. split; [symmetry; apply app_assoc|]. eauto. }
  destruct e as [|errs| | | | |];
    try (exists (tr1 ++ tr2); split; [done|]; split; [|done];
         right; right; eauto).
  - destruct Hdenied as (tr & Htr' & Hlast). exists tr.
    split; [done|]. split; [|done]. right. left. by split.
  - destruct (any_unauthorized errs).
    + destruct Hdenied as (tr & Htr' & Hlast). exists tr.
      split; [done|]. split; [|done]. right. left. by split.
    + exists (tr1 ++ tr2). split; [done|]. split; [|done].
      right. right. eauto.
Qed.

(** X17. The loop over [ex.mirror_errors.values()] gives the same answer in
    whatever order the dictionary yields the errors. *)
Theorem mirror_errors_order_irrelevant errs errs' :
  errs ≡ₚ errs' → any_unauthorized errs = any_unauthorized errs'.
Proof.
  intros Hperm.
  destruct (any_unauthorized errs) eqn:H1, (any_unauthorized errs') eqn:H2;
    try done.
  - apply any_unauthorized_spec in H1 as [url Hin]. rewrite Hperm in Hin.
    assert (any_unauthorized errs' = true) as Heq
      by (apply any_unauthorized_spec; eauto). congruence.
  - apply any_unauthorized_spec in H2 as [url Hin]. rewrite <- Hperm in Hin.
    assert (any_unauthorized errs = true) as Heq
      by (apply any_unauthorized_spec; eauto). congruence.
Qed.

End Endings.

End MainFacts.

(** * Properties of the output, the logs and the transport *)

Module OutputFacts.
Import Cli CliFacts Main MainFacts Output.

Section Steps.
Context `{PyLib} `{!World}.

Lemma in_steps_ret {A} B (a : A) : in_steps B (mret a).
Proof. intros st. exists []. simpl. by rewrite app_nil_r. Qed.

Lemma in_steps_raise {A} B e : in_steps B (raise (A := A) e).
Proof. intros st. exists []. simpl. by rewrite app_nil_r. Qed.

Lemma in_steps_bind {A C} B (m : M A) (f : A → M C) :
  in_steps B m → (∀ a, in_steps B (f a)) → in_steps B (m ≫= f).
Proof.
  intros Hm Hf st. rewrite bind_run. destruct (Hm st) as (trs & Htr & HB).
  destruct (m st) as [[a|e] st1]; simpl in *.
  - destruct (Hf a st1) as (trs' & Htr' & HB').
    exists (trs ++ trs'). rewrite Htr', Htr, concat_app, app_assoc.
    split; [done|]. by apply Forall_app.
  - by exists trs.
Qed.

Lemma in_steps_var {A} B name (v : option A) : in_steps B (var name v).
Proof. destruct v; [apply in_steps_ret|apply in_steps_raise]. Qed.

Lemma in_steps_for_each {A} B (l : list A) body :
  (∀ x, in_steps B (body x)) → in_steps B (for_each l body).
Proof.
  intros Hbody. induction l as [|x l IH]; simpl; [apply in_steps_ret|].
  apply in_steps_bind; [apply Hbody|done].
Qed.

Lemma in_steps_for_in {A} B (it : iter A) body :
  (∀ x, in_steps B (body x)) → in_steps B (for_in it body).
Proof.
  intros Hbody. unfold for_in.
  apply in_steps_bind; [by apply in_steps_for_each|]. intros _.
  destruct (failure it); [apply in_steps_raise|apply in_steps_ret].
Qed.

Lemma in_steps_call {A} (B : list event → Prop) (c : call A) :
  (∀ r, B [ECall c r]) → in_steps B (do_call c).
Proof.
  intros Hc st. unfold do_call. destruct (lib_call c st.1) as [r w].
  exists [[ECall c (raised r)]]. simpl. split; [done|]. by repeat constructor.
Qed.

Lemma in_steps_print_call {A} (B : list event → Prop) line (c : call A) :
  (∀ r, B [EPrint line; ECall c r]) → in_steps B (print line;; do_call c).
Proof.
  intros Hc st. rewrite bind_run. unfold print, emit, do_call. simpl.
  destruct (lib_call c st.1) as [r w].
  exists [[EPrint line; ECall c (raised r)]]. simpl.
  rewrite <- app_assoc. split; [done|]. by repeat constructor.
Qed.

(** What the handlers of [doit] add to the run of the body: nothing, or the
    traceback with [errno.EACCES] returned. *)
Lemma guarded_adds body st :
  ∃ tb, (guarded body st).2.2 = (body st).2.2 ++ tb ∧
        (tb = [] ∨ tb = [ETraceback] ∧ (guarded body st).1 = Return EACCES).
Proof.
  unfold guarded. destruct (body st) as [[[]|e] st1]; simpl.
  { exists []. rewrite app_nil_r. by split; [|left]. }
  destruct e as [|errs| | | | |];
    try (exists []; rewrite app_nil_r; by split; [|left]).
  - exists [ETraceback]. by split; [|right].
  - destruct (any_unauthorized errs).
    + exists [ETraceback]. by split; [|right].
    + exists []. rewrite app_nil_r. by split; [|left].
Qed.

(** X18. pull-target with [DTUF_BLOB_INFO='1'], once lines 106-182 have
    completed and the token has been set: what follows is a sequence of
    steps, each either a call [pull_target(name, True)] on the [DTufCopy]
    or, for a blob, the line [dgst + ' ' + str(size)] immediately followed
    by that blob written to stdout with [progress] -- every blob is
    announced by its own line, and no line is printed without its blob being
    attempted. The handlers add at most the traceback, with
    [errno.EACCES]. *)
Theorem pull_target_announces_blobs ns environ isatty st fr st1 :
  op ns = "pull-target" →
  environ !! "DTUF_BLOB_INFO" = Some "1" →
  setup ns environ st = (Return fr, st1) →
  let st2 := (st1.1, st1.2 ++ token_events environ fr) in
  let result := doit ns environ isatty st in
  ∃ trs tb,
    result.2.2 = st2.2 ++ concat trs ++ tb ∧
    Forall (announced_step (progress environ isatty)) trs ∧
    (tb = [] ∨ tb = [ETraceback] ∧ result.1 = Return EACCES).
Proof.
  intros Hop Hinfo Hsetup st2 result.
  pose proof (setup_frame _ _ _ _ _ Hsetup) as Hfr. rewrite Hop in Hfr.
  change (frame_for "pull-target")
    with (Frame None None (Some DTufCopy) DTufCopy) in Hfr. subst fr.
  set (pr := progress environ isatty).
  set (body := for_each (args ns) (fun name =>
         blobs ← do_call (PullTarget DTufCopy name true);
         for_in blobs (fun '(it, dgst, size) =>
           print (dgst +:+ " " +:+ pretty size);;
           do_call (WriteWithProgress it dgst size pr)))).
  assert (result = guarded body st2) as ->.
  { unfold result, doit. rewrite bind_run, Hsetup.
    unfold _doit, dispatch. rewrite Hop, Hinfo.
    rewrite bool_decide_true by done. unfold guarded. simpl.
    by rewrite !bind_run, set_token_run. }
  assert (in_steps (announced_step pr) body) as Hsteps.
  { apply in_steps_for_each. intros name. apply in_steps_bind.
    - apply in_steps_call. intros r. left. eauto.
    - intros blobs. apply in_steps_for_in. intros [[it dgst] size].
      apply in_steps_print_call. intros r. right. eauto. }
  destruct (Hsteps st2) as (trs & Htr & Hann).
  destruct (guarded_adds body st2) as (tb & Htb & Hcase).
  exists trs, tb. by rewrite Htb, Htr, <- app_assoc.
Qed.

(** The loop [for name in names: print(name)] over an iterable that may
    fail part-way. *)
Lemma for_in_print (names : iter string) st :
  for_in names print st
  = (match failure names with Some e => Raise e | None => Return tt end,
     (st.1, st.2 ++ map EPrint (items names))).
Proof.
  unfold for_in. rewrite bind_run, print_loop. by destruct (failure names).
Qed.

(** X19. list-repos, and list-master-targets and list-copy-targets without
    positional arguments, once lines 106-182 have completed and the token
    has been set: the listing is fetched by one call -- [list_repos()] on
    the [DTufBase], [list_targets()] on the [DTufMaster] or the [DTufCopy]
    -- and each name it yields is printed by one [print], in order. When the
    iterable fails part-way the names before the failure have been printed
    already; the failure is then handled as any exception is. *)
Theorem listing_prints_names ns environ isatty st fr st1 :
  op ns = "list-repos" ∨
  (op ns = "list-master-targets" ∨ op ns = "list-copy-targets") ∧
  args ns = [] →
  setup ns environ st = (Return fr, st1) →
  let st2 := (st1.1, st1.2 ++ token_events environ fr) in
  let result := doit ns environ isatty st in
  ∀ names w,
    lib_call (listing (op ns)) st2.1 = (Return names, w) →
    let tr := st2.2 ++ ECall (listing (op ns)) None
                    :: map EPrint (items names) in
    match failure names with
    | None => result = (Return 0, (w, tr))
    | Some e =>
        (unauthorized e →
           result = (Return EACCES, (w, tr ++ [ETraceback]))) ∧
        (¬ unauthorized e → result = (Raise e, (w, tr)))
    end.
Proof.
  intros Hop Hsetup st2 result names w Hcall tr.
  pose proof (setup_frame _ _ _ _ _ Hsetup) as Hfr.
  set (body := names ← do_call (listing (op ns)); for_in names print).
  assert (result = guarded body st2) as ->.
  { unfold result, doit. rewrite bind_run, Hsetup.
    unfold _doit, dispatch, body, listing.
    destruct Hop as [Hop|[[Hop|Hop] Hargs]]; rewrite Hop in Hfr |- *;
      rewrite ?Hargs; subst fr; unfold guarded; simpl;
      by rewrite !bind_run, set_token_run. }
  assert (body st2
          = (match failure names with Some e => Raise e | None => Return tt end,
             (w, tr))) as Hbody.
  { unfold body. rewrite bind_run. unfold st2 in *.
    rewrite (do_call_run _ _ _ _ _ Hcall), for_in_print. simpl.
    by rewrite <- app_assoc. }
  destruct (failure names) as [e|].
  - exact (guarded_raise _ _ _ _ Hbody).
  - unfold guarded. by rewrite Hbody.
Qed.

End Steps.

Section Logging.
Context `{PyLib} `{!World}.

(** X20. With [DTUF_LOG_FILE] set to the empty string, file logging is
    switched off and [DTUF_FILE_LOG_LEVEL] is never read: two environments
    that agree on the documented variables other than that one give the same
    run -- a level name [logging] does not have does no harm there. *)
Theorem empty_log_file_ignores_file_level ns environ environ' isatty :
  environ !! "DTUF_LOG_FILE" = Some "" →
  (∀ k, k ∈ documented_variables → k ≠ "DTUF_FILE_LOG_LEVEL" →
        environ !! k = environ' !! k) →
  doit ns environ isatty = doit ns environ' isatty.
Proof.
  intros Hlog Hagree.
  assert (∀ k, str_in k documented_variables = true →
               String.eqb k "DTUF_FILE_LOG_LEVEL" = false →
               environ !! k = environ' !! k) as Hagree'.
  { intros k Hk Hl. apply Hagree; [by apply str_in_elem|].
    by apply String.eqb_neq. }
  clear Hagree.
  assert (environ' !! "DTUF_LOG_FILE" = Some "") as Hlog'
    by (by rewrite <- Hagree').
  assert (configure_logging environ = configure_logging environ') as Hconf.
  { unfold configure_logging. rewrite Hlog, Hlog'. simpl.
    by rewrite (Hagree' "DTUF_CONSOLE_LOG_LEVEL"). }
  unfold doit, setup. rewrite Hconf.
  unfold make_objects, progress, progress_enabled, _doit, dispatch, set_token.
  unfold get_lifetime, environ_item, auth, insecure.
  cbv beta zeta. cbn [String.append].
  repeat match goal with
         | |- context [environ !! ?k] =>
             rewrite (Hagree' k) by reflexivity
         end.
  reflexivity.
Qed.

(** X21. A log level name that [logging] does not have stops [doit] with
    [AttributeError] before [DTUF_HOST] is read or any object is
    constructed, and the exception is not caught: for the file level, right
    after the log file name is set, when file logging is on; for the console
    level, when file logging is off, right after it is switched off. *)
Theorem unknown_log_level_stops ns environ isatty st :
  let log_file := default "dtuf.log" (environ !! "DTUF_LOG_FILE") in
  let file_level := default "WARNING" (environ !! "DTUF_FILE_LOG_LEVEL") in
  let console_level :=
    default "WARNING" (environ !! "DTUF_CONSOLE_LOG_LEVEL") in
  (log_file ≠ "" → logging_getattr file_level = None →
     doit ns environ isatty st
     = (Raise (AttributeError file_level),
        (st.1, st.2 ++ [ELogFilename log_file]))) ∧
  (log_file = "" → logging_getattr console_level = None →
     doit ns environ isatty st
     = (Raise (AttributeError console_level),
        (st.1, st.2 ++ [EDisableFileLogging]))).
Proof.
  intros log_file file_level console_level.
  unfold doit, setup, configure_logging.
  fold log_file file_level console_level. split.
  - intros Hfile%String.eqb_neq Hlevel. unfold truthy.
    rewrite Hfile, Hlevel. reflexivity.
  - intros Hfile Hlevel. rewrite Hfile, Hlevel. reflexivity.
Qed.

(** X22. Only [DTUF_INSECURE='1'] selects http: set to anything else, the
    variable is the same as unset, for every sub-command. *)
Theorem insecure_only_when_one ns environ isatty v :
  v ≠ "1" →
  doit ns (<["DTUF_INSECURE" := v]> environ) isatty
  = doit ns (delete "DTUF_INSECURE" environ) isatty.
Proof.
  intros Hv.
  unfold doit, setup, configure_logging, make_objects, progress,
    progress_enabled, _doit, dispatch, set_token.
  unfold get_lifetime, environ_item, auth, insecure.
  cbv beta zeta. cbn [String.append].
  rewrite lookup_insert_eq, lookup_delete_eq.
  rewrite (bool_decide_ext (Some v = Some "1") (None = Some "1"))
    by (split; [by intros [= ?]|done]).
  by rewrite !lookup_insert_ne, !lookup_delete_ne by done.
Qed.

End Logging.

End OutputFacts.

(** * More runs against the scripted packages *)

Module MoreExamples.
Import Cli CliFacts Main MainFacts.

#[local] Existing Instance demo_pylib.
#[local] Existing Instance demo_world.

(** [HOME=/root dtuf list-copy-targets repo] *)
Lemma doit_reads_documented_variables_witness :
  doit (Build_Namespace "list-copy-targets" "repo" []) demo_environ false
  = doit (Build_Namespace "list-copy-targets" "repo" [])
         (<["HOME" := "/root"]> demo_environ) false.
Proof.
  apply doit_reads_documented_variables. intros k Hk.
  symmetry. apply lookup_insert_ne. intros <-.
  by apply str_in_elem in Hk.
Defined.

(** [dtuf list-repos] with [DTUF_HOST] unset. *)
Lemma doit_without_host_witness :
  (doit (Build_Namespace "list-repos" "" []) (delete "DTUF_HOST" demo_environ)
        false (demo_start LetIn)).1
  = Raise (KeyError "DTUF_HOST").
Proof.
  pose (environ := delete "DTUF_HOST" demo_environ).
  assert (environ !! "DTUF_HOST" = None) as Hhost by reflexivity.
  assert (configure_logging environ (demo_start LetIn)
          = (Return tt, (configure_logging environ (demo_start LetIn)).2))
    as Hlog by (vm_compute; reflexivity).
  fold environ.
  by rewrite (doit_without_host (Build_Namespace "list-repos" "" []) environ
                false (demo_start LetIn) _ Hhost Hlog).
Defined.

(** [DTUF_ROOT_LIFETIME=soon dtuf list-copy-targets repo] *)
Lemma lifetimes_only_for_master_witness :
  doit (Build_Namespace "list-copy-targets" "repo" []) demo_environ false
  = doit (Build_Namespace "list-copy-targets" "repo" [])
         (<["DTUF_ROOT_LIFETIME" := "soon"]> demo_environ) false.
Proof.
  apply lifetimes_only_for_master; [reflexivity|]. intros k _ Hk.
  symmetry. apply lookup_insert_ne. intros <-. apply Hk. by left.
Defined.

(** [DTUF_ROOT_LIFETIME=soon dtuf push-metadata repo] *)
Lemma bad_lifetime_stops_master_witness :
  (doit (Build_Namespace "push-metadata" "repo" [])
        (<["DTUF_ROOT_LIFETIME" := "soon"]> demo_environ) false
        (demo_start LetIn)).1
  = Raise (OtherError "TypeError").
Proof.
  pose (environ := <["DTUF_ROOT_LIFETIME" := "soon"]> demo_environ).
  assert (configure_logging environ (demo_start LetIn)
          = (Return tt, (configure_logging environ (demo_start LetIn)).2))
    as Hlog by (vm_compute; reflexivity).
  fold environ.
  by rewrite (bad_lifetime_stops_master
                (Build_Namespace "push-metadata" "repo" []) environ false
                (demo_start LetIn) _ "registry.example" "soon"
                (OtherError "TypeError") eq_refl eq_refl eq_refl eq_refl Hlog).
Defined.

(** [dtuf create-root-key repo extra] *)
Lemma extra_arguments_rejected_witness :
  (doit (Build_Namespace "create-root-key" "repo" ["extra"]) demo_environ false
        (demo_start LetIn)).1
  = Raise (SystemExit 2).
Proof.
  pose (ns := Build_Namespace "create-root-key" "repo" ["extra"]).
  assert (op ns ∈ no_argument_ops) as Hop by (simpl; constructor).
  assert (args ns ≠ []) as Hargs by done.
  assert (setup ns demo_environ (demo_start LetIn)
          = (Return (frame_for (op ns)),
             (setup ns demo_environ (demo_start LetIn)).2))
    as Hsetup by (vm_compute; reflexivity).
  destruct (extra_arguments_rejected ns demo_environ false (demo_start LetIn)
              _ _ Hop Hargs Hsetup) as [Hrun _].
  fold ns. by rewrite Hrun.
Defined.

(** [dtuf auth repo pull] with [DTUF_PASSWORD] unset. *)
Lemma auth_needs_credentials_witness :
  (doit (Build_Namespace "auth" "repo" ["pull"])
        (delete "DTUF_PASSWORD" demo_environ) false (demo_start LetIn)).1
  = Raise (KeyError "DTUF_PASSWORD").
Proof.
  pose (ns := Build_Namespace "auth" "repo" ["pull"]).
  pose (environ := delete "DTUF_PASSWORD" demo_environ).
  assert (setup ns environ (demo_start LetIn)
          = (Return (frame_for (op ns)),
             (setup ns environ (demo_start LetIn)).2))
    as Hsetup by (vm_compute; reflexivity).
  destruct (auth_needs_credentials ns environ false (demo_start LetIn) _ _
              eq_refl Hsetup) as [_ Hpassword].
  fold ns environ. by rewrite Hpassword.
Defined.

(** [dtuf check-target repo v1 file.bin] against a registry that asks for
    credentials, and [dtuf check-target repo v1]. *)
Lemma check_target_arguments_witness :
  (∃ st2 tr0 r tb,
     let c := CheckTarget DTufCopy "v1" ["file.bin"] in
     doit (Build_Namespace "check-target" "repo" ["v1"; "file.bin"])
          demo_environ false (demo_start Challenge)
     = guarded (do_call c) st2 ∧
     with_callbacks None Challenge (tr0 ++ ECall c r :: tb)
     = with_callbacks None Challenge tr0
       ++ ECall (AuthenticateResponse DTufCopy (Some "alice") (Some "secret")
                   "401 Unauthorized") None :: ECall c r :: tb) ∧
  (doit (Build_Namespace "check-target" "repo" ["v1"]) demo_environ false
        (demo_start LetIn)).1 = Raise (SystemExit 2).
Proof.
  split.
  - pose (ns := Build_Namespace "check-target" "repo" ["v1"; "file.bin"]).
    assert (setup ns demo_environ (demo_start Challenge)
            = (Return (frame_for (op ns)),
               (setup ns demo_environ (demo_start Challenge)).2))
      as Hsetup by (vm_compute; reflexivity).
    destruct (check_target_arguments ns demo_environ false
                (demo_start Challenge) _ _ eq_refl Hsetup) as [_ Hcall].
    destruct (Hcall "v1" ["file.bin"] eq_refl ltac:(done))
      as (Hrun & tr0 & r & tb & _ & _ & Hfull).
    eexists _, tr0, r, tb. split; [exact Hrun|exact Hfull].
  - pose (ns := Build_Namespace "check-target" "repo" ["v1"]).
    assert (setup ns demo_environ (demo_start LetIn)
            = (Return (frame_for (op ns)),
               (setup ns demo_environ (demo_start LetIn)).2))
      as Hsetup by (vm_compute; reflexivity).
    destruct (check_target_arguments ns demo_environ false (demo_start LetIn)
                _ _ eq_refl Hsetup) as [Hfew _].
    destruct Hfew as [Hrun _]; [simpl; lia|]. fold ns. by rewrite Hrun.
Defined.

(** [DTUF_ROOT_KEY_PASSWORD=r DTUF_SNAPSHOT_KEY_PASSWORD=s dtuf create-metadata
    repo] *)
Lemma key_passwords_in_order_witness :
  ∃ st2,
    doit (Build_Namespace "create-metadata" "repo" [])
         (<["DTUF_ROOT_KEY_PASSWORD" := "r"]>
            (<["DTUF_SNAPSHOT_KEY_PASSWORD" := "s"]> demo_environ))
         false (demo_start LetIn)
    = guarded (do_call (CreateMetadata DTufMaster (Some "r") None (Some "s")
                          None)) st2.
Proof.
  pose (ns := Build_Namespace "create-metadata" "repo" []).
  pose (environ := <["DTUF_ROOT_KEY_PASSWORD" := "r"]>
                     (<["DTUF_SNAPSHOT_KEY_PASSWORD" := "s"]> demo_environ)).
  assert (setup ns environ (demo_start LetIn)
          = (Return (frame_for (op ns)),
             (setup ns environ (demo_start LetIn)).2))
    as Hsetup by (vm_compute; reflexivity).
  destruct (key_passwords_in_order ns environ false (demo_start LetIn) _ _
              eq_refl Hsetup) as (_ & _ & Hcreate & _).
  destruct (Hcreate eq_refl) as [Hrun _].
  eexists. exact Hrun.
Defined.

(** [dtuf del-target repo v1 v2] against a registry that refuses the
    caller: [v2] is never tried. *)
Lemma del_target_stops_at_first_failure_witness :
  let result := doit (Build_Namespace "del-target" "repo" ["v1"; "v2"])
                     demo_environ false (demo_start Refuse) in
  ∃ k failure,
    match failure with
    | None => k = 2%nat ∧ result.1 = Return 0
    | Some e =>
        (k < 2)%nat ∧
        (unauthorized e → result.1 = Return EACCES) ∧
        (¬ unauthorized e → result.1 = Raise e)
    end.
Proof.
  pose (ns := Build_Namespace "del-target" "repo" ["v1"; "v2"]).
  assert (setup ns demo_environ (demo_start Refuse)
          = (Return (frame_for (op ns)),
             (setup ns demo_environ (demo_start Refuse)).2))
    as Hsetup by (vm_compute; reflexivity).
  destruct (del_target_stops_at_first_failure ns demo_environ false
              (demo_start Refuse) _ _ eq_refl Hsetup)
    as (k & failure & w & Hrun).
  intros result. exists k, failure. cbv zeta in Hrun. fold ns in result.
  destruct Hrun as [Hrun _].
  destruct failure as [e|].
  - destruct Hrun as (Hk & Hdenied & Hraise). split; [exact Hk|].
    split; intros He; unfold result;
      [by rewrite (Hdenied He)|by rewrite (Hraise He)].
  - destruct Hrun as [Hk Hreturn]. split; [exact Hk|].
    unfold result. by rewrite Hreturn.
Defined.

(** [dtuf pull-target repo v1] without [DTUF_BLOB_INFO]. *)
Lemma printless_commands_witness :
  ∃ tr,
    (doit (Build_Namespace "pull-target" "repo" ["v1"]) demo_environ false
          (demo_start LetIn)).2.2 = tr ∧
    Forall (fun ev => is_print ev = false) tr.
Proof.
  destruct (printless_commands (Build_Namespace "pull-target" "repo" ["v1"])
              demo_environ false (demo_start LetIn) eq_refl)
    as (tr & Htr & Hquiet).
  by exists tr.
Defined.

(** The same two errors, yielded in either order. *)
Lemma mirror_errors_order_irrelevant_witness :
  any_unauthorized [("https://a/", OtherError "Timeout");
                    ("https://b/", DXFUnauthorizedError)]
  = any_unauthorized [("https://b/", DXFUnauthorizedError);
                      ("https://a/", OtherError "Timeout")].
Proof. apply mirror_errors_order_irrelevant. apply perm_swap. Defined.

End MoreExamples.

(** * Runs of the listing and download sub-commands *)

Module OutputExamples.
Import Cli CliFacts Main MainFacts Output OutputFacts.

#[local] Existing Instance demo_pylib.
#[local] Existing Instance demo_world.

(** [DTUF_BLOB_INFO=1 dtuf pull-target repo v1] *)
Lemma pull_target_announces_blobs_witness :
  let environ := <["DTUF_BLOB_INFO" := "1"]> demo_environ in
  let ns := Build_Namespace "pull-target" "repo" ["v1"] in
  ∃ tr0 trs tb,
    (doit ns environ false (demo_start LetIn)).2.2 = tr0 ++ concat trs ++ tb ∧
    Forall (announced_step (progress environ false)) trs.
Proof.
  intros environ ns.
  assert (setup ns environ (demo_start LetIn)
          = (Return (frame_for (op ns)),
             (setup ns environ (demo_start LetIn)).2))
    as Hsetup by (vm_compute; reflexivity).
  destruct (pull_target_announces_blobs ns environ false (demo_start LetIn)
              _ _ eq_refl eq_refl Hsetup) as (trs & tb & Htr & Hsteps & _).
  eexists _, trs, tb. split; [exact Htr|exact Hsteps].
Defined.

(** [dtuf list-repos] *)
Lemma listing_prints_names_witness :
  ∃ tr0,
    doit (Build_Namespace "list-repos" "" []) demo_environ false
         (demo_start LetIn)
    = (Return 0,
       (LetIn, tr0 ++ ECall (ListRepos DTufBase) None
                   :: map EPrint ["repo1"])).
Proof.
  pose (ns := Build_Namespace "list-repos" "" []).
  assert (setup ns demo_environ (demo_start LetIn)
          = (Return (frame_for (op ns)),
             (setup ns demo_environ (demo_start LetIn)).2))
    as Hsetup by (vm_compute; reflexivity).
  eexists. fold ns.
  exact (listing_prints_names ns demo_environ false (demo_start LetIn) _ _
           (or_introl eq_refl) Hsetup (Iter ["repo1"] None) LetIn eq_refl).
Defined.

(** [DTUF_LOG_FILE= DTUF_FILE_LOG_LEVEL=LOUD dtuf list-repos] *)
Lemma empty_log_file_ignores_file_level_witness :
  doit (Build_Namespace "list-repos" "" [])
       (<["DTUF_LOG_FILE" := ""]> demo_environ) false
  = doit (Build_Namespace "list-repos" "" [])
         (<["DTUF_FILE_LOG_LEVEL" := "LOUD"]>
            (<["DTUF_LOG_FILE" := ""]> demo_environ)) false.
Proof.
  apply empty_log_file_ignores_file_level; [reflexivity|].
  intros k _ Hk. symmetry. by apply lookup_insert_ne.
Defined.

(** [DTUF_CONSOLE_LOG_LEVEL=LOUD DTUF_LOG_FILE= dtuf list-repos] *)
Lemma unknown_log_level_stops_witness :
  (doit (Build_Namespace "list-repos" "" [])
        (<["DTUF_CONSOLE_LOG_LEVEL" := "LOUD"]>
           (<["DTUF_LOG_FILE" := ""]> demo_environ)) false
        (demo_start LetIn)).1
  = Raise (AttributeError "LOUD").
Proof.
  destruct (unknown_log_level_stops (Build_Namespace "list-repos" "" [])
              (<["DTUF_CONSOLE_LOG_LEVEL" := "LOUD"]>
                 (<["DTUF_LOG_FILE" := ""]> demo_environ)) false
              (demo_start LetIn)) as [_ Hconsole].
  by rewrite (Hconsole eq_refl eq_refl).
Defined.

(** [DTUF_INSECURE=yes dtuf list-repos] *)
Lemma insecure_only_when_one_witness :
  doit (Build_Namespace "list-repos" "" [])
       (<["DTUF_INSECURE" := "yes"]> demo_environ) false
  = doit (Build_Namespace "list-repos" "" [])
         (delete "DTUF_INSECURE" demo_environ) false.
Proof. by apply insecure_only_when_one. Defined.

End OutputExamples.
